(** * dphpc_lmq: elementwise sine and sigmoid kernels for a Snitch cluster

    Shallow embedding of [src/onnx/sin.c], [src/onnx/sigmoid.c] and
    [src/benchmark/benchmark_mem_versus_l1.c].

    - C [float] and [double] values are IEEE-754 values ([spec_float]);
      arithmetic is the Standard Library's executable specification at
      precision 24/128 (binary32) and 53/1024 (binary64).
    - [size_t] and [unsigned] are 32-bit on the RV32 target: a [Z] with the
      wrap-around written out ([size_t]).
    - The C functions run in a state-and-failure monad over a machine that
      holds the three buffers, the two stream data movers, the stream-enable
      flag, the floating-point registers the inline assembly names, and a
      trace of memory and stream accesses.  Undefined behaviour (an access
      outside a buffer, a division by zero, an exhausted stream) is [None].
    - [sinf] and [exp] belong to libm and are parameters.
    - [spec_float] has one NaN: payloads are not distinguished. *)

From Stdlib Require Import ZArith Lia Bool.
From Stdlib Require Import Floats.SpecFloat.
From stdpp Require Import base decidable option list sorting.

Open Scope Z_scope.

(** ** Numbers *)

Definition float := spec_float.

Definition f32_mul : float -> float -> float := SFmul 24 128.
Definition f64_mul : float -> float -> float := SFmul 53 1024.
Definition f64_add : float -> float -> float := SFadd 53 1024.
Definition f64_div : float -> float -> float := SFdiv 53 1024.
Definition f64_eqb : float -> float -> bool := SFeqb.

(** Conversion of an integer to [double] (exact for 32-bit values). *)
Definition f64_of_Z (z : Z) : float := binary_normalize 53 1024 z 0 false.

(** Conversion of a [double] to [float]: round to nearest even. *)
Definition f32_of_f64 (x : float) : float :=
  match x with
  | S754_finite s m e => binary_round 24 128 s m e
  | _ => x
  end.

(** Promotion of a [float] to [double] (exact). *)
Definition f64_of_f32 (x : float) : float :=
  match x with
  | S754_finite s m e => binary_round 53 1024 s m e
  | _ => x
  end.

(** [#define M_PI 3.14159265358979323846], as the nearest [double]. *)
Definition M_PI : float := S754_finite false 7074237752028440 (-51).

(** The [double] literals [2.0] and the [int] literal [1] used as [double]. *)
Definition f64_two : float := f64_of_Z 2.
Definition f64_one : float := f64_of_Z 1.

(** [(int)x]: truncation toward zero; undefined for NaN, infinities and
    values outside the range of [int]. *)
Definition int_of_float (x : float) : option Z :=
  match x with
  | S754_zero _ => Some 0
  | S754_finite s m e =>
      let t := Z.shiftl (Zpos m) e in
      let v := if s then - t else t in
      if decide (- 2 ^ 31 <= v < 2 ^ 31) then Some v else None
  | _ => None
  end.

(** [size_t] and [unsigned] arithmetic wraps modulo [2^32]. *)
Definition size_t (z : Z) : Z := z mod 2 ^ 32.

Definition sizeof_float : Z := 4.
Definition sizeof_double : Z := 8.

(** ** Machine state *)

Inductive buffer := BArr | BResult | BTable.

#[global] Instance buffer_eq_dec : EqDecision buffer.
Proof. solve_decision. Defined.

(** A pointer into one of the buffers; the offset counts elements. *)
Record pointer := Ptr { p_buf : buffer; p_off : Z }.

Definition ptr_add (p : pointer) (k : Z) : pointer :=
  Ptr (p_buf p) (p_off p + k).

Inductive dm_id := SNRT_SSR_DM0 | SNRT_SSR_DM1.

#[global] Instance dm_id_eq_dec : EqDecision dm_id.
Proof. solve_decision. Defined.

Inductive ssr_dim := SNRT_SSR_1D.

Inductive direction := StreamRead | StreamWrite.

(** One stream data mover: the configured loop bound (number of elements),
    the stride in bytes, the repetition count, the armed direction and base
    pointer, and the number of elements moved since it was armed. *)
Record data_mover := DataMover {
  dm_bound : Z;
  dm_stride : Z;
  dm_repeat : Z;
  dm_target : option (direction * pointer);
  dm_count : Z
}.

Inductive freg := fa0 | ft0 | ft1 | ft2.

#[global] Instance freg_eq_dec : EqDecision freg.
Proof. solve_decision. Defined.

Inductive event :=
  | EvLoad (b : buffer) (i : Z)
  | EvStore (b : buffer) (i : Z)
  | EvConsume (d : dm_id) (b : buffer) (i : Z)
  | EvProduce (d : dm_id) (b : buffer) (i : Z).

Record machine := Machine {
  m_mem : buffer -> list float;
  m_dm : dm_id -> data_mover;
  m_ssr : bool;
  m_freg : freg -> float;
  m_trace : list event
}.

Definition set_mem (b : buffer) (l : list float) (st : machine) : machine :=
  Machine (fun b' => if decide (b' = b) then l else m_mem st b')
          (m_dm st) (m_ssr st) (m_freg st) (m_trace st).

Definition set_dm (d : dm_id) (c : data_mover) (st : machine) : machine :=
  Machine (m_mem st) (fun d' => if decide (d' = d) then c else m_dm st d')
          (m_ssr st) (m_freg st) (m_trace st).

Definition set_ssr (on : bool) (st : machine) : machine :=
  Machine (m_mem st) (m_dm st) on (m_freg st) (m_trace st).

Definition set_freg (r : freg) (v : float) (st : machine) : machine :=
  Machine (m_mem st) (m_dm st) (m_ssr st)
          (fun r' => if decide (r' = r) then v else m_freg st r') (m_trace st).

Definition log (e : event) (st : machine) : machine :=
  Machine (m_mem st) (m_dm st) (m_ssr st) (m_freg st) (m_trace st ++ [e]).

(** A data mover after reset: nothing armed, every element delivered once. *)
Definition dm_reset : data_mover := DataMover 0 0 1 None 0.

(** The machine a core starts a kernel with: streaming off, data movers at
    reset, registers holding zero, an empty trace. *)
Definition boot (mem : buffer -> list float) : machine :=
  Machine mem (fun _ => dm_reset) false (fun _ => S754_zero false) [].

Definition memory (arr result table : list float) : buffer -> list float :=
  fun b => match b with BArr => arr | BResult => result | BTable => table end.

(** ** The monad *)

Definition M (A : Type) : Type := machine -> option (A * machine).

Definition ret {A} (a : A) : M A := fun st => Some (a, st).

Definition bind {A B} (c : M A) (k : A -> M B) : M B :=
  fun st => match c st with
            | Some (a, st') => k a st'
            | None => None
            end.

Definition undefined {A} : M A := fun _ => None.

Definition modify (f : machine -> machine) : M unit :=
  fun st => Some (tt, f st).

Notation "'do' x <- c ; k" := (bind c (fun x => k))
  (at level 10, x name, c at level 100, k at level 200).
Notation "'do_' c ; k" := (bind c (fun _ => k))
  (at level 10, c at level 100, k at level 200).

(** [for (size_t i = 0; i < n; i++) body(i)] *)
Fixpoint forM (l : list Z) (body : Z -> M unit) : M unit :=
  match l with
  | [] => ret tt
  | i :: l' => do_ body i; forM l' body
  end.

Definition for_loop (n : Z) (body : Z -> M unit) : M unit :=
  forM (seqZ 0 n) body.

(** What a C function hands back: the value of its [return] statement, or
    nothing when control runs off the end of the body. *)
Inductive retval := RetInt (v : Z) | RetMissing.

(** ** Memory accesses *)

Definition zlookup {A} (l : list A) (i : Z) : option A :=
  if decide (0 <= i) then l !! Z.to_nat i else None.

(** [p[i]] as an rvalue. *)
Definition load (p : pointer) (i : Z) : M float :=
  fun st =>
    let j := p_off p + i in
    match zlookup (m_mem st (p_buf p)) j with
    | Some v => Some (v, log (EvLoad (p_buf p) j) st)
    | None => None
    end.

(** [p[i] = v]. *)
Definition store (p : pointer) (i : Z) (v : float) : M unit :=
  fun st =>
    let j := p_off p + i in
    match zlookup (m_mem st (p_buf p)) j with
    | Some _ =>
        Some (tt, log (EvStore (p_buf p) j)
                      (set_mem (p_buf p)
                               (<[Z.to_nat j := v]> (m_mem st (p_buf p))) st))
    | None => None
    end.

(** ** Stream semantic registers (Snitch runtime) *)

Definition snrt_ssr_loop_1d (d : dm_id) (b0 s0 : Z) : M unit :=
  modify (fun st =>
    let c := m_dm st d in
    set_dm d (DataMover b0 s0 (dm_repeat c) (dm_target c) (dm_count c)) st).

Definition snrt_ssr_repeat (d : dm_id) (count : Z) : M unit :=
  modify (fun st =>
    let c := m_dm st d in
    set_dm d (DataMover (dm_bound c) (dm_stride c) count (dm_target c)
                        (dm_count c)) st).

Definition snrt_ssr_read (d : dm_id) (dim : ssr_dim) (p : pointer) : M unit :=
  modify (fun st =>
    let c := m_dm st d in
    set_dm d (DataMover (dm_bound c) (dm_stride c) (dm_repeat c)
                        (Some (StreamRead, p)) 0) st).

Definition snrt_ssr_write (d : dm_id) (dim : ssr_dim) (p : pointer) : M unit :=
  modify (fun st =>
    let c := m_dm st d in
    set_dm d (DataMover (dm_bound c) (dm_stride c) (dm_repeat c)
                        (Some (StreamWrite, p)) 0) st).

Definition snrt_ssr_enable : M unit := modify (set_ssr true).
Definition snrt_ssr_disable : M unit := modify (set_ssr false).

(** The compiler builtins that set and clear the same enable bit. *)
Definition __builtin_ssr_enable : M unit := modify (set_ssr true).
Definition __builtin_ssr_disable : M unit := modify (set_ssr false).

(** Element index the data mover addresses next, for elements of [esz]
    bytes. *)
Definition dm_index (c : data_mover) (p : pointer) (esz : Z) : Z :=
  p_off p + (dm_count c / dm_repeat c) * (dm_stride c / esz).

Definition dm_advance (c : data_mover) : data_mover :=
  DataMover (dm_bound c) (dm_stride c) (dm_repeat c) (dm_target c)
            (dm_count c + 1).

(** A stream-consuming register read: the data mover supplies the next
    element.  Reading an exhausted or unarmed stream never completes. *)
Definition stream_pop (d : dm_id) (esz : Z) : M float :=
  fun st =>
    let c := m_dm st d in
    match dm_target c with
    | Some (StreamRead, p) =>
        if decide (dm_count c < dm_bound c * dm_repeat c) then
          let j := dm_index c p esz in
          match zlookup (m_mem st (p_buf p)) j with
          | Some v =>
              Some (v, log (EvConsume d (p_buf p) j) (set_dm d (dm_advance c) st))
          | None => None
          end
        else None
    | _ => None
    end.

(** A stream-producing register write: the data mover stores the value at
    the next address. *)
Definition stream_push (d : dm_id) (esz : Z) (v : float) : M unit :=
  fun st =>
    let c := m_dm st d in
    match dm_target c with
    | Some (StreamWrite, p) =>
        if decide (dm_count c < dm_bound c * dm_repeat c) then
          let j := dm_index c p esz in
          match zlookup (m_mem st (p_buf p)) j with
          | Some _ =>
              Some (tt, log (EvProduce d (p_buf p) j)
                            (set_mem (p_buf p)
                                     (<[Z.to_nat j := v]> (m_mem st (p_buf p)))
                                     (set_dm d (dm_advance c) st)))
          | None => None
          end
        else None
    | _ => None
    end.

(** With streaming enabled [ft0] is fed by data mover 0 and [ft1] drains
    into data mover 1.  The kernels configure these two data movers only and
    use [ft2] as a scratch register inside the stream region; here every
    other register is an ordinary register. *)
Definition stream_of (r : freg) : option dm_id :=
  match r with
  | ft0 => Some SNRT_SSR_DM0
  | ft1 => Some SNRT_SSR_DM1
  | _ => None
  end.

Definition read_freg (esz : Z) (r : freg) : M float :=
  fun st =>
    match stream_of r with
    | Some d => if m_ssr st then stream_pop d esz st else Some (m_freg st r, st)
    | None => Some (m_freg st r, st)
    end.

Definition write_freg (esz : Z) (r : freg) (v : float) : M unit :=
  fun st =>
    match stream_of r with
    | Some d =>
        if m_ssr st then stream_push d esz v st else Some (tt, set_freg r v st)
    | None => Some (tt, set_freg r v st)
    end.

(** ** Instructions of the inline assembly *)

Definition fmv_s (rd rs : freg) : M unit :=
  do v <- read_freg sizeof_float rs; write_freg sizeof_float rd v.

Definition fneg_d (rd rs : freg) : M unit :=
  do v <- read_freg sizeof_double rs; write_freg sizeof_double rd (SFopp v).

Definition fdiv_d (rd rs1 rs2 : freg) : M unit :=
  do a <- read_freg sizeof_double rs1;
  do b <- read_freg sizeof_double rs2;
  write_freg sizeof_double rd (f64_div a b).

Definition fadd_d (rd rs1 rs2 : freg) : M unit :=
  do a <- read_freg sizeof_double rs1;
  do b <- read_freg sizeof_double rs2;
  write_freg sizeof_double rd (f64_add a b).

(** [call f]: argument and result travel in [fa0]; the temporaries are
    caller-saved and hold nothing meaningful afterwards.  The callee is free
    to touch the stream registers, so a call with streaming enabled is
    outside the model. *)
Definition call (f : float -> float) : M unit :=
  fun st =>
    if m_ssr st then None
    else
      Some (tt, Machine (m_mem st) (m_dm st) (m_ssr st)
                        (fun r => match r with
                                  | fa0 => f (m_freg st fa0)
                                  | _ => S754_nan
                                  end)
                        (m_trace st)).

(** ** Platform *)

(** What the cluster runtime reports to the calling core. *)
Record cluster := Cluster {
  snrt_cluster_core_num : Z;
  snrt_cluster_core_idx : Z
}.

(** [n / d] on [size_t]; division by zero is undefined. *)
Definition size_div (n d : Z) : M Z :=
  if decide (d = 0) then undefined else ret (n / d).

(** ** [src/onnx/sin.c] *)

Section Sin.
Variable sinf : float -> float.

(** [sin_baseline], sin.c:15-20. *)
Definition sin_baseline (arr : pointer) (n : Z) (result : pointer) : M retval :=
  do_ for_loop n (fun i =>
        do x <- load arr i;
        store result i (sinf x));
  ret (RetInt 0).

(** One iteration of the streamed loop of [sin_ssr] (sin.c:50-84) and of
    [sin_ssr_omp] (sin.c:286-320): consume from [ft0], leave the stream
    region for the call, re-enter it, produce into [ft1]. *)
Definition sin_ssr_iteration : M unit :=
  do_ fmv_s fa0 ft0;
  do_ __builtin_ssr_disable;
  do_ call sinf;
  do_ __builtin_ssr_enable;
  fmv_s ft1 fa0.

(** One iteration of the streamed loop of [sin_ssr_parallel]
    (sin.c:148-182), which toggles streaming through the runtime. *)
Definition sin_ssr_parallel_iteration : M unit :=
  do_ fmv_s fa0 ft0;
  do_ snrt_ssr_disable;
  do_ call sinf;
  do_ snrt_ssr_enable;
  fmv_s ft1 fa0.

(** [sin_ssr], sin.c:23-91. *)
Definition sin_ssr (arr : pointer) (n : Z) (result : pointer) : M retval :=
  do_ snrt_ssr_loop_1d SNRT_SSR_DM0 n sizeof_float;
  do_ snrt_ssr_repeat SNRT_SSR_DM0 1;
  do_ snrt_ssr_read SNRT_SSR_DM0 SNRT_SSR_1D arr;
  do_ snrt_ssr_loop_1d SNRT_SSR_DM1 n sizeof_float;
  do_ snrt_ssr_repeat SNRT_SSR_DM1 1;
  do_ snrt_ssr_write SNRT_SSR_DM1 SNRT_SSR_1D result;
  do_ snrt_ssr_enable;
  do_ for_loop n (fun _ => sin_ssr_iteration);
  do_ snrt_ssr_disable;
  ret (RetInt 0).

(** [sin_ssr_frep], sin.c:94-104. *)
Definition sin_ssr_frep (arr : pointer) (n : Z) (result : pointer) : M retval :=
  do_ sin_ssr arr n result;
  ret (RetInt 0).

(** [sin_parallel], sin.c:107-126. *)
Definition sin_parallel (hw : cluster) (arr : pointer) (n : Z)
    (result : pointer) : M retval :=
  let core_num := size_t (snrt_cluster_core_num hw - 1) in
  let core_idx := size_t (snrt_cluster_core_idx hw) in
  do local_n <- size_div n core_num;
  let do_extra :=
    if decide (core_idx < size_t (n - size_t (local_n * core_num)))
    then 1 else 0 in
  do_ for_loop local_n (fun i =>
        do x <- load arr (size_t (size_t (core_idx * local_n) + i));
        store result (size_t (size_t (core_idx * local_n) + i)) (sinf x));
  do_ (if decide (do_extra = 0) then ret tt
       else
         do x <- load arr (size_t (size_t (core_num * local_n) + core_idx));
         store result (size_t (size_t (core_num * local_n) + core_idx))
               (sinf x));
  ret (RetInt 0).

(** [sin_ssr_parallel], sin.c:129-193. *)
Definition sin_ssr_parallel (hw : cluster) (arr : pointer) (n : Z)
    (result : pointer) : M retval :=
  let core_num := size_t (snrt_cluster_core_num hw - 1) in
  let core_idx := size_t (snrt_cluster_core_idx hw) in
  do local_n <- size_div n core_num;
  let do_extra :=
    if decide (core_idx < size_t (n - size_t (local_n * core_num)))
    then 1 else 0 in
  do_ snrt_ssr_loop_1d SNRT_SSR_DM0 local_n sizeof_float;
  do_ snrt_ssr_read SNRT_SSR_DM0 SNRT_SSR_1D
        (ptr_add arr (size_t (core_idx * local_n)));
  do_ snrt_ssr_loop_1d SNRT_SSR_DM1 local_n sizeof_float;
  do_ snrt_ssr_write SNRT_SSR_DM1 SNRT_SSR_1D
        (ptr_add result (size_t (core_idx * local_n)));
  do_ snrt_ssr_enable;
  do_ for_loop local_n (fun _ => sin_ssr_parallel_iteration);
  do_ snrt_ssr_disable;
  do_ (if decide (do_extra = 0) then ret tt
       else
         do x <- load arr (size_t (size_t (core_num * local_n) + core_idx));
         store result (size_t (size_t (core_num * local_n) + core_idx))
               (sinf x));
  ret (RetInt 0).

(** [float factor = lookup_table_size / M_PI * 2.0;] (sin.c:200, 230):
    the quotient and the product are [double], the initialisation rounds
    to [float]. *)
Definition lookup_factor (lookup_table_size : Z) : float :=
  f32_of_f64 (f64_mul (f64_div (f64_of_Z lookup_table_size) M_PI) f64_two).

(** [sin_baseline_lookup_table], sin.c:199-204.  The body has no [return]
    statement. *)
Definition sin_baseline_lookup_table (arr : pointer) (n : Z)
    (result lookup_table : pointer) (lookup_table_size : Z) : M retval :=
  let factor := lookup_factor lookup_table_size in
  do_ for_loop n (fun i =>
        do x <- load arr i;
        match int_of_float (f32_mul x factor) with
        | Some k => do v <- load lookup_table k; store result i v
        | None => undefined
        end);
  ret RetMissing.

(** [sin_omp], sin.c:208-214.  The work-sharing loop hands every iteration
    to exactly one thread of the team; with the static schedule the chunks
    are contiguous, and the iterations are laid out here in index order.
    The source fixes no order between the threads: only the positions
    accessed and the values stored are meaningful for this kernel, not the
    order of its trace. *)
Definition sin_omp (arr : pointer) (n : Z) (result : pointer) : M retval :=
  do_ for_loop n (fun i =>
        do x <- load arr i;
        store result i (sinf x));
  ret (RetInt 0).

(** [sin_ssr_lookup_table], sin.c:217-250.  The loop is commented out in
    the source; [factor] is computed and never used. *)
Definition sin_ssr_lookup_table (arr : pointer) (n : Z)
    (result lookup_table : pointer) (lookup_table_size : Z) : M retval :=
  do_ snrt_ssr_loop_1d SNRT_SSR_DM0 n sizeof_float;
  do_ snrt_ssr_repeat SNRT_SSR_DM0 1;
  do_ snrt_ssr_read SNRT_SSR_DM0 SNRT_SSR_1D arr;
  do_ snrt_ssr_loop_1d SNRT_SSR_DM1 n sizeof_float;
  do_ snrt_ssr_repeat SNRT_SSR_DM1 1;
  do_ snrt_ssr_write SNRT_SSR_DM1 SNRT_SSR_1D result;
  do_ snrt_ssr_enable;
  let factor := lookup_factor lookup_table_size in
  do_ snrt_ssr_disable;
  ret (RetInt 0).

(** [sin_ssr_omp], sin.c:252-333: the parallel region as one core of the
    team executes it. *)
Definition sin_ssr_omp (hw : cluster) (arr : pointer) (n : Z)
    (result : pointer) : M retval :=
  let core_num := size_t (snrt_cluster_core_num hw - 1) in
  let core_idx := size_t (snrt_cluster_core_idx hw) in
  do local_n <- size_div n core_num;
  let do_extra :=
    if decide (core_idx < size_t (n - size_t (local_n * core_num)))
    then 1 else 0 in
  do_ snrt_ssr_loop_1d SNRT_SSR_DM0 local_n sizeof_float;
  do_ snrt_ssr_repeat SNRT_SSR_DM0 1;
  do_ snrt_ssr_read SNRT_SSR_DM0 SNRT_SSR_1D
        (ptr_add arr (size_t (core_idx * local_n)));
  do_ snrt_ssr_loop_1d SNRT_SSR_DM1 (size_t (local_n + 1)) sizeof_float;
  do_ snrt_ssr_repeat SNRT_SSR_DM1 1;
  do_ snrt_ssr_write SNRT_SSR_DM1 SNRT_SSR_1D
        (ptr_add result (size_t (core_idx * local_n)));
  do_ snrt_ssr_enable;
  do_ for_loop local_n (fun _ => sin_ssr_iteration);
  do_ snrt_ssr_disable;
  do_ (if decide (do_extra = 0) then ret tt
       else
         do x <- load arr (size_t (size_t (local_n * core_num) + core_idx));
         store result (size_t (size_t (local_n * core_num) + core_idx))
               (sinf x));
  ret (RetInt 0).
End Sin.

(** ** [src/onnx/sigmoid.c] *)

Section Sigmoid.
Variable exp : float -> float.

(** [sigmoid_baseline], sigmoid.c:10-16. *)
Definition sigmoid_baseline (arr : pointer) (n : Z) (result : pointer)
    : M retval :=
  do_ for_loop n (fun i =>
        do x <- load arr i;
        store result i (f64_div f64_one (f64_add f64_one (exp (SFopp x)))));
  ret (RetInt 0).

(** One iteration of the streamed loop, sigmoid.c:38-74. *)
Definition sigmoid_ssr_iteration : M unit :=
  do_ fneg_d fa0 ft0;
  do_ snrt_ssr_disable;
  do_ call exp;
  do_ snrt_ssr_enable;
  do_ fdiv_d ft2 fa0 fa0;
  do_ fadd_d fa0 ft2 fa0;
  fdiv_d ft1 ft2 fa0.

(** [sigmoid_ssr], sigmoid.c:19-81. *)
Definition sigmoid_ssr (arr : pointer) (n : Z) (result : pointer) : M retval :=
  do_ snrt_ssr_loop_1d SNRT_SSR_DM0 n sizeof_double;
  do_ snrt_ssr_repeat SNRT_SSR_DM0 1;
  do_ snrt_ssr_read SNRT_SSR_DM0 SNRT_SSR_1D arr;
  do_ snrt_ssr_loop_1d SNRT_SSR_DM1 n sizeof_double;
  do_ snrt_ssr_repeat SNRT_SSR_DM1 1;
  do_ snrt_ssr_write SNRT_SSR_DM1 SNRT_SSR_1D result;
  do_ snrt_ssr_enable;
  do_ for_loop n (fun _ => sigmoid_ssr_iteration);
  do_ snrt_ssr_disable;
  ret (RetInt 0).

(** [sigmoid_ssr_frep], sigmoid.c:84-91. *)
Definition sigmoid_ssr_frep (arr : pointer) (n : Z) (result : pointer)
    : M retval :=
  ret (RetInt 0).
End Sigmoid.

(** ** Strategies as the harness sees them *)

Definition ARR : pointer := Ptr BArr 0.
Definition RESULT : pointer := Ptr BResult 0.
Definition TABLE : pointer := Ptr BTable 0.

Inductive strategy :=
  | SinBaseline | SinSsr | SinSsrFrep | SinParallel | SinSsrParallel
  | SinBaselineLookupTable | SinOmp | SinSsrLookupTable | SinSsrOmp
  | SigmoidBaseline | SigmoidSsr | SigmoidSsrFrep.

(** The call the harness makes for each strategy, on the input buffer, the
    output buffer and (for the table variants) the lookup table. *)
Definition kernel (sinf exp : float -> float) (S : strategy) (hw : cluster)
    (n lookup_table_size : Z) : M retval :=
  match S with
  | SinBaseline => sin_baseline sinf ARR n RESULT
  | SinSsr => sin_ssr sinf ARR n RESULT
  | SinSsrFrep => sin_ssr_frep sinf ARR n RESULT
  | SinParallel => sin_parallel sinf hw ARR n RESULT
  | SinSsrParallel => sin_ssr_parallel sinf hw ARR n RESULT
  | SinBaselineLookupTable =>
      sin_baseline_lookup_table ARR n RESULT TABLE lookup_table_size
  | SinOmp => sin_omp sinf ARR n RESULT
  | SinSsrLookupTable => sin_ssr_lookup_table ARR n RESULT TABLE lookup_table_size
  | SinSsrOmp => sin_ssr_omp sinf hw ARR n RESULT
  | SigmoidBaseline => sigmoid_baseline exp ARR n RESULT
  | SigmoidSsr => sigmoid_ssr exp ARR n RESULT
  | SigmoidSsrFrep => sigmoid_ssr_frep ARR n RESULT
  end.

(** Strategies that split the array over the worker cores themselves. *)
Definition partitioned (S : strategy) : bool :=
  match S with
  | SinParallel | SinSsrParallel | SinSsrOmp => true
  | _ => false
  end.

(** Strategies that configure the stream data movers. *)
Definition streamed (S : strategy) : bool :=
  match S with
  | SinSsr | SinSsrFrep | SinSsrParallel | SinSsrLookupTable | SinSsrOmp
  | SigmoidSsr => true
  | _ => false
  end.

(** SPMD execution: every core in [cores] runs the kernel to completion on
    the shared buffers, with its own registers and data movers.  The cores are
    taken one after the other in the order of the list. *)
Fixpoint run_cores (k : cluster -> M retval) (core_num : Z) (cores : list Z)
    (mem : buffer -> list float) : option (buffer -> list float) :=
  match cores with
  | [] => Some mem
  | c :: cores' =>
      match k (Cluster core_num c) (boot mem) with
      | Some (_, st) => run_cores k core_num cores' (m_mem st)
      | None => None
      end
  end.

(** The cores a measurement of [S] runs on. *)
Definition workers (S : strategy) (core_num : Z) : list Z :=
  if partitioned S then seqZ 0 (core_num - 1) else [0].

(** Modelled from the spec: the harness that calls the strategies is not
    among the sources.  One measurement: a partitioned strategy is invoked
    identically on every worker core [0 .. core_num - 2] (the kernels take
    [snrt_cluster_core_num() - 1] as the number of workers), any other
    strategy on core 0 alone. *)
Definition run (sinf exp : float -> float) (S : strategy) (core_num : Z)
    (n lookup_table_size : Z) (mem : buffer -> list float)
    : option (buffer -> list float) :=
  run_cores (fun hw => kernel sinf exp S hw n lookup_table_size) core_num
            (workers S core_num) mem.

(** Trace queries. *)
Definition is_consume (e : event) : bool :=
  match e with EvConsume _ _ _ => true | _ => false end.

Definition is_produce (e : event) : bool :=
  match e with EvProduce _ _ _ => true | _ => false end.

Definition consumed (t : list event) : Z := Z.of_nat (length (filter is_consume t)).
Definition produced (t : list event) : Z := Z.of_nat (length (filter is_produce t)).

(** A read of the lookup table. *)
Definition reads_table (e : event) : Prop :=
  match e with
  | EvLoad b _ | EvConsume _ b _ => b = BTable
  | _ => False
  end.

(** Any access to a buffer other than a read of the input, a read of the
    table, or a write of the output. *)
Definition stray (e : event) : Prop :=
  match e with
  | EvLoad b _ | EvConsume _ b _ => b = BResult
  | EvStore b _ | EvProduce _ b _ => b <> BResult
  end.

(** ** The work split of the partitioned strategies, as index lists

    These lists describe the split; [sin_parallel_ok], [sin_ssr_parallel_ok]
    and [sin_ssr_omp_ok] below show that they are the positions the kernels
    access. *)

(** The positions core [core_idx] of [core_num] workers handles for an array
    of [n] elements: its block, then its extra element if it gets one. *)
Definition local_range (core_num core_idx n : Z) : list Z :=
  seqZ (core_idx * (n / core_num)) (n / core_num).

Definition extra_element (core_num core_idx n : Z) : list Z :=
  if decide (core_idx < n - n / core_num * core_num)
  then [n / core_num * core_num + core_idx] else [].

Definition assigned (core_num core_idx n : Z) : list Z :=
  local_range core_num core_idx n ++ extra_element core_num core_idx n.

(** The positions a call of strategy [S] on core [hw] is responsible for. *)
Definition assigned_to (S : strategy) (hw : cluster) (n : Z) : list Z :=
  if partitioned S
  then assigned (snrt_cluster_core_num hw - 1) (snrt_cluster_core_idx hw) n
  else seqZ 0 n.

(** ** [src/benchmark/benchmark_mem_versus_l1.c] *)

Module Benchmark.

(** Where an allocation lives. *)
Inductive tier := MainMemory | Scratchpad.

(** The four allocations of [main], named by the variable that holds
    them. *)
Inductive buf := memory_x | memory_target | memory_target_from_l1 | memory_l1.

#[global] Instance buf_eq_dec : EqDecision buf.
Proof. solve_decision. Defined.

Inductive label := copy_memory_to_memory | copy_l1_to_memory.

Inductive bevent :=
  | Alloc (b : buf) (t : tier) (count : Z)
  | BLoad (b : buf) (i : Z)
  | BStore (b : buf) (i : Z)
  | ReadCycle (k : nat)
  | Printf (l : label) (size cycles : Z)
  | VerifyVector (a b : buf).

Record bstate := BState {
  b_mem : buf -> list float;
  b_reads : nat;
  b_trace : list bevent
}.

Definition B (A : Type) : Type := bstate -> A * bstate.

Definition bret {A} (a : A) : B A := fun st => (a, st).

Definition bbind {A C} (c : B A) (k : A -> B C) : B C :=
  fun st => let (a, st') := c st in k a st'.

Notation "'bdo' x <- c ; k" := (bbind c (fun x => k))
  (at level 10, x name, c at level 100, k at level 200).
Notation "'bdo_' c ; k" := (bbind c (fun _ => k))
  (at level 10, c at level 100, k at level 200).

Definition emit (e : bevent) : B unit :=
  fun st => (tt, BState (b_mem st) (b_reads st) (b_trace st ++ [e])).

Fixpoint each (l : list Z) (body : Z -> B unit) : B unit :=
  match l with
  | [] => bret tt
  | i :: l' => bdo_ body i; each l' body
  end.

Definition bfor (n : Z) (body : Z -> B unit) : B unit := each (seqZ 0 n) body.

(** [(float)i - 20.0], stored into a [float]: the [int] is rounded to
    [float], promoted to [double] for the subtraction, and the difference
    is rounded back. *)
Definition init_value (i : Z) : float :=
  f32_of_f64 (SFsub 53 1024
                    (f64_of_f32 (binary_normalize 24 128 i 0 false))
                    (f64_of_Z 20)).

Section Main.
(** The compiled-in array length of [benchmark.h]. *)
Variable size : Z.
(** Successive values of the [mcycle] counter. *)
Variable mcycle : nat -> Z.
(** The index the runtime reports for the calling core. *)
Variable snrt_global_core_idx : Z.

Definition alloc (b : buf) (t : tier) (count : Z) : B unit :=
  fun st =>
    (tt, BState (fun b' => if decide (b' = b)
                           then replicate (Z.to_nat count) (S754_zero false)
                           else b_mem st b')
                (b_reads st) (b_trace st ++ [Alloc b t count])).

(** Modelled from the spec: [allocate] of [lmq.h] is not among the sources;
    it is the platform's main-memory allocation.  [snrt_l1alloc] of the
    Snitch runtime allocates in the cluster scratchpad. *)
Definition allocate (b : buf) (count : Z) : B unit := alloc b MainMemory count.
Definition snrt_l1alloc (b : buf) (count : Z) : B unit := alloc b Scratchpad count.

Definition bload (b : buf) (i : Z) : B float :=
  fun st =>
    (default S754_nan (zlookup (b_mem st b) i),
     BState (b_mem st) (b_reads st) (b_trace st ++ [BLoad b i])).

Definition bstore (b : buf) (i : Z) (v : float) : B unit :=
  fun st =>
    (tt, BState (fun b' => if decide (b' = b)
                           then <[Z.to_nat i := v]> (b_mem st b)
                           else b_mem st b')
                (b_reads st) (b_trace st ++ [BStore b i])).

Definition read_csr_mcycle : B Z :=
  fun st =>
    (mcycle (b_reads st),
     BState (b_mem st) (S (b_reads st))
            (b_trace st ++ [ReadCycle (b_reads st)])).

(** [main], benchmark_mem_versus_l1.c:7-44. *)
Definition main : B Z :=
  let core_idx := snrt_global_core_idx in
  if decide (core_idx <> 0) then bret 1
  else
    bdo_ allocate memory_x size;
    bdo_ allocate memory_target size;
    bdo_ allocate memory_target_from_l1 size;
    bdo_ bfor size (fun i => bstore memory_x i (init_value i));
    bdo _start_ <- read_csr_mcycle;
    bdo_ bfor size (fun i =>
           bdo v <- bload memory_x i; bstore memory_target i v);
    bdo _end_ <- read_csr_mcycle;
    bdo_ emit (Printf copy_memory_to_memory size (size_t (_end_ - _start_)));
    bdo_ snrt_l1alloc memory_l1 size;
    bdo start_l1 <- read_csr_mcycle;
    bdo_ bfor size (fun i =>
           bdo v <- bload memory_x i; bstore memory_target_from_l1 i v);
    bdo end_l1 <- read_csr_mcycle;
    bdo_ emit (Printf copy_l1_to_memory size (size_t (end_l1 - start_l1)));
    bdo_ emit (VerifyVector memory_target memory_x);
    bdo_ emit (VerifyVector memory_target memory_target_from_l1);
    bret 0.
End Main.

Definition start : bstate := BState (fun _ => []) 0 [].

(** The events between the [k]-th and the [k+1]-th read of the cycle
    counter: what the measurement started at read [k] times. *)
Fixpoint after_read (k : nat) (t : list bevent) : list bevent :=
  match t with
  | [] => []
  | ReadCycle j :: t' => if decide (j = k) then t' else after_read k t'
  | _ :: t' => after_read k t'
  end.

Fixpoint until_read (t : list bevent) : list bevent :=
  match t with
  | [] => []
  | ReadCycle _ :: _ => []
  | e :: t' => e :: until_read t'
  end.

Definition timed (k : nat) (t : list bevent) : list bevent :=
  until_read (after_read k t).

Definition touches (b : buf) (e : bevent) : bool :=
  match e with
  | BLoad b' _ | BStore b' _ => bool_decide (b' = b)
  | _ => false
  end.

Definition loads_of (t : list bevent) : list (buf * Z) :=
  omap (fun e => match e with BLoad b i => Some (b, i) | _ => None end) t.
End Benchmark.

(** ** Effect of an elementwise kernel on the buffers *)

(** [elementwise g idx m m']: going from [m] to [m'] the input and the table
    are untouched, and the output holds [g input[j]] at every position of
    [idx] and its old value elsewhere. *)
Definition elementwise (g : float -> option float) (idx : list Z)
    (m m' : buffer -> list float) : Prop :=
  m' BArr = m BArr /\ m' BTable = m BTable /\
  length (m' BResult) = length (m BResult) /\
  forall j, zlookup (m' BResult) j =
            if decide (j ∈ idx) then zlookup (m BArr) j ≫= g
            else zlookup (m BResult) j.


(** [streaming st b0 b1 esz off c]: inside a stream region in which data
    mover 0 reads the input from position [off] with bound [b0], data mover 1
    writes the output from position [off] with bound [b1], both with
    elements of [esz] bytes, and [c] elements have gone through each. *)
Definition streaming (st : machine) (b0 b1 esz off c : Z) : Prop :=
  m_ssr st = true /\
  m_dm st SNRT_SSR_DM0 =
    DataMover b0 esz 1 (Some (StreamRead, Ptr BArr off)) c /\
  m_dm st SNRT_SSR_DM1 =
    DataMover b1 esz 1 (Some (StreamWrite, Ptr BResult off)) c.

(** The per-element event pairs of a scalar and of a streamed loop. *)
Definition scalar_events (idx : list Z) : list event :=
  flat_map (fun j => [EvLoad BArr j; EvStore BResult j]) idx.

Definition stream_events (idx : list Z) : list event :=
  flat_map (fun j => [EvConsume SNRT_SSR_DM0 BArr j;
                      EvProduce SNRT_SSR_DM1 BResult j]) idx.

(** What the two sigmoid kernels store for the input [x]: the baseline
    expression (sigmoid.c:12) and the value the streamed register sequence
    leaves in [ft1] (sigmoid.c:70-72). *)
Definition sigmoid_value (exp : float -> float) (x : float) : float :=
  f64_div f64_one (f64_add f64_one (exp (SFopp x))).

Definition sigmoid_ssr_value (exp : float -> float) (x : float) : float :=
  let e := exp (SFopp x) in
  let ft2 := f64_div e e in
  f64_div ft2 (f64_add ft2 e).

(** The harness hands every strategy an input and an output buffer of at
    least [n] elements; [n] is a [size_t]. *)
Definition fits (n : Z) (mem : buffer -> list float) : Prop :=
  0 <= n < 2 ^ 32 /\
  n <= Z.of_nat (length (mem BArr)) /\
  n <= Z.of_nat (length (mem BResult)).

(** The table slot the lookup kernel computes for the input [x]
    (sin.c:202), and the value it reads there. *)
Definition table_index (lookup_table_size : Z) (x : float) : option Z :=
  int_of_float (f32_mul x (lookup_factor lookup_table_size)).

Definition lookup_value (table : list float) (lookup_table_size : Z)
    (x : float) : option float :=
  table_index lookup_table_size x ≫= zlookup table.

(** Every one of the first [n] inputs maps to a slot inside the table. *)
Definition in_domain (n lookup_table_size : Z) (mem : buffer -> list float)
    : Prop :=
  forall j, 0 <= j < n ->
    exists x v, zlookup (mem BArr) j = Some x /\
                lookup_value (mem BTable) lookup_table_size x = Some v.

Definition lookup_events (arr : list float) (lookup_table_size : Z)
    (idx : list Z) : list event :=
  flat_map (fun j =>
              match zlookup arr j ≫= table_index lookup_table_size with
              | Some k => [EvLoad BArr j; EvLoad BTable k; EvStore BResult j]
              | None => []
              end) idx.

(** Output positions a trace writes and input positions it reads, in
    order. *)
Definition written (t : list event) : list Z :=
  omap (fun e => match e with
                 | EvStore BResult j | EvProduce _ BResult j => Some j
                 | _ => None
                 end) t.

Definition read_positions (t : list event) : list Z :=
  omap (fun e => match e with
                 | EvLoad BArr j | EvConsume _ BArr j => Some j
                 | _ => None
                 end) t.

(** The value each strategy stores for the input [x]. *)
Definition value_of (sinf exp : float -> float) (S : strategy)
    (table : list float) (lookup_table_size : Z) (x : float) : option float :=
  match S with
  | SinBaseline | SinSsr | SinSsrFrep | SinParallel | SinSsrParallel
  | SinOmp | SinSsrOmp => Some (sinf x)
  | SinBaselineLookupTable => lookup_value table lookup_table_size x
  | SigmoidBaseline => Some (sigmoid_value exp x)
  | SigmoidSsr => Some (sigmoid_ssr_value exp x)
  | SinSsrLookupTable | SigmoidSsrFrep => None
  end.

(** The positions a call of [S] on core [hw] touches: all it is responsible
    for, except for the two kernels whose body does nothing. *)
Definition touched (S : strategy) (hw : cluster) (n : Z) : list Z :=
  match S with
  | SinSsrLookupTable | SigmoidSsrFrep => []
  | _ => assigned_to S hw n
  end.

(** What a call of [S] on core [hw] requires of its arguments: buffers of
    at least [n] elements; for a partitioned strategy at least one worker and
    a worker's index; for the lookup kernel inputs that map into the table.
    [sin_ssr_omp] computes [local_n + 1], which must not wrap. *)
Definition precondition (S : strategy) (hw : cluster) (n lookup_table_size : Z)
    (mem : buffer -> list float) : Prop :=
  fits n mem /\
  (partitioned S = true ->
     1 <= snrt_cluster_core_num hw - 1 < 2 ^ 32 /\
     0 <= snrt_cluster_core_idx hw < snrt_cluster_core_num hw - 1) /\
  (S = SinSsrOmp -> n / (snrt_cluster_core_num hw - 1) + 1 < 2 ^ 32) /\
  (S = SinBaselineLookupTable -> in_domain n lookup_table_size mem).

(** The status each kernel's body hands back. *)
Definition status_of (S : strategy) : retval :=
  match S with
  | SinBaselineLookupTable => RetMissing
  | _ => RetInt 0
  end.

(** ** Comparing outputs *)

Definition finite_nonzero (x : float) : bool :=
  match x with
  | S754_finite _ _ _ => true
  | _ => false
  end.

(** [fabs(a - b) <= tol], the comparison of a verification within an
    absolute tolerance. *)
Definition within_tol (tol a b : float) : bool :=
  SFleb (SFabs (SFsub 53 1024 a b)) tol.

(** The reference each strategy is compared with. *)
Definition family_baseline (S : strategy) : strategy :=
  match S with
  | SigmoidBaseline | SigmoidSsr | SigmoidSsrFrep => SigmoidBaseline
  | _ => SinBaseline
  end.

(** The strategies whose kernel evaluates the function itself on every
    element. *)
Definition evaluates (S : strategy) : bool :=
  match S with
  | SinSsrLookupTable | SinBaselineLookupTable | SigmoidSsrFrep => false
  | _ => true
  end.


(** The output positions a kernel call writes when started on [mem], in
    order (none if the call does not complete). *)
Definition writes_of (k : M retval) (mem : buffer -> list float) : list Z :=
  match k (boot mem) with
  | Some (_, st) => written (m_trace st)
  | None => []
  end.

(** Sample data: the integers [lo .. lo+len-1] as [float]s and as
    [double]s, and zeros. *)
Definition f32_of_Z (z : Z) : float := binary_normalize 24 128 z 0 false.
Definition ramp (lo len : Z) : list float := f32_of_Z <$> seqZ lo len.
Definition ramp64 (lo len : Z) : list float := f64_of_Z <$> seqZ lo len.
Definition zeros (len : Z) : list float := replicate (Z.to_nat len) (S754_zero false).

(** [-0.25f]. *)
Definition minus_quarter : float := S754_finite true 8388608 (-25).

(** ** The lookup as the specification words it

    [output[i] = table[floor(input[i] * domain_scale)]] with
    [domain_scale = size / (2 * pi)]. *)
Definition spec_domain_scale (lookup_table_size : Z) : float :=
  f32_of_f64 (f64_div (f64_of_Z lookup_table_size) (f64_mul f64_two M_PI)).

(** Rounding toward minus infinity. *)
Definition floor_of_float (x : float) : option Z :=
  match x with
  | S754_zero _ => Some 0
  | S754_finite s m e => Some (Z.shiftl (if s then Z.neg m else Z.pos m) e)
  | _ => None
  end.

Definition spec_lookup (table : list float) (lookup_table_size : Z)
    (x : float) : option float :=
  floor_of_float (f32_mul x (spec_domain_scale lookup_table_size))
    ≫= zlookup table.

(** The trace of [main] on core 0, started from nothing allocated. *)
Definition main_trace (size : Z) (mcycle : nat -> Z) : list Benchmark.bevent :=
  Benchmark.b_trace (snd (Benchmark.main size mcycle 0 Benchmark.start)).

(** The events of a copy loop from [src] to [dst]. *)
Definition copy_events (src dst : Benchmark.buf) (idx : list Z)
    : list Benchmark.bevent :=
  flat_map (fun i => [Benchmark.BLoad src i; Benchmark.BStore dst i]) idx.

Definition is_read_cycle (e : Benchmark.bevent) : bool :=
  match e with Benchmark.ReadCycle _ => true | _ => false end.

(** ** Comparison with the baseline *)

(** The value the baseline of [S]'s family stores for the input [x]. *)
Definition reference (sinf exp : float -> float) (S : strategy) (x : float)
    : float :=
  match family_baseline S with
  | SigmoidBaseline => sigmoid_value exp x
  | _ => sinf x
  end.

(** ** Positions a call can process *)

(** Position [j] lies inside the input and inside the output buffer. *)
Definition in_bounds (mem : buffer -> list float) (j : Z) : Prop :=
  0 <= j < Z.of_nat (length (mem BArr)) /\
  j < Z.of_nat (length (mem BResult)).

#[global] Instance in_bounds_dec (mem : buffer -> list float) (j : Z) :
  Decision (in_bounds mem j) := ltac:(unfold in_bounds; apply _).

(** Strategy [S] can process position [j]: the position lies inside the
    output buffer, the input buffer holds an element there, and the value
    the strategy stores for that element exists (for the lookup kernel: the
    computed slot is inside the table). *)
Definition addressable (sinf exp : float -> float) (S : strategy)
    (lookup_table_size : Z) (mem : buffer -> list float) (j : Z) : Prop :=
  j < Z.of_nat (length (mem BResult)) /\
  exists x, zlookup (mem BArr) j = Some x /\
            is_Some (value_of sinf exp S (mem BTable) lookup_table_size x).

(** The arithmetic side conditions of a call: [n] is a [size_t]; a
    partitioned strategy runs on a worker of a cluster with at least one
    worker; [local_n + 1] of [sin_ssr_omp] does not wrap. *)
Definition well_formed_call (S : strategy) (hw : cluster) (n : Z) : Prop :=
  0 <= n < 2 ^ 32 /\
  (partitioned S = true ->
     1 <= snrt_cluster_core_num hw - 1 < 2 ^ 32 /\
     0 <= snrt_cluster_core_idx hw < snrt_cluster_core_num hw - 1) /\
  (S = SinSsrOmp -> n / (snrt_cluster_core_num hw - 1) + 1 < 2 ^ 32).


(** [0.5] and [1000.0] as [double]. *)
Definition f64_half : float := S754_finite false 4503599627370496 (-53).
Definition f64_thousand : float := f64_of_Z 1000.

(** A stand-in for [exp] at the two arguments the comparison below uses:
    [exp(-0.0) = 1.0] exactly, and [exp(-1000.0)] underflows to [+0.0] in
    [double]. *)
Definition exp_at_zero_and_minus_thousand (x : float) : float :=
  match x with
  | S754_zero _ => f64_one
  | _ => S754_zero false
  end.

(** [1e-6] as [double], the tolerance of a verification of the sigmoid
    family. *)
Definition tolerance_1e_6 : float := S754_finite false 4722366482869645 (-72).

(** ** The work-sharing loop of [sin_omp] under any order

    [#pragma omp parallel for] hands every iteration of the loop of [sin_omp]
    (sin.c:209-212) to exactly one thread of the team and fixes no order
    between the threads.  Iterations touch pairwise different positions, so
    an execution is described by the order [schedule] in which the
    iterations take effect; [sin_omp] above is the case of the index
    order. *)
Definition sin_omp_scheduled (sinf : float -> float) (schedule : list Z)
    (arr result : pointer) : M retval :=
  do_ forM schedule (fun i =>
        do x <- load arr i;
        store result i (sinf x));
  ret (RetInt 0).
(** * Verification *)

(** ** Arithmetic and list facts *)

Lemma size_t_small (z : Z) : 0 <= z < 2 ^ 32 -> size_t z = z.
Proof. intros H. unfold size_t. apply Z.mod_small. exact H. Qed.

Lemma zlookup_Some {A} (l : list A) (i : Z) (x : A) :
  zlookup l i = Some x -> 0 <= i < Z.of_nat (length l).
Proof.
  unfold zlookup. case_decide; [|discriminate].
  intros Hl. apply lookup_lt_Some in Hl. lia.
Qed.

Lemma zlookup_lt {A} (l : list A) (i : Z) :
  0 <= i < Z.of_nat (length l) -> exists x, zlookup l i = Some x.
Proof.
  intros H. unfold zlookup. rewrite decide_True by lia.
  apply lookup_lt_is_Some_2. lia.
Qed.

Lemma zlookup_of_nat {A} (l : list A) (i : nat) :
  zlookup l (Z.of_nat i) = l !! i.
Proof.
  unfold zlookup. rewrite decide_True by lia. rewrite Nat2Z.id. reflexivity.
Qed.

Lemma zlookup_ext {A} (l1 l2 : list A) :
  (forall j, zlookup l1 j = zlookup l2 j) -> l1 = l2.
Proof.
  intros H. apply list_eq. intros i. rewrite <- !zlookup_of_nat. apply H.
Qed.

Lemma zlookup_None {A} (l : list A) (j : Z) :
  ~ 0 <= j < Z.of_nat (length l) -> zlookup l j = None.
Proof.
  intros H. unfold zlookup. destruct (decide (0 <= j)); [|reflexivity].
  apply lookup_ge_None. lia.
Qed.

Lemma zlookup_insert {A} (l : list A) (i j : Z) (v : A) :
  0 <= i < Z.of_nat (length l) ->
  zlookup (<[Z.to_nat i := v]> l) j = if decide (j = i) then Some v else zlookup l j.
Proof.
  intros Hi. unfold zlookup. destruct (decide (j = i)) as [->|Hne].
  - rewrite decide_True by lia. apply list_lookup_insert_eq. lia.
  - destruct (decide (0 <= j)); [|reflexivity].
    apply list_lookup_insert_ne. lia.
Qed.

(** ** Composition of elementwise effects *)

Lemma elementwise_nil g m : elementwise g [] m m.
Proof.
  unfold elementwise. split_and!; reflexivity.
Qed.

Lemma elementwise_app g idx1 idx2 m m1 m2 :
  elementwise g idx1 m m1 -> elementwise g idx2 m1 m2 ->
  elementwise g (idx1 ++ idx2) m m2.
Proof.
  intros (Ha1 & Ht1 & Hl1 & Hr1) (Ha2 & Ht2 & Hl2 & Hr2).
  unfold elementwise. split_and!; try congruence.
  intros j. rewrite Hr2, Ha1, Hr1.
  destruct (decide (j ∈ idx2)) as [H2|H2].
  - rewrite decide_True; [reflexivity|]. apply elem_of_app. by right.
  - destruct (decide (j ∈ idx1)) as [H1|H1].
    + rewrite decide_True; [reflexivity|]. apply elem_of_app. by left.
    + rewrite decide_False; [reflexivity|].
      rewrite elem_of_app. tauto.
Qed.

Lemma elementwise_write g (m : buffer -> list float) j x v :
  zlookup (m BArr) j = Some x -> g x = Some v ->
  0 <= j < Z.of_nat (length (m BResult)) ->
  elementwise g [j] m
    (fun b => if decide (b = BResult) then <[Z.to_nat j := v]> (m BResult)
              else m b).
Proof.
  intros Hx Hg Hj. unfold elementwise. split_and!; try reflexivity.
  - simpl. apply length_insert.
  - intros k. simpl. rewrite zlookup_insert by exact Hj.
    destruct (decide (k = j)) as [->|Hne].
    + rewrite decide_True by (apply list_elem_of_singleton; reflexivity).
      rewrite Hx. simpl. by rewrite Hg.
    + rewrite decide_False; [reflexivity|].
      rewrite list_elem_of_singleton. exact Hne.
Qed.

(** ** Scalar loops *)

Lemma bind_None {A B} (c : M A) (k : A -> M B) (st : machine) :
  c st = None -> bind c k st = None.
Proof. intros H. unfold bind. rewrite H. reflexivity. Qed.

Lemma bind_Some {A B} (c : M A) (k : A -> M B) (st st' : machine) (a : A) :
  c st = Some (a, st') -> bind c k st = k a st'.
Proof. intros H. unfold bind. rewrite H. reflexivity. Qed.

Lemma load_ok (st : machine) (p : pointer) (i : Z) (x : float) :
  zlookup (m_mem st (p_buf p)) (p_off p + i) = Some x ->
  load p i st = Some (x, log (EvLoad (p_buf p) (p_off p + i)) st).
Proof. intros H. unfold load. simpl. rewrite H. reflexivity. Qed.

Lemma store_ok (st : machine) (p : pointer) (i : Z) (v : float) :
  0 <= p_off p + i < Z.of_nat (length (m_mem st (p_buf p))) ->
  store p i v st =
  Some (tt, log (EvStore (p_buf p) (p_off p + i))
                (set_mem (p_buf p)
                   (<[Z.to_nat (p_off p + i) := v]> (m_mem st (p_buf p))) st)).
Proof.
  intros H. unfold store. simpl.
  destruct (zlookup_lt _ _ H) as [y ->]. reflexivity.
Qed.

(** One iteration of a scalar loop: read [arr[j]], store [f arr[j]] at
    [result[j]]. *)
Lemma scalar_iteration (f : float -> float) (j : Z) (st : machine) :
  0 <= j < Z.of_nat (length (m_mem st BArr)) ->
  j < Z.of_nat (length (m_mem st BResult)) ->
  exists st',
    (do x <- load ARR j; store RESULT j (f x)) st = Some (tt, st') /\
    elementwise (fun x => Some (f x)) [j] (m_mem st) (m_mem st') /\
    m_trace st' = m_trace st ++ [EvLoad BArr j; EvStore BResult j] /\
    m_dm st' = m_dm st /\ m_ssr st' = m_ssr st.
Proof.
  intros Ha Hr. destruct (zlookup_lt _ _ Ha) as [x Hx].
  eexists. split.
  - unfold bind. rewrite (load_ok st ARR j x) by exact Hx.
    rewrite store_ok by (simpl; lia). reflexivity.
  - simpl. split_and!; try reflexivity.
    + apply (elementwise_write _ (m_mem st) j x (f x)); [exact Hx|reflexivity|lia].
    + rewrite <- app_assoc. reflexivity.
Qed.

Lemma forM_scalar (f : float -> float) (ix : Z -> Z) (l : list Z) :
  forall st : machine,
  (forall i, i ∈ l ->
     0 <= ix i < Z.of_nat (length (m_mem st BArr)) /\
     ix i < Z.of_nat (length (m_mem st BResult))) ->
  exists st',
    forM l (fun i => do x <- load ARR (ix i); store RESULT (ix i) (f x)) st
      = Some (tt, st') /\
    elementwise (fun x => Some (f x)) (ix <$> l) (m_mem st) (m_mem st') /\
    m_trace st' = m_trace st ++ scalar_events (ix <$> l) /\
    m_dm st' = m_dm st /\ m_ssr st' = m_ssr st.
Proof.
  induction l as [|i l IH]; intros st Hb.
  - exists st. simpl. split_and!; try reflexivity.
    + apply elementwise_nil.
    + by rewrite app_nil_r.
  - destruct (Hb i) as [Ha Hr]; [by left|].
    destruct (scalar_iteration f (ix i) st Ha Hr)
      as (st1 & Hrun & Hmem & Htr & Hdm & Hssr).
    destruct (IH st1) as (st2 & Hrun2 & Hmem2 & Htr2 & Hdm2 & Hssr2).
    { intros k Hk. destruct Hmem as (HA & _ & HL & _). rewrite HA, HL.
      apply Hb. by right. }
    exists st2. split_and!.
    + simpl. unfold bind at 1. rewrite Hrun. exact Hrun2.
    + change (ix <$> i :: l) with ([ix i] ++ (ix <$> l)).
      eapply elementwise_app; eassumption.
    + rewrite Htr2, Htr. simpl. rewrite <- app_assoc. reflexivity.
    + congruence.
    + congruence.
Qed.

(** ** Streamed loops *)

Lemma stream_pop_ok (st : machine) (d : dm_id) (b s esz off c : Z)
    (buf : buffer) (x : float) :
  m_dm st d = DataMover b s 1 (Some (StreamRead, Ptr buf off)) c ->
  0 <= c < b -> s / esz = 1 ->
  zlookup (m_mem st buf) (off + c) = Some x ->
  stream_pop d esz st =
  Some (x, log (EvConsume d buf (off + c))
               (set_dm d (DataMover b s 1 (Some (StreamRead, Ptr buf off)) (c + 1))
                       st)).
Proof.
  intros Hd Hc Hs Hx. unfold stream_pop. rewrite Hd. simpl.
  rewrite decide_True by lia.
  unfold dm_index. simpl. rewrite Hs, Z.div_1_r, Z.mul_1_r, Hx.
  reflexivity.
Qed.

Lemma stream_push_ok (st : machine) (d : dm_id) (b s esz off c : Z)
    (buf : buffer) (v : float) :
  m_dm st d = DataMover b s 1 (Some (StreamWrite, Ptr buf off)) c ->
  0 <= c < b -> s / esz = 1 ->
  0 <= off + c < Z.of_nat (length (m_mem st buf)) ->
  stream_push d esz v st =
  Some (tt, log (EvProduce d buf (off + c))
                (set_mem buf (<[Z.to_nat (off + c) := v]> (m_mem st buf))
                   (set_dm d
                      (DataMover b s 1 (Some (StreamWrite, Ptr buf off)) (c + 1))
                      st))).
Proof.
  intros Hd Hc Hs Hx. unfold stream_push. rewrite Hd. simpl.
  rewrite decide_True by lia.
  unfold dm_index. simpl. rewrite Hs, Z.div_1_r, Z.mul_1_r.
  destruct (zlookup_lt _ _ Hx) as [y ->]. reflexivity.
Qed.

(** One iteration of the streamed sine loop moves one element. *)
Lemma sin_ssr_iteration_ok (sinf : float -> float) (st : machine)
    (b0 b1 off c : Z) :
  streaming st b0 b1 sizeof_float off c ->
  0 <= c < b0 -> c < b1 ->
  0 <= off + c < Z.of_nat (length (m_mem st BArr)) ->
  off + c < Z.of_nat (length (m_mem st BResult)) ->
  exists st',
    sin_ssr_iteration sinf st = Some (tt, st') /\
    streaming st' b0 b1 sizeof_float off (c + 1) /\
    elementwise (fun x => Some (sinf x)) [off + c] (m_mem st) (m_mem st') /\
    m_trace st' = m_trace st ++ stream_events [off + c].
Proof.
  intros (Hon & H0 & H1) Hc0 Hc1 Ha Hr.
  destruct (zlookup_lt _ _ Ha) as [x Hx].
  eexists. split.
  - unfold sin_ssr_iteration, fmv_s, bind.
    unfold read_freg at 1. simpl. rewrite Hon.
    rewrite (stream_pop_ok st _ b0 sizeof_float _ off c BArr x)
      by (exact H0 || lia || reflexivity || exact Hx).
    unfold write_freg at 1, __builtin_ssr_disable, __builtin_ssr_enable,
      modify, call.
    simpl.
    unfold read_freg, write_freg. simpl.
    rewrite (stream_push_ok _ _ b1 sizeof_float _ off c BResult)
      by (exact H1 || (simpl; lia) || reflexivity).
    reflexivity.
  - simpl. split_and!.
    + split_and!; reflexivity.
    + apply (elementwise_write _ (m_mem st) (off + c) x (sinf x));
        [exact Hx|reflexivity|lia].
    + rewrite <- app_assoc. reflexivity.
Qed.

(** One iteration of the streamed sigmoid loop moves one element. *)
Lemma sigmoid_ssr_iteration_ok (exp : float -> float) (st : machine)
    (b0 b1 off c : Z) :
  streaming st b0 b1 sizeof_double off c ->
  0 <= c < b0 -> c < b1 ->
  0 <= off + c < Z.of_nat (length (m_mem st BArr)) ->
  off + c < Z.of_nat (length (m_mem st BResult)) ->
  exists st',
    sigmoid_ssr_iteration exp st = Some (tt, st') /\
    streaming st' b0 b1 sizeof_double off (c + 1) /\
    elementwise (fun x => Some (sigmoid_ssr_value exp x)) [off + c]
                (m_mem st) (m_mem st') /\
    m_trace st' = m_trace st ++ stream_events [off + c].
Proof.
  intros (Hon & H0 & H1) Hc0 Hc1 Ha Hr.
  destruct (zlookup_lt _ _ Ha) as [x Hx].
  eexists. split.
  - unfold sigmoid_ssr_iteration, fneg_d, fdiv_d, fadd_d, bind.
    unfold read_freg at 1. simpl. rewrite Hon.
    rewrite (stream_pop_ok st _ b0 sizeof_double _ off c BArr x)
      by (exact H0 || lia || reflexivity || exact Hx).
    unfold write_freg at 1, snrt_ssr_disable, snrt_ssr_enable, modify, call.
    simpl.
    unfold read_freg, write_freg. simpl.
    rewrite (stream_push_ok _ _ b1 sizeof_double _ off c BResult)
      by (exact H1 || (simpl; lia) || reflexivity).
    reflexivity.
  - simpl. split_and!.
    + split_and!; reflexivity.
    + apply (elementwise_write _ (m_mem st) (off + c) x
               (sigmoid_ssr_value exp x)); [exact Hx|reflexivity|lia].
    + rewrite <- app_assoc. reflexivity.
Qed.

(** A loop whose every iteration moves one element through both streams
    moves as many elements as it has iterations. *)
Lemma forM_stream (body : M unit) (f : float -> float) (esz b0 b1 off : Z) :
  (forall st c,
      streaming st b0 b1 esz off c -> 0 <= c < b0 -> c < b1 ->
      0 <= off + c < Z.of_nat (length (m_mem st BArr)) ->
      off + c < Z.of_nat (length (m_mem st BResult)) ->
      exists st',
        body st = Some (tt, st') /\
        streaming st' b0 b1 esz off (c + 1) /\
        elementwise (fun x => Some (f x)) [off + c] (m_mem st) (m_mem st') /\
        m_trace st' = m_trace st ++ stream_events [off + c]) ->
  forall (l : list Z) (st : machine) (c : Z),
    streaming st b0 b1 esz off c -> 0 <= c ->
    c + Z.of_nat (length l) <= b0 -> c + Z.of_nat (length l) <= b1 ->
    0 <= off + c ->
    off + c + Z.of_nat (length l) <= Z.of_nat (length (m_mem st BArr)) ->
    off + c + Z.of_nat (length l) <= Z.of_nat (length (m_mem st BResult)) ->
    exists st',
      forM l (fun _ => body) st = Some (tt, st') /\
      streaming st' b0 b1 esz off (c + Z.of_nat (length l)) /\
      elementwise (fun x => Some (f x)) (seqZ (off + c) (Z.of_nat (length l)))
                  (m_mem st) (m_mem st') /\
      m_trace st' = m_trace st ++
                    stream_events (seqZ (off + c) (Z.of_nat (length l))).
Proof.
  intros Hstep. induction l as [|i l IH]; intros st c Hs Hc Hb0 Hb1 Ho Ha Hr.
  - exists st. simpl. rewrite Z.add_0_r.
    split_and!; [reflexivity|exact Hs|apply elementwise_nil|by rewrite app_nil_r].
  - simpl length in *.
    destruct (Hstep st c Hs) as (st1 & Hrun & Hs1 & Hm1 & Ht1); try lia.
    assert (HA : m_mem st1 BArr = m_mem st BArr) by apply Hm1.
    assert (HL : length (m_mem st1 BResult) = length (m_mem st BResult))
      by apply Hm1.
    destruct (IH st1 (c + 1) Hs1) as (st2 & Hrun2 & Hs2 & Hm2 & Ht2);
      try (rewrite ?HA, ?HL; lia).
    exists st2.
    replace (c + Z.of_nat (S (length l))) with (c + 1 + Z.of_nat (length l))
      by lia.
    rewrite (seqZ_cons (off + c) (Z.of_nat (S (length l)))) by lia.
    replace (Z.succ (off + c)) with (off + (c + 1)) by lia.
    replace (Z.pred (Z.of_nat (S (length l)))) with (Z.of_nat (length l))
      by lia.
    split_and!.
    + simpl. unfold bind at 1. rewrite Hrun. exact Hrun2.
    + exact Hs2.
    + change (?x :: ?r) with ([x] ++ r). eapply elementwise_app; eassumption.
    + rewrite Ht2, Ht1. unfold stream_events. simpl.
      rewrite <- app_assoc. reflexivity.
Qed.

(** ** The single-core kernels *)

Lemma for_loop_scalar (f : float -> float) (n : Z) (st : machine) :
  fits n (m_mem st) ->
  exists st',
    for_loop n (fun i => do x <- load ARR i; store RESULT i (f x)) st
      = Some (tt, st') /\
    elementwise (fun x => Some (f x)) (seqZ 0 n) (m_mem st) (m_mem st') /\
    m_trace st' = m_trace st ++ scalar_events (seqZ 0 n) /\
    m_dm st' = m_dm st /\ m_ssr st' = m_ssr st.
Proof.
  intros (Hn & Ha & Hr).
  destruct (forM_scalar f (fun i => i) (seqZ 0 n) st) as (st' & H1 & H2 & H3 & H4).
  { intros i Hi. apply elem_of_seqZ in Hi. lia. }
  exists st'. rewrite list_fmap_id in H2, H3. auto.
Qed.

Lemma sin_baseline_ok (sinf : float -> float) (n : Z) mem :
  fits n mem ->
  exists st,
    sin_baseline sinf ARR n RESULT (boot mem) = Some (RetInt 0, st) /\
    elementwise (fun x => Some (sinf x)) (seqZ 0 n) mem (m_mem st) /\
    m_trace st = scalar_events (seqZ 0 n).
Proof.
  intros Hfit.
  destruct (for_loop_scalar sinf n (boot mem) Hfit) as (st & H1 & H2 & H3 & _).
  exists st. split_and!; [|exact H2|exact H3].
  unfold sin_baseline. erewrite bind_Some by exact H1. reflexivity.
Qed.

Lemma sin_omp_ok (sinf : float -> float) (n : Z) mem :
  fits n mem ->
  exists st,
    sin_omp sinf ARR n RESULT (boot mem) = Some (RetInt 0, st) /\
    elementwise (fun x => Some (sinf x)) (seqZ 0 n) mem (m_mem st) /\
    m_trace st = scalar_events (seqZ 0 n).
Proof.
  intros Hfit.
  destruct (for_loop_scalar sinf n (boot mem) Hfit) as (st & H1 & H2 & H3 & _).
  exists st. split_and!; [|exact H2|exact H3].
  unfold sin_omp. erewrite bind_Some by exact H1. reflexivity.
Qed.

Lemma sigmoid_baseline_ok (exp : float -> float) (n : Z) mem :
  fits n mem ->
  exists st,
    sigmoid_baseline exp ARR n RESULT (boot mem) = Some (RetInt 0, st) /\
    elementwise (fun x => Some (sigmoid_value exp x)) (seqZ 0 n) mem (m_mem st) /\
    m_trace st = scalar_events (seqZ 0 n).
Proof.
  intros Hfit.
  destruct (for_loop_scalar (sigmoid_value exp) n (boot mem) Hfit)
    as (st & H1 & H2 & H3 & _).
  exists st. split_and!; [|exact H2|exact H3].
  unfold sigmoid_baseline. erewrite bind_Some by exact H1. reflexivity.
Qed.

(** A stream region over [len] elements from position [off]: what the loop
    of [len] iterations leaves behind. *)
Lemma for_loop_stream (body : M unit) (f : float -> float)
    (esz b0 b1 off len : Z) (st : machine) :
  (forall st c,
      streaming st b0 b1 esz off c -> 0 <= c < b0 -> c < b1 ->
      0 <= off + c < Z.of_nat (length (m_mem st BArr)) ->
      off + c < Z.of_nat (length (m_mem st BResult)) ->
      exists st',
        body st = Some (tt, st') /\
        streaming st' b0 b1 esz off (c + 1) /\
        elementwise (fun x => Some (f x)) [off + c] (m_mem st) (m_mem st') /\
        m_trace st' = m_trace st ++ stream_events [off + c]) ->
  streaming st b0 b1 esz off 0 ->
  0 <= len -> len <= b0 -> len <= b1 -> 0 <= off ->
  off + len <= Z.of_nat (length (m_mem st BArr)) ->
  off + len <= Z.of_nat (length (m_mem st BResult)) ->
  exists st',
    for_loop len (fun _ => body) st = Some (tt, st') /\
    streaming st' b0 b1 esz off len /\
    elementwise (fun x => Some (f x)) (seqZ off len) (m_mem st) (m_mem st') /\
    m_trace st' = m_trace st ++ stream_events (seqZ off len).
Proof.
  intros Hstep Hs Hlen Hb0 Hb1 Hoff Ha Hr.
  assert (Hl : Z.of_nat (length (seqZ 0 len)) = len)
    by (rewrite length_seqZ; lia).
  destruct (forM_stream body f esz b0 b1 off Hstep (seqZ 0 len) st 0 Hs)
    as (st' & H1 & H2 & H3 & H4); try (rewrite ?Hl; lia).
  rewrite Hl, Z.add_0_r in *. rewrite Z.add_0_l in H2.
  exists st'. auto.
Qed.

Ltac run_step := erewrite bind_Some by reflexivity.

Lemma sin_ssr_ok (sinf : float -> float) (n : Z) mem :
  fits n mem ->
  exists st,
    sin_ssr sinf ARR n RESULT (boot mem) = Some (RetInt 0, st) /\
    elementwise (fun x => Some (sinf x)) (seqZ 0 n) mem (m_mem st) /\
    m_trace st = stream_events (seqZ 0 n) /\
    m_ssr st = false /\
    dm_bound (m_dm st SNRT_SSR_DM0) = n /\
    dm_bound (m_dm st SNRT_SSR_DM1) = n.
Proof.
  intros (Hn & Ha & Hr). unfold sin_ssr. do 7 run_step.
  match goal with |- context [bind (for_loop n _) _ ?s] => set (st0 := s) end.
  destruct (for_loop_stream (sin_ssr_iteration sinf) sinf sizeof_float n n 0 n st0)
    as (st1 & H1 & (Hon & Hd0 & Hd1) & H3 & H4);
    try (simpl; lia).
  { intros st c. apply sin_ssr_iteration_ok. }
  { split_and!; reflexivity. }
  exists (set_ssr false st1). split_and!.
  - erewrite bind_Some by exact H1. reflexivity.
  - exact H3.
  - exact H4.
  - reflexivity.
  - simpl. rewrite Hd0. reflexivity.
  - simpl. rewrite Hd1. reflexivity.
Qed.

Lemma sin_ssr_frep_ok (sinf : float -> float) (n : Z) mem :
  fits n mem ->
  exists st,
    sin_ssr_frep sinf ARR n RESULT (boot mem) = Some (RetInt 0, st) /\
    elementwise (fun x => Some (sinf x)) (seqZ 0 n) mem (m_mem st) /\
    m_trace st = stream_events (seqZ 0 n) /\
    m_ssr st = false /\
    dm_bound (m_dm st SNRT_SSR_DM0) = n /\
    dm_bound (m_dm st SNRT_SSR_DM1) = n.
Proof.
  intros Hfit. destruct (sin_ssr_ok sinf n mem Hfit) as (st & H1 & H2).
  exists st. split; [|exact H2].
  unfold sin_ssr_frep. erewrite bind_Some by exact H1. reflexivity.
Qed.

Lemma sigmoid_ssr_ok (exp : float -> float) (n : Z) mem :
  fits n mem ->
  exists st,
    sigmoid_ssr exp ARR n RESULT (boot mem) = Some (RetInt 0, st) /\
    elementwise (fun x => Some (sigmoid_ssr_value exp x)) (seqZ 0 n) mem (m_mem st) /\
    m_trace st = stream_events (seqZ 0 n) /\
    m_ssr st = false /\
    dm_bound (m_dm st SNRT_SSR_DM0) = n /\
    dm_bound (m_dm st SNRT_SSR_DM1) = n.
Proof.
  intros (Hn & Ha & Hr). unfold sigmoid_ssr. do 7 run_step.
  match goal with |- context [bind (for_loop n _) _ ?s] => set (st0 := s) end.
  destruct (for_loop_stream (sigmoid_ssr_iteration exp) (sigmoid_ssr_value exp)
              sizeof_double n n 0 n st0)
    as (st1 & H1 & (Hon & Hd0 & Hd1) & H3 & H4);
    try (simpl; lia).
  { intros st c. apply sigmoid_ssr_iteration_ok. }
  { split_and!; reflexivity. }
  exists (set_ssr false st1). split_and!.
  - erewrite bind_Some by exact H1. reflexivity.
  - exact H3.
  - exact H4.
  - reflexivity.
  - simpl. rewrite Hd0. reflexivity.
  - simpl. rewrite Hd1. reflexivity.
Qed.

(** ** The work split *)

Lemma split_bounds (n C : Z) :
  0 <= n -> 1 <= C ->
  0 <= n / C /\ 0 <= n / C * C /\ n / C * C <= n < n / C * C + C.
Proof.
  intros Hn HC.
  pose proof (Z.mul_div_le n C ltac:(lia)).
  pose proof (Z.mul_succ_div_gt n C ltac:(lia)).
  pose proof (Z.div_pos n C Hn ltac:(lia)).
  nia.
Qed.

Lemma fmap_offset_seqZ (f : Z -> Z) (off len : Z) :
  (forall k, 0 <= k < len -> f k = off + k) ->
  f <$> seqZ 0 len = seqZ off len.
Proof.
  intros Hf. replace (seqZ off len) with (seqZ (off + 0) len)
    by (f_equal; lia).
  rewrite <- fmap_add_seqZ.
  apply list_fmap_ext. intros k x Hx.
  apply lookup_seqZ in Hx. apply Hf. lia.
Qed.

Lemma scalar_events_app (l1 l2 : list Z) :
  scalar_events (l1 ++ l2) = scalar_events l1 ++ scalar_events l2.
Proof. unfold scalar_events. apply flat_map_app. Qed.

(** The optional extra element, as all three partitioned kernels compute
    it. *)
Lemma extra_element_ok (sinf : float -> float) (C i n j : Z) (st : machine) :
  fits n (m_mem st) -> 1 <= C < 2 ^ 32 -> 0 <= i < C ->
  (i < n - n / C * C -> j = n / C * C + i) ->
  exists st',
    (if decide ((if decide (i < n - n / C * C) then 1 else 0) = 0)
     then ret tt
     else do x <- load ARR j; store RESULT j (sinf x)) st = Some (tt, st') /\
    elementwise (fun x => Some (sinf x)) (extra_element C i n)
                (m_mem st) (m_mem st') /\
    m_trace st' = m_trace st ++ scalar_events (extra_element C i n) /\
    m_dm st' = m_dm st /\ m_ssr st' = m_ssr st.
Proof.
  intros (Hn & Ha & Hr) HC Hi Hj. unfold extra_element.
  pose proof (split_bounds n C ltac:(lia) ltac:(lia)) as Hq.
  destruct (decide (i < n - n / C * C)) as [Hx|Hx].
  - rewrite decide_False by lia. rewrite (Hj Hx).
    destruct (scalar_iteration sinf (n / C * C + i) st) as (st' & H); [lia..|].
    exists st'. simpl. exact H.
  - rewrite decide_True by reflexivity. exists st. split_and!; try reflexivity.
    + apply elementwise_nil.
    + simpl. by rewrite app_nil_r.
Qed.

Lemma local_index_ok (n C i k : Z) :
  0 <= n < 2 ^ 32 -> 1 <= C -> 0 <= i < C -> 0 <= k < n / C ->
  size_t (size_t (i * (n / C)) + k) = i * (n / C) + k /\
  0 <= i * (n / C) + k < n.
Proof.
  intros Hn HC Hi Hk.
  pose proof (split_bounds n C ltac:(lia) ltac:(lia)) as Hq.
  assert (0 <= i * (n / C) /\ i * (n / C) + k < n) as [H1 H2] by nia.
  rewrite (size_t_small (i * (n / C))) by lia.
  rewrite size_t_small by lia. lia.
Qed.

Lemma sin_parallel_ok (sinf : float -> float) (C i n : Z) mem :
  fits n mem -> 1 <= C < 2 ^ 32 -> 0 <= i < C ->
  exists st,
    sin_parallel sinf (Cluster (C + 1) i) ARR n RESULT (boot mem)
      = Some (RetInt 0, st) /\
    elementwise (fun x => Some (sinf x)) (assigned C i n) mem (m_mem st) /\
    m_trace st = scalar_events (assigned C i n).
Proof.
  intros Hfit HC Hi. pose proof Hfit as (Hn & Ha & Hr).
  pose proof (split_bounds n C ltac:(lia) ltac:(lia)) as Hq.
  unfold sin_parallel. cbn [snrt_cluster_core_num snrt_cluster_core_idx].
  replace (C + 1 - 1) with C by lia.
  rewrite (size_t_small C), (size_t_small i) by lia.
  unfold size_div. rewrite decide_False by lia. run_step. cbv zeta.
  rewrite (size_t_small (n / C * C)) by lia.
  rewrite (size_t_small (n - n / C * C)) by lia.
  rewrite (Z.mul_comm C (n / C)).
  rewrite (size_t_small (n / C * C)) by lia.
  destruct (forM_scalar sinf (fun k => size_t (size_t (i * (n / C)) + k))
              (seqZ 0 (n / C)) (boot mem))
    as (st1 & H1 & H2 & H3 & H4 & H5).
  { intros k Hk. apply elem_of_seqZ in Hk. simpl.
    destruct (local_index_ok n C i k) as [-> ?]; lia. }
  rewrite (fmap_offset_seqZ _ (i * (n / C))) in H2, H3
    by (intros k Hk; apply local_index_ok; lia).
  destruct (extra_element_ok sinf C i n (size_t (n / C * C + i)) st1)
    as (st2 & G1 & G2 & G3 & _); try done.
  { destruct H2 as (E1 & _ & E2 & _). unfold fits. rewrite E1, E2. done. }
  { intros Hx. apply size_t_small. lia. }
  exists st2. split_and!.
  - unfold for_loop. erewrite bind_Some by exact H1.
    erewrite bind_Some by exact G1. reflexivity.
  - eapply elementwise_app; eassumption.
  - rewrite G3, H3. unfold assigned. by rewrite scalar_events_app.
Qed.

Lemma sin_ssr_parallel_ok (sinf : float -> float) (C i n : Z) mem :
  fits n mem -> 1 <= C < 2 ^ 32 -> 0 <= i < C ->
  exists st,
    sin_ssr_parallel sinf (Cluster (C + 1) i) ARR n RESULT (boot mem)
      = Some (RetInt 0, st) /\
    elementwise (fun x => Some (sinf x)) (assigned C i n) mem (m_mem st) /\
    m_trace st = stream_events (local_range C i n) ++
                 scalar_events (extra_element C i n) /\
    m_ssr st = false /\
    dm_bound (m_dm st SNRT_SSR_DM0) = n / C /\
    dm_bound (m_dm st SNRT_SSR_DM1) = n / C.
Proof.
  intros Hfit HC Hi. pose proof Hfit as (Hn & Ha & Hr).
  pose proof (split_bounds n C ltac:(lia) ltac:(lia)) as Hq.
  assert (0 <= i * (n / C) /\ i * (n / C) + n / C <= n) as [Hlo Hhi] by nia.
  unfold sin_ssr_parallel. cbn [snrt_cluster_core_num snrt_cluster_core_idx].
  replace (C + 1 - 1) with C by lia.
  rewrite (size_t_small C), (size_t_small i) by lia.
  unfold size_div. rewrite decide_False by lia. run_step. cbv zeta.
  rewrite (size_t_small (n / C * C)) by lia.
  rewrite (size_t_small (n - n / C * C)) by lia.
  rewrite (Z.mul_comm C (n / C)).
  rewrite (size_t_small (n / C * C)) by lia.
  rewrite (size_t_small (i * (n / C))) by lia.
  do 5 run_step.
  match goal with |- context [bind (for_loop _ _) _ ?s] => set (st0 := s) end.
  destruct (for_loop_stream (sin_ssr_parallel_iteration sinf) sinf sizeof_float
              (n / C) (n / C) (i * (n / C)) (n / C) st0)
    as (st1 & H1 & (Hon & Hd0 & Hd1) & H3 & H4);
    try (simpl; lia).
  { intros st c. apply (sin_ssr_iteration_ok sinf st). }
  { split_and!; reflexivity. }
  destruct (extra_element_ok sinf C i n (size_t (n / C * C + i))
              (set_ssr false st1))
    as (st2 & G1 & G2 & G3 & G4 & G5); try done.
  { destruct H3 as (E1 & _ & E2 & _). unfold fits. simpl. rewrite E1, E2. done. }
  { intros Hx. apply size_t_small. lia. }
  exists st2. split_and!.
  - erewrite bind_Some by exact H1. run_step.
    erewrite bind_Some by exact G1. reflexivity.
  - eapply elementwise_app; [exact H3|exact G2].
  - rewrite G3. simpl. rewrite H4. reflexivity.
  - rewrite G5. reflexivity.
  - rewrite G4. simpl. rewrite Hd0. reflexivity.
  - rewrite G4. simpl. rewrite Hd1. reflexivity.
Qed.

Lemma sin_ssr_omp_ok (sinf : float -> float) (C i n : Z) mem :
  fits n mem -> 1 <= C < 2 ^ 32 -> 0 <= i < C -> n / C + 1 < 2 ^ 32 ->
  exists st,
    sin_ssr_omp sinf (Cluster (C + 1) i) ARR n RESULT (boot mem)
      = Some (RetInt 0, st) /\
    elementwise (fun x => Some (sinf x)) (assigned C i n) mem (m_mem st) /\
    m_trace st = stream_events (local_range C i n) ++
                 scalar_events (extra_element C i n) /\
    m_ssr st = false /\
    dm_bound (m_dm st SNRT_SSR_DM0) = n / C /\
    dm_bound (m_dm st SNRT_SSR_DM1) = n / C + 1.
Proof.
  intros Hfit HC Hi Hq1. pose proof Hfit as (Hn & Ha & Hr).
  pose proof (split_bounds n C ltac:(lia) ltac:(lia)) as Hq.
  assert (0 <= i * (n / C) /\ i * (n / C) + n / C <= n) as [Hlo Hhi] by nia.
  unfold sin_ssr_omp. cbn [snrt_cluster_core_num snrt_cluster_core_idx].
  replace (C + 1 - 1) with C by lia.
  rewrite (size_t_small C), (size_t_small i) by lia.
  unfold size_div. rewrite decide_False by lia. run_step. cbv zeta.
  rewrite (size_t_small (n / C * C)) by lia.
  rewrite (size_t_small (n - n / C * C)) by lia.
  rewrite (size_t_small (i * (n / C))) by lia.
  rewrite (size_t_small (n / C + 1)) by lia.
  do 7 run_step.
  match goal with |- context [bind (for_loop _ _) _ ?s] => set (st0 := s) end.
  destruct (for_loop_stream (sin_ssr_iteration sinf) sinf sizeof_float
              (n / C) (n / C + 1) (i * (n / C)) (n / C) st0)
    as (st1 & H1 & (Hon & Hd0 & Hd1) & H3 & H4);
    try (simpl; lia).
  { intros st c. apply sin_ssr_iteration_ok. }
  { split_and!; reflexivity. }
  destruct (extra_element_ok sinf C i n (size_t (n / C * C + i))
              (set_ssr false st1))
    as (st2 & G1 & G2 & G3 & G4 & G5); try done.
  { destruct H3 as (E1 & _ & E2 & _). unfold fits. simpl. rewrite E1, E2. done. }
  { intros Hx. apply size_t_small. lia. }
  exists st2. split_and!.
  - erewrite bind_Some by exact H1. run_step.
    erewrite bind_Some by exact G1. reflexivity.
  - eapply elementwise_app; [exact H3|exact G2].
  - rewrite G3. simpl. rewrite H4. reflexivity.
  - rewrite G5. reflexivity.
  - rewrite G4. simpl. rewrite Hd0. reflexivity.
  - rewrite G4. simpl. rewrite Hd1. reflexivity.
Qed.

(** ** The lookup-table kernel *)

Lemma lookup_iteration (size j : Z) (st : machine) (x v : float) :
  zlookup (m_mem st BArr) j = Some x ->
  lookup_value (m_mem st BTable) size x = Some v ->
  0 <= j < Z.of_nat (length (m_mem st BResult)) ->
  exists st',
    (do x <- load ARR j;
     match int_of_float (f32_mul x (lookup_factor size)) with
     | Some k => do v <- load TABLE k; store RESULT j v
     | None => undefined
     end) st = Some (tt, st') /\
    elementwise (lookup_value (m_mem st BTable) size) [j] (m_mem st) (m_mem st') /\
    m_trace st' = m_trace st ++ lookup_events (m_mem st BArr) size [j].
Proof.
  intros Hx Hv Hj. unfold lookup_value, table_index in Hv.
  unfold lookup_events. simpl. rewrite Hx. simpl. unfold table_index.
  destruct (int_of_float (f32_mul x (lookup_factor size))) as [k|] eqn:Hk;
    [|discriminate].
  simpl in Hv.
  eexists. split.
  - erewrite bind_Some by (apply (load_ok st ARR j x); exact Hx).
    rewrite Hk.
    erewrite bind_Some by (apply (load_ok _ TABLE k v); exact Hv).
    rewrite store_ok by (simpl; lia). reflexivity.
  - simpl. split.
    + apply (elementwise_write _ (m_mem st) j x v); [exact Hx| |lia].
      unfold lookup_value, table_index. rewrite Hk. exact Hv.
    + rewrite <- !app_assoc. reflexivity.
Qed.

Lemma forM_lookup (size : Z) (l : list Z) :
  forall st : machine,
  (forall j, j ∈ l ->
     0 <= j < Z.of_nat (length (m_mem st BResult)) /\
     exists x v, zlookup (m_mem st BArr) j = Some x /\
                 lookup_value (m_mem st BTable) size x = Some v) ->
  exists st',
    forM l (fun i =>
              do x <- load ARR i;
              match int_of_float (f32_mul x (lookup_factor size)) with
              | Some k => do v <- load TABLE k; store RESULT i v
              | None => undefined
              end) st = Some (tt, st') /\
    elementwise (lookup_value (m_mem st BTable) size) l (m_mem st) (m_mem st') /\
    m_trace st' = m_trace st ++ lookup_events (m_mem st BArr) size l.
Proof.
  induction l as [|j l IH]; intros st Hb.
  - exists st. simpl. split_and!; [reflexivity|apply elementwise_nil|].
    by rewrite app_nil_r.
  - destruct (Hb j) as (Hj & x & v & Hx & Hv); [by left|].
    destruct (lookup_iteration size j st x v Hx Hv Hj) as (st1 & Hrun & Hm & Ht).
    pose proof Hm as (HA & HT & HL & _).
    destruct (IH st1) as (st2 & Hrun2 & Hm2 & Ht2).
    { intros k Hk. rewrite HA, HT, HL. apply Hb. by right. }
    rewrite HA, HT in *.
    exists st2. split_and!.
    + simpl. erewrite bind_Some by exact Hrun. exact Hrun2.
    + change (j :: l) with ([j] ++ l). eapply elementwise_app; eassumption.
    + rewrite Ht2, Ht. unfold lookup_events. simpl.
      rewrite app_nil_r, <- app_assoc. reflexivity.
Qed.

Lemma sin_baseline_lookup_table_ok (n size : Z) mem :
  fits n mem -> in_domain n size mem ->
  exists st,
    sin_baseline_lookup_table ARR n RESULT TABLE size (boot mem)
      = Some (RetMissing, st) /\
    elementwise (lookup_value (mem BTable) size) (seqZ 0 n) mem (m_mem st) /\
    m_trace st = lookup_events (mem BArr) size (seqZ 0 n).
Proof.
  intros (Hn & Ha & Hr) Hdom.
  destruct (forM_lookup size (seqZ 0 n) (boot mem)) as (st & H1 & H2 & H3).
  { intros j Hj. apply elem_of_seqZ in Hj. simpl. split; [lia|].
    apply Hdom. lia. }
  exists st. split_and!; [|exact H2|exact H3].
  unfold sin_baseline_lookup_table. cbv zeta. unfold for_loop.
  erewrite bind_Some by exact H1. reflexivity.
Qed.

(** ** The kernels that touch no element *)

Lemma sin_ssr_lookup_table_ok (n size : Z) mem :
  exists st,
    sin_ssr_lookup_table ARR n RESULT TABLE size (boot mem)
      = Some (RetInt 0, st) /\
    m_mem st = mem /\ m_trace st = [] /\ m_ssr st = false /\
    dm_bound (m_dm st SNRT_SSR_DM0) = n /\
    dm_bound (m_dm st SNRT_SSR_DM1) = n.
Proof.
  unfold sin_ssr_lookup_table. do 7 run_step. cbv zeta. run_step.
  eexists. split; [reflexivity|]. split_and!; reflexivity.
Qed.

Lemma sigmoid_ssr_frep_ok (n : Z) mem :
  sigmoid_ssr_frep ARR n RESULT (boot mem) = Some (RetInt 0, boot mem).
Proof. reflexivity. Qed.

(** ** Reading traces *)

Lemma written_app (t1 t2 : list event) :
  written (t1 ++ t2) = written t1 ++ written t2.
Proof. apply omap_app. Qed.

Lemma read_positions_app (t1 t2 : list event) :
  read_positions (t1 ++ t2) = read_positions t1 ++ read_positions t2.
Proof. apply omap_app. Qed.

Lemma written_scalar (l : list Z) : written (scalar_events l) = l.
Proof. induction l as [|j l IH]; simpl; [reflexivity|]. f_equal. exact IH. Qed.

Lemma written_stream (l : list Z) : written (stream_events l) = l.
Proof. induction l as [|j l IH]; simpl; [reflexivity|]. f_equal. exact IH. Qed.

Lemma read_scalar (l : list Z) : read_positions (scalar_events l) = l.
Proof. induction l as [|j l IH]; simpl; [reflexivity|]. f_equal. exact IH. Qed.

Lemma read_stream (l : list Z) : read_positions (stream_events l) = l.
Proof. induction l as [|j l IH]; simpl; [reflexivity|]. f_equal. exact IH. Qed.

Lemma stray_scalar (l : list Z) : Forall (fun e => ~ stray e) (scalar_events l).
Proof.
  induction l as [|j l IH]; simpl; [constructor|].
  constructor; [simpl; intuition congruence|].
  constructor; [simpl; intuition congruence|]. exact IH.
Qed.

Lemma stray_stream (l : list Z) : Forall (fun e => ~ stray e) (stream_events l).
Proof.
  induction l as [|j l IH]; simpl; [constructor|].
  constructor; [simpl; intuition congruence|].
  constructor; [simpl; intuition congruence|]. exact IH.
Qed.

Lemma consumed_app (t1 t2 : list event) :
  consumed (t1 ++ t2) = consumed t1 + consumed t2.
Proof. unfold consumed. rewrite filter_app, length_app. lia. Qed.

Lemma produced_app (t1 t2 : list event) :
  produced (t1 ++ t2) = produced t1 + produced t2.
Proof. unfold produced. rewrite filter_app, length_app. lia. Qed.

Lemma consumed_stream (l : list Z) :
  consumed (stream_events l) = Z.of_nat (length l).
Proof.
  unfold consumed. induction l as [|j l IH]; [reflexivity|].
  cbn [stream_events flat_map app]. rewrite filter_cons_True by done.
  rewrite filter_cons_False by (simpl; auto).
  fold (stream_events l). simpl length. lia.
Qed.

Lemma produced_stream (l : list Z) :
  produced (stream_events l) = Z.of_nat (length l).
Proof.
  unfold produced. induction l as [|j l IH]; [reflexivity|].
  cbn [stream_events flat_map app]. rewrite filter_cons_False by (simpl; auto).
  rewrite filter_cons_True by done.
  fold (stream_events l). simpl length. lia.
Qed.

Lemma consumed_scalar (l : list Z) : consumed (scalar_events l) = 0.
Proof.
  unfold consumed. induction l as [|j l IH]; [reflexivity|].
  cbn [scalar_events flat_map app]. rewrite !filter_cons_False by (simpl; auto).
  exact IH.
Qed.

Lemma produced_scalar (l : list Z) : produced (scalar_events l) = 0.
Proof.
  unfold produced. induction l as [|j l IH]; [reflexivity|].
  cbn [scalar_events flat_map app]. rewrite !filter_cons_False by (simpl; auto).
  exact IH.
Qed.

Lemma lookup_events_positions (arr : list float) (size n : Z) (table : list float) :
  (forall j, 0 <= j < n ->
     exists x v, zlookup arr j = Some x /\ lookup_value table size x = Some v) ->
  written (lookup_events arr size (seqZ 0 n)) = seqZ 0 n /\
  read_positions (lookup_events arr size (seqZ 0 n)) = seqZ 0 n /\
  Forall (fun e => ~ stray e) (lookup_events arr size (seqZ 0 n)).
Proof.
  intros Hdom.
  assert (Hl : forall l : list Z, (forall j, j ∈ l -> 0 <= j < n) ->
             written (lookup_events arr size l) = l /\
             read_positions (lookup_events arr size l) = l /\
             Forall (fun e => ~ stray e) (lookup_events arr size l)).
  { induction l as [|j l IH]; intros Hin.
    - split_and!; [reflexivity|reflexivity|constructor].
    - destruct IH as (I1 & I2 & I3); [intros k Hk; apply Hin; by right|].
      destruct (Hdom j) as (x & v & Hx & Hv); [apply Hin; by left|].
      unfold lookup_value in Hv.
      destruct (table_index size x) as [k|] eqn:Hk; [|discriminate].
      unfold lookup_events in *. simpl. rewrite Hx. simpl. rewrite Hk.
      simpl. rewrite I1, I2. split_and!; try reflexivity.
      do 3 (constructor; [simpl; intuition congruence|]). exact I3. }
  apply Hl. intros j Hj. apply elem_of_seqZ in Hj. lia.
Qed.

(** ** Every kernel at once *)

(** On arguments that meet its precondition, a call of any strategy
    completes with its status, stores [value_of] of the input at the positions
    it touches and leaves the rest of the output, the input and the table as
    they were; its writes and its input reads are exactly the touched
    positions, and it makes no other access. *)
Lemma kernel_ok (sinf exp : float -> float) (S : strategy) (hw : cluster)
    (n size : Z) (mem : buffer -> list float) :
  precondition S hw n size mem ->
  exists st,
    kernel sinf exp S hw n size (boot mem) = Some (status_of S, st) /\
    elementwise (value_of sinf exp S (mem BTable) size) (touched S hw n)
                mem (m_mem st) /\
    written (m_trace st) = touched S hw n /\
    read_positions (m_trace st) = touched S hw n /\
    Forall (fun e => ~ stray e) (m_trace st).
Proof.
  intros (Hfit & Hpart & Homp & Hdom).
  destruct hw as [cn ci]. simpl in Hpart, Homp.
  assert (Hcn : cn = cn - 1 + 1) by lia.
  destruct S; simpl kernel; unfold touched, assigned_to; simpl partitioned;
    cbn [snrt_cluster_core_num snrt_cluster_core_idx status_of].
  - destruct (sin_baseline_ok sinf n mem Hfit) as (st & H1 & H2 & H3).
    exists st. rewrite H3, written_scalar, read_scalar.
    split_and!; auto using stray_scalar.
  - destruct (sin_ssr_ok sinf n mem Hfit) as (st & H1 & H2 & H3 & _).
    exists st. rewrite H3, written_stream, read_stream.
    split_and!; auto using stray_stream.
  - destruct (sin_ssr_frep_ok sinf n mem Hfit) as (st & H1 & H2 & H3 & _).
    exists st. rewrite H3, written_stream, read_stream.
    split_and!; auto using stray_stream.
  - destruct Hpart as [HC Hi]; [reflexivity|].
    destruct (sin_parallel_ok sinf (cn - 1) ci n mem Hfit HC Hi)
      as (st & H1 & H2 & H3).
    rewrite <- Hcn in H1.
    exists st. rewrite H3, written_scalar, read_scalar.
    split_and!; auto using stray_scalar.
  - destruct Hpart as [HC Hi]; [reflexivity|].
    destruct (sin_ssr_parallel_ok sinf (cn - 1) ci n mem Hfit HC Hi)
      as (st & H1 & H2 & H3 & _).
    rewrite <- Hcn in H1.
    exists st. rewrite H3, written_app, read_positions_app, written_stream,
      written_scalar, read_stream, read_scalar.
    split_and!; auto.
    apply Forall_app; auto using stray_stream, stray_scalar.
  - specialize (Hdom eq_refl).
    destruct (sin_baseline_lookup_table_ok n size mem Hfit Hdom)
      as (st & H1 & H2 & H3).
    destruct (lookup_events_positions (mem BArr) size n (mem BTable) Hdom)
      as (P1 & P2 & P3).
    exists st. rewrite H3. split_and!; auto.
  - destruct (sin_omp_ok sinf n mem Hfit) as (st & H1 & H2 & H3).
    exists st. rewrite H3, written_scalar, read_scalar.
    split_and!; auto using stray_scalar.
  - destruct (sin_ssr_lookup_table_ok n size mem) as (st & H1 & H2 & H3 & _).
    exists st. rewrite H2, H3. split_and!; auto using elementwise_nil.
  - destruct Hpart as [HC Hi]; [reflexivity|].
    destruct (sin_ssr_omp_ok sinf (cn - 1) ci n mem Hfit HC Hi (Homp eq_refl))
      as (st & H1 & H2 & H3 & _).
    rewrite <- Hcn in H1.
    exists st. rewrite H3, written_app, read_positions_app, written_stream,
      written_scalar, read_stream, read_scalar.
    split_and!; auto.
    apply Forall_app; auto using stray_stream, stray_scalar.
  - destruct (sigmoid_baseline_ok exp n mem Hfit) as (st & H1 & H2 & H3).
    exists st. rewrite H3, written_scalar, read_scalar.
    split_and!; auto using stray_scalar.
  - destruct (sigmoid_ssr_ok exp n mem Hfit) as (st & H1 & H2 & H3 & _).
    exists st. rewrite H3, written_stream, read_stream.
    split_and!; auto using stray_stream.
  - exists (boot mem). split_and!; auto using elementwise_nil.
Qed.

(** ** The blocks and the extra elements tile the array *)

Lemma seqZ_snoc (k : nat) :
  seqZ 0 (Z.of_nat (S k)) = seqZ 0 (Z.of_nat k) ++ [Z.of_nat k].
Proof.
  replace (Z.of_nat (S k)) with (Z.of_nat k + 1) by lia.
  rewrite seqZ_app by lia. reflexivity.
Qed.

Lemma blocks_concat (q : Z) (k : nat) :
  0 <= q ->
  concat ((fun i => seqZ (i * q) q) <$> seqZ 0 (Z.of_nat k))
  = seqZ 0 (Z.of_nat k * q).
Proof.
  intros Hq. induction k as [|k IH]; [reflexivity|].
  rewrite seqZ_snoc, fmap_app, concat_app, IH. simpl.
  rewrite app_nil_r.
  replace (Z.of_nat (S k) * q) with (Z.of_nat k * q + q) by lia.
  rewrite (seqZ_app 0 (Z.of_nat k * q) q) by nia. reflexivity.
Qed.

Lemma extras_concat (base r : Z) (k : nat) :
  0 <= r ->
  concat ((fun i => if decide (i < r) then [base + i] else [])
            <$> seqZ 0 (Z.of_nat k))
  = seqZ base (Z.min (Z.of_nat k) r).
Proof.
  intros Hr. induction k as [|k IH].
  { change (Z.of_nat 0) with 0. rewrite Z.min_l by lia. reflexivity. }
  rewrite seqZ_snoc, fmap_app, concat_app, IH. simpl. rewrite app_nil_r.
  destruct (decide (Z.of_nat k < r)) as [Hlt|Hge].
  - replace (Z.min (Z.of_nat (S k)) r) with (Z.min (Z.of_nat k) r + 1) by lia.
    rewrite seqZ_app by lia.
    replace (Z.min (Z.of_nat k) r) with (Z.of_nat k) by lia. reflexivity.
  - rewrite app_nil_r. f_equal. lia.
Qed.

Lemma concat_app_perm {A} (f g : Z -> list A) (l : list Z) :
  concat ((fun i => f i ++ g i) <$> l) ≡ₚ concat (f <$> l) ++ concat (g <$> l).
Proof.
  induction l as [|i l IH]; [reflexivity|].
  simpl. rewrite IH.
  rewrite <- !app_assoc. apply Permutation_app_head.
  rewrite !app_assoc. apply Permutation_app_tail. apply Permutation_app_comm.
Qed.

(** The positions handed to workers [0 .. C-1] are [0 .. n-1], each once. *)
Lemma assigned_cover (C n : Z) :
  1 <= C -> 0 <= n ->
  concat ((fun i => assigned C i n) <$> seqZ 0 C) ≡ₚ seqZ 0 n.
Proof.
  intros HC Hn. pose proof (split_bounds n C Hn HC) as (Hq & Hq0 & Hlo & Hhi).
  unfold assigned. rewrite concat_app_perm.
  unfold local_range, extra_element.
  pose proof (blocks_concat (n / C) (Z.to_nat C) Hq) as Hb.
  pose proof (extras_concat (n / C * C) (n - n / C * C) (Z.to_nat C)
                ltac:(lia)) as He.
  rewrite Z2Nat.id in Hb, He by lia. rewrite Hb, He.
  replace (Z.min C (n - n / C * C)) with (n - n / C * C) by lia.
  rewrite (Z.mul_comm C (n / C)).
  replace (seqZ 0 n) with (seqZ 0 (n / C * C + (n - n / C * C)))
    by (f_equal; lia).
  rewrite seqZ_app by lia. reflexivity.
Qed.

(** ** Floating-point facts *)

(** Dividing a finite non-zero [double] by itself gives exactly [1.0]. *)
Lemma f64_div_self (s : bool) (m : positive) (e : Z) :
  f64_div (S754_finite s m e) (S754_finite s m e) = f64_one.
Proof.
  unfold f64_div, SFdiv, SFdiv_core_binary.
  rewrite Z.sub_diag. cbn [Zdigits2]. rewrite Z.sub_diag.
  change (Z.min (fexp 53 1024 0) 0) with (-53).
  change (0 - -53) with 53.
  cbv iota beta.
  assert (Hd : Z.div_eucl (Z.shiftl (Z.pos m) 53) (Z.pos m) = (2 ^ 53, 0)).
  { rewrite Z.shiftl_mul_pow2 by lia.
    pose proof (Z.div_mul (2 ^ 53) (Z.pos m) ltac:(lia)) as Hq.
    pose proof (Z.mod_mul (2 ^ 53) (Z.pos m) ltac:(lia)) as Hr.
    rewrite (Z.mul_comm (Z.pos m) (2 ^ 53)).
    unfold Z.div, Z.modulo in Hq, Hr.
    destruct (Z.div_eucl (2 ^ 53 * Z.pos m) (Z.pos m)) as [q r].
    simpl in Hq, Hr. congruence. }
  rewrite Hd. rewrite xorb_nilpotent.
  assert (Hl : new_location (Z.pos m) 0 = loc_Exact).
  { unfold new_location. destruct (Z.even (Z.pos m)); reflexivity. }
  rewrite Hl. vm_compute. reflexivity.
Qed.

Lemma sigmoid_ssr_value_finite (exp : float -> float) (x : float) :
  finite_nonzero (exp (SFopp x)) = true ->
  sigmoid_ssr_value exp x = sigmoid_value exp x.
Proof.
  unfold sigmoid_ssr_value, sigmoid_value.
  destruct (exp (SFopp x)) as [| | |s m e]; try discriminate.
  intros _. cbv zeta. rewrite f64_div_self. reflexivity.
Qed.

Lemma sigmoid_ssr_value_nan (exp : float -> float) (x : float) :
  finite_nonzero (exp (SFopp x)) = false ->
  sigmoid_ssr_value exp x = S754_nan.
Proof.
  unfold sigmoid_ssr_value.
  destruct (exp (SFopp x)) as [s|s| |s m e]; try discriminate;
    intros _; reflexivity.
Qed.

(** ** Running a strategy on the cluster *)

Lemma precondition_preserved (S : strategy) (hw : cluster) (n size : Z)
    (g : float -> option float) (idx : list Z) (m m' : buffer -> list float) :
  elementwise g idx m m' ->
  precondition S hw n size m -> precondition S hw n size m'.
Proof.
  intros (HA & HT & HL & _) (Hfit & Hpart & Homp & Hdom).
  unfold precondition, fits, in_domain in *. rewrite HA, HT, HL. auto.
Qed.

Lemma run_cores_ok (sinf exp : float -> float) (S : strategy) (cn n size : Z)
    (cs : list Z) :
  forall mem,
  (forall c, c ∈ cs -> precondition S (Cluster cn c) n size mem) ->
  exists out,
    run_cores (fun hw => kernel sinf exp S hw n size) cn cs mem = Some out /\
    elementwise (value_of sinf exp S (mem BTable) size)
                (concat ((fun c => touched S (Cluster cn c) n) <$> cs))
                mem out.
Proof.
  induction cs as [|c cs IH]; intros mem Hpre.
  - exists mem. split; [reflexivity|apply elementwise_nil].
  - destruct (kernel_ok sinf exp S (Cluster cn c) n size mem)
      as (st & Hrun & Hel & _); [apply Hpre; by left|].
    destruct (IH (m_mem st)) as (out & Hout & Hel2).
    { intros c' Hc'. eapply precondition_preserved; [exact Hel|].
      apply Hpre. by right. }
    exists out. split.
    + simpl. rewrite Hrun. exact Hout.
    + destruct Hel as (HA & HT & HL & HR). rewrite HT in Hel2.
      simpl. eapply elementwise_app; [|exact Hel2].
      unfold elementwise. auto.
Qed.

(** The positions a measurement of a strategy that evaluates the function
    covers are all of [0 .. n-1]. *)
Lemma touched_all (S : strategy) (cn n : Z) (i : Z) :
  evaluates S = true -> 2 <= cn -> 0 <= i < n ->
  i ∈ concat ((fun c => touched S (Cluster cn c) n) <$> workers S cn).
Proof.
  intros Hev Hcn Hi.
  assert (Hs : i ∈ seqZ 0 n) by (apply elem_of_seqZ; lia).
  destruct S; try discriminate; unfold workers, touched, assigned_to;
    cbn [partitioned snrt_cluster_core_num snrt_cluster_core_idx concat fmap
         list_fmap];
    rewrite ?app_nil_r; try exact Hs;
    rewrite (assigned_cover (cn - 1) n) by lia; exact Hs.
Qed.

Lemma elem_of_concat_fmap {A} (f : Z -> list A) (cs : list Z) (x : A) :
  x ∈ concat (f <$> cs) <-> exists c, c ∈ cs /\ x ∈ f c.
Proof.
  induction cs as [|c cs IH]; simpl.
  - split; [intros H; inversion H|intros (c & H & _); inversion H].
  - rewrite elem_of_app, IH. split.
    + intros [H|(c' & H1 & H2)]; [exists c; split; [by left|exact H]|].
      exists c'. split; [by right|exact H2].
    + intros (c' & H1 & H2). apply elem_of_cons in H1 as [->|H1]; [by left|].
      right. exists c'. auto.
Qed.

(** The cores of a measurement may be taken in any order. *)
Lemma run_any_order (sinf exp : float -> float) (S : strategy) (cn n size : Z)
    (cs : list Z) mem :
  evaluates S = true -> 2 <= cn <= 2 ^ 32 -> fits n mem ->
  (S = SinSsrOmp -> n / (cn - 1) + 1 < 2 ^ 32) ->
  cs ≡ₚ workers S cn ->
  exists out,
    run_cores (fun hw => kernel sinf exp S hw n size) cn cs mem = Some out /\
    forall i, 0 <= i < n ->
      zlookup (out BResult) i =
      zlookup (mem BArr) i ≫= value_of sinf exp S (mem BTable) size.
Proof.
  intros Hev Hcn Hfit Homp Hperm.
  destruct (run_cores_ok sinf exp S cn n size cs mem) as (out & Hrun & Hel).
  { intros c Hc. rewrite Hperm in Hc. unfold precondition. split_and!; auto.
    - intros Hp. simpl. unfold workers in Hc. rewrite Hp in Hc.
      apply elem_of_seqZ in Hc. lia.
    - intros ->. discriminate. }
  exists out. split; [exact Hrun|].
  intros i Hi. destruct Hel as (_ & _ & _ & HR). rewrite HR.
  rewrite decide_True; [reflexivity|].
  pose proof (touched_all S cn n i Hev ltac:(lia) Hi) as Hall.
  apply elem_of_concat_fmap in Hall as (c & Hc & Hic).
  apply elem_of_concat_fmap. exists c. split; [|exact Hic].
  rewrite Hperm. exact Hc.
Qed.

Lemma run_ok (sinf exp : float -> float) (S : strategy) (cn n size : Z) mem :
  evaluates S = true -> 2 <= cn <= 2 ^ 32 -> fits n mem ->
  (S = SinSsrOmp -> n / (cn - 1) + 1 < 2 ^ 32) ->
  exists out,
    run sinf exp S cn n size mem = Some out /\
    forall i, 0 <= i < n ->
      zlookup (out BResult) i =
      zlookup (mem BArr) i ≫= value_of sinf exp S (mem BTable) size.
Proof.
  intros Hev Hcn Hfit Homp.
  apply (run_any_order sinf exp S cn n size (workers S cn)); auto.
Qed.

(** * The claims *)

(** C2. For an array of [N] elements and [C] workers, [0 <= i < C <= N],
    worker [i] of [sin_parallel] handles the block of [N / C] positions
    starting at [i * (N / C)], and the extra position [N / C * C + i]
    exactly when [i < N - N / C * C]; it reads the input at the positions it
    writes.  (For [N = 10], [C = 3]: blocks of 3, one remaining element,
    position 9 for worker 0, none for workers 1 and 2: the instance proved
    next.) *)
Theorem C2_work_partition (sinf : float -> float) (N C i : Z)
    (mem : buffer -> list float) :
  fits N mem -> 0 <= i < C -> C <= N ->
  exists st,
    sin_parallel sinf (Cluster (C + 1) i) ARR N RESULT (boot mem)
      = Some (RetInt 0, st) /\
    written (m_trace st) =
      seqZ (i * (N / C)) (N / C) ++
      (if decide (i < N - N / C * C) then [N / C * C + i] else []) /\
    read_positions (m_trace st) = written (m_trace st).
Proof.
  intros Hfit Hi HC.
  destruct (sin_parallel_ok sinf C i N mem Hfit) as (st & H1 & _ & H3);
    [destruct Hfit; lia|exact Hi|].
  exists st. rewrite H3, written_scalar, read_scalar.
  split_and!; [exact H1|reflexivity|reflexivity].
Qed.

(** C2 at [N = 10], [C = 3]: blocks of three positions for every worker, the
    remaining position 9 for worker 0, none for workers 1 and 2. *)
Lemma C2_work_partition_10_3 :
  (exists st,
     sin_parallel (fun x => x) (Cluster 4 0) ARR 10 RESULT
       (boot (memory (ramp 0 10) (zeros 10) [])) = Some (RetInt 0, st) /\
     written (m_trace st) = [0; 1; 2; 9] /\
     read_positions (m_trace st) = written (m_trace st)) /\
  (exists st,
     sin_parallel (fun x => x) (Cluster 4 1) ARR 10 RESULT
       (boot (memory (ramp 0 10) (zeros 10) [])) = Some (RetInt 0, st) /\
     written (m_trace st) = [3; 4; 5] /\
     read_positions (m_trace st) = written (m_trace st)) /\
  (exists st,
     sin_parallel (fun x => x) (Cluster 4 2) ARR 10 RESULT
       (boot (memory (ramp 0 10) (zeros 10) [])) = Some (RetInt 0, st) /\
     written (m_trace st) = [6; 7; 8] /\
     read_positions (m_trace st) = written (m_trace st)).
Proof.
  assert (Hfit : fits 10 (memory (ramp 0 10) (zeros 10) []))
    by (unfold fits; simpl; lia).
  split_and!.
  - apply (C2_work_partition (fun x => x) 10 3 0 _ Hfit); lia.
  - apply (C2_work_partition (fun x => x) 10 3 1 _ Hfit); lia.
  - apply (C2_work_partition (fun x => x) 10 3 2 _ Hfit); lia.
Defined.

(** C3. For [C <= N] workers, the positions the workers [0 .. C-1] of
    [sin_parallel] write, taken together, are the positions [0 .. N-1], each
    exactly once; likewise for [sin_ssr_parallel]. *)
Theorem C3_partition_cover (sinf : float -> float) (N C : Z)
    (mem : buffer -> list float) :
  fits N mem -> 1 <= C -> C <= N ->
  concat ((fun i => writes_of (sin_parallel sinf (Cluster (C + 1) i)
                                 ARR N RESULT) mem) <$> seqZ 0 C)
    ≡ₚ seqZ 0 N /\
  concat ((fun i => writes_of (sin_ssr_parallel sinf (Cluster (C + 1) i)
                                 ARR N RESULT) mem) <$> seqZ 0 C)
    ≡ₚ seqZ 0 N.
Proof.
  intros Hfit HC HN. pose proof Hfit as (Hn & _).
  assert (H1 : (fun i => writes_of (sin_parallel sinf (Cluster (C + 1) i)
                                      ARR N RESULT) mem) <$> seqZ 0 C
               = (fun i => assigned C i N) <$> seqZ 0 C).
  { apply list_fmap_ext. intros k i Hk. apply lookup_seqZ in Hk.
    destruct (sin_parallel_ok sinf C i N mem Hfit) as (st & R1 & _ & R3);
      [lia..|].
    unfold writes_of. rewrite R1, R3. apply written_scalar. }
  assert (H2 : (fun i => writes_of (sin_ssr_parallel sinf (Cluster (C + 1) i)
                                      ARR N RESULT) mem) <$> seqZ 0 C
               = (fun i => assigned C i N) <$> seqZ 0 C).
  { apply list_fmap_ext. intros k i Hk. apply lookup_seqZ in Hk.
    destruct (sin_ssr_parallel_ok sinf C i N mem Hfit)
      as (st & R1 & _ & R3 & _); [lia..|].
    unfold writes_of. rewrite R1, R3, written_app, written_stream,
      written_scalar. reflexivity. }
  rewrite H1, H2. split; apply assigned_cover; lia.
Qed.

(** C3 at [N = 10], [C = 3]. *)
Lemma C3_partition_cover_10_3 :
  concat ((fun i => writes_of (sin_parallel (fun x => x) (Cluster (3 + 1) i)
                                 ARR 10 RESULT)
                              (memory (ramp 0 10) (zeros 10) []))
            <$> seqZ 0 3)
    ≡ₚ seqZ 0 10 /\
  concat ((fun i => writes_of (sin_ssr_parallel (fun x => x) (Cluster (3 + 1) i)
                                 ARR 10 RESULT)
                              (memory (ramp 0 10) (zeros 10) []))
            <$> seqZ 0 3)
    ≡ₚ seqZ 0 10.
Proof.
  apply (C3_partition_cover (fun x => x) 10 3).
  - unfold fits; simpl; lia.
  - lia.
  - lia.
Defined.






(** C5, as stated, fails: with a table of 4 entries the kernel reads slot 2
    for the input [1.0] where [floor(1.0 * 4 / (2 pi))] is slot 0, and it
    reads slot 0 for the input [-0.25] where the floor is slot -1, outside
    the table. *)
Lemma C5_lookup_index_counterexample :
  exists st,
    sin_baseline_lookup_table ARR 2 RESULT TABLE 4
      (boot (memory [f32_of_Z 1; minus_quarter] (zeros 2) (ramp 10 4)))
      = Some (RetMissing, st) /\
    zlookup (m_mem st BResult) 0 = Some (f32_of_Z 12) /\
    spec_lookup (ramp 10 4) 4 (f32_of_Z 1) = Some (f32_of_Z 10) /\
    zlookup (m_mem st BResult) 1 = Some (f32_of_Z 10) /\
    spec_lookup (ramp 10 4) 4 minus_quarter = None.
Proof.
  eexists. split; [vm_compute; reflexivity|].
  split_and!; vm_compute; reflexivity.
Qed.

(** C5, amended.  On inputs that map into the table, the kernel stores
    [table[(int)(input[i] * factor)]] at every position [i < n], where
    [factor] is [lookup_table_size / M_PI * 2.0] rounded to [float] and the
    conversion to [int] truncates toward zero. *)
Theorem C5_lookup_table_amended (n size : Z) (mem : buffer -> list float) :
  fits n mem -> in_domain n size mem ->
  exists st,
    sin_baseline_lookup_table ARR n RESULT TABLE size (boot mem)
      = Some (RetMissing, st) /\
    forall i, 0 <= i < n ->
      exists x k v,
        zlookup (mem BArr) i = Some x /\
        int_of_float
          (f32_mul x (f32_of_f64
                        (f64_mul (f64_div (f64_of_Z size) M_PI) f64_two)))
          = Some k /\
        zlookup (mem BTable) k = Some v /\
        zlookup (m_mem st BResult) i = Some v.
Proof.
  intros Hfit Hdom.
  destruct (sin_baseline_lookup_table_ok n size mem Hfit Hdom)
    as (st & H1 & (_ & _ & _ & HR) & _).
  exists st. split; [exact H1|]. intros i Hi.
  destruct (Hdom i Hi) as (x & v & Hx & Hv).
  unfold lookup_value, table_index, lookup_factor in Hv.
  destruct (int_of_float _) as [k|] eqn:Hk; [|discriminate]. simpl in Hv.
  exists x, k, v. split_and!; auto.
  rewrite HR, decide_True by (apply elem_of_seqZ; lia).
  rewrite Hx. simpl. unfold lookup_value, table_index, lookup_factor.
  rewrite Hk. exact Hv.
Qed.

(** The amended C5 on the inputs [1.0] and [-0.25] with a table of four
    entries. *)
Lemma C5_lookup_table_amended_sample :
  exists st,
    sin_baseline_lookup_table ARR 2 RESULT TABLE 4
      (boot (memory [f32_of_Z 1; minus_quarter] (zeros 2) (ramp 10 4)))
      = Some (RetMissing, st) /\
    forall i, 0 <= i < 2 ->
      exists x k v,
        zlookup [f32_of_Z 1; minus_quarter] i = Some x /\
        int_of_float
          (f32_mul x (f32_of_f64
                        (f64_mul (f64_div (f64_of_Z 4) M_PI) f64_two)))
          = Some k /\
        zlookup (ramp 10 4) k = Some v /\
        zlookup (m_mem st BResult) i = Some v.
Proof.
  apply (C5_lookup_table_amended 2 4
           (memory [f32_of_Z 1; minus_quarter] (zeros 2) (ramp 10 4))).
  - unfold fits. simpl. lia.
  - intros j Hj. assert (Hj' : j = 0 \/ j = 1) by lia.
    destruct Hj' as [-> | ->]; eexists _, _;
      (split; [vm_compute; reflexivity|vm_compute; reflexivity]).
Defined.

(** C6 fails for [sin_ssr_omp]: every worker configures the read stream
    for [n / C] elements and the write stream for [n / C + 1], and runs
    [n / C] iterations, so it issues [n / C] stream-consuming and [n / C]
    stream-producing instructions: one fewer than the write descriptor's
    length. *)
Theorem C6_sin_ssr_omp_write_stream_bound (sinf : float -> float) (C i n : Z)
    (mem : buffer -> list float) :
  fits n mem -> 1 <= C < 2 ^ 32 -> 0 <= i < C -> n / C + 1 < 2 ^ 32 ->
  exists st,
    sin_ssr_omp sinf (Cluster (C + 1) i) ARR n RESULT (boot mem)
      = Some (RetInt 0, st) /\
    consumed (m_trace st) = n / C /\
    dm_bound (m_dm st SNRT_SSR_DM0) = n / C /\
    produced (m_trace st) = n / C /\
    dm_bound (m_dm st SNRT_SSR_DM1) = n / C + 1.
Proof.
  intros Hfit HC Hi Hq1. pose proof Hfit as (Hn & _).
  pose proof (split_bounds n C ltac:(lia) ltac:(lia)) as (Hq & _).
  destruct (sin_ssr_omp_ok sinf C i n mem Hfit HC Hi Hq1)
    as (st & H1 & _ & H3 & _ & H5 & H6).
  exists st. split; [exact H1|].
  rewrite H3, H5, H6, consumed_app, produced_app, consumed_stream,
    produced_stream, consumed_scalar, produced_scalar.
  unfold local_range. rewrite length_seqZ. split_and!; lia.
Qed.

(** C6 for worker 0 of three on ten elements: 3 consumes against a read
    length of 3, 3 produces against a write length of 4. *)
Lemma C6_sin_ssr_omp_10_3 :
  exists st,
    sin_ssr_omp (fun x => x) (Cluster (3 + 1) 0) ARR 10 RESULT
      (boot (memory (ramp 0 10) (zeros 10) [])) = Some (RetInt 0, st) /\
    consumed (m_trace st) = 3 /\ dm_bound (m_dm st SNRT_SSR_DM0) = 3 /\
    produced (m_trace st) = 3 /\ dm_bound (m_dm st SNRT_SSR_DM1) = 4.
Proof.
  apply (C6_sin_ssr_omp_write_stream_bound (fun x => x) 3 0 10
           (memory (ramp 0 10) (zeros 10) [])).
  - unfold fits. simpl. lia.
  - lia.
  - lia.
  - change (10 / 3) with 3. lia.
Defined.

(** C7. The streaming lookup-table variant configures the two streams,
    enables and disables streaming, and returns 0: it leaves every buffer as
    it was - no element of the output is written - and makes no memory or
    stream access at all, so no table slot is read. *)
Theorem C7_sin_ssr_lookup_table_inert (n size : Z) (mem : buffer -> list float) :
  exists st,
    sin_ssr_lookup_table ARR n RESULT TABLE size (boot mem)
      = Some (RetInt 0, st) /\
    m_mem st BResult = mem BResult /\
    m_mem st = mem /\
    m_trace st = [] /\
    Forall (fun e => ~ reads_table e) (m_trace st) /\
    written (m_trace st) = [].
Proof.
  destruct (sin_ssr_lookup_table_ok n size mem) as (st & H1 & H2 & H3 & _).
  exists st. rewrite H2, H3. split_and!; auto.
Qed.

(** C8. Element [i] of [sigmoid_ssr]'s output is [one / (one + e)] with
    [e = exp(-input[i])] and [one = e / e], where the baseline stores
    [1 / (1 + e)].  The two agree when [e] is finite and non-zero, and only
    then (under [==]); when [e] is [0] the streamed kernel stores NaN where
    the baseline stores [1], and when [e] is [+inf] it stores NaN where the
    baseline stores [0]. *)
Theorem C8_sigmoid_ssr_fabricated_one (exp : float -> float) (n : Z)
    (mem : buffer -> list float) :
  fits n mem ->
  exists st_ssr st_base,
    sigmoid_ssr exp ARR n RESULT (boot mem) = Some (RetInt 0, st_ssr) /\
    sigmoid_baseline exp ARR n RESULT (boot mem) = Some (RetInt 0, st_base) /\
    forall i x, 0 <= i < n -> zlookup (mem BArr) i = Some x ->
      exists a b,
        zlookup (m_mem st_ssr BResult) i = Some a /\
        zlookup (m_mem st_base BResult) i = Some b /\
        a = f64_div (f64_div (exp (SFopp x)) (exp (SFopp x)))
                    (f64_add (f64_div (exp (SFopp x)) (exp (SFopp x)))
                             (exp (SFopp x))) /\
        b = f64_div f64_one (f64_add f64_one (exp (SFopp x))) /\
        (finite_nonzero (exp (SFopp x)) = true -> a = b) /\
        (f64_eqb a b = true -> finite_nonzero (exp (SFopp x)) = true) /\
        (exp (SFopp x) = S754_zero false -> a = S754_nan /\ b = f64_one) /\
        (exp (SFopp x) = S754_infinity false ->
           a = S754_nan /\ b = S754_zero false).
Proof.
  intros Hfit.
  destruct (sigmoid_ssr_ok exp n mem Hfit)
    as (s1 & R1 & (_ & _ & _ & E1) & _).
  destruct (sigmoid_baseline_ok exp n mem Hfit)
    as (s2 & R2 & (_ & _ & _ & E2) & _).
  exists s1, s2. split_and!; [exact R1|exact R2|].
  intros i x Hi Hx.
  exists (sigmoid_ssr_value exp x), (sigmoid_value exp x).
  rewrite E1, E2, !decide_True by (apply elem_of_seqZ; lia).
  rewrite Hx. split_and!; try reflexivity.
  - apply sigmoid_ssr_value_finite.
  - destruct (finite_nonzero (exp (SFopp x))) eqn:Hf; [reflexivity|].
    rewrite (sigmoid_ssr_value_nan exp x Hf). discriminate.
  - unfold sigmoid_ssr_value, sigmoid_value. intros ->. split; reflexivity.
  - unfold sigmoid_ssr_value, sigmoid_value. intros ->. split; reflexivity.
Qed.

(** C8 on three inputs. *)
Lemma C8_sigmoid_ssr_fabricated_one_sample :
  exists st_ssr st_base,
    sigmoid_ssr (fun x => x) ARR 3 RESULT
      (boot (memory (ramp64 0 3) (zeros 3) [])) = Some (RetInt 0, st_ssr) /\
    sigmoid_baseline (fun x => x) ARR 3 RESULT
      (boot (memory (ramp64 0 3) (zeros 3) [])) = Some (RetInt 0, st_base) /\
    forall i x, 0 <= i < 3 -> zlookup (ramp64 0 3) i = Some x ->
      exists a b,
        zlookup (m_mem st_ssr BResult) i = Some a /\
        zlookup (m_mem st_base BResult) i = Some b /\
        a = f64_div (f64_div (SFopp x) (SFopp x))
                    (f64_add (f64_div (SFopp x) (SFopp x)) (SFopp x)) /\
        b = f64_div f64_one (f64_add f64_one (SFopp x)) /\
        (finite_nonzero (SFopp x) = true -> a = b) /\
        (f64_eqb a b = true -> finite_nonzero (SFopp x) = true) /\
        (SFopp x = S754_zero false -> a = S754_nan /\ b = f64_one) /\
        (SFopp x = S754_infinity false -> a = S754_nan /\ b = S754_zero false).
Proof.
  apply (C8_sigmoid_ssr_fabricated_one (fun x => x) 3
           (memory (ramp64 0 3) (zeros 3) [])).
  unfold fits. simpl. lia.
Defined.

(** C9 fails for [sin_baseline_lookup_table]: its body ends without a
    [return], so a call that completes hands back no status - on a sample
    call, and on every call that completes. *)
Theorem C9_lookup_kernel_returns_no_status :
  (exists st,
     sin_baseline_lookup_table ARR 1 RESULT TABLE 1
       (boot (memory (zeros 1) (zeros 1) (zeros 1))) = Some (RetMissing, st)) /\
  (forall n size mem,
     match sin_baseline_lookup_table ARR n RESULT TABLE size (boot mem) with
     | Some (r, _) => r = RetMissing
     | None => True
     end).
Proof.
  split.
  - eexists. vm_compute. reflexivity.
  - intros n size mem. unfold sin_baseline_lookup_table, bind.
    destruct (for_loop n _ (boot mem)) as [[[] st]|]; [reflexivity|exact I].
Qed.

(** ** The memory benchmark *)

Import Benchmark.

Lemma bbind_eq {A C} (c : B A) (k : A -> B C) (st st' : bstate) (a : A) :
  c st = (a, st') -> bbind c k st = k a st'.
Proof. intros H. unfold bbind. rewrite H. reflexivity. Qed.

Lemma each_copy (src dst : buf) (l : list Z) :
  forall st, exists m',
    each l (fun i => bbind (bload src i) (fun v => bstore dst i v)) st
    = (tt, BState m' (b_reads st) (b_trace st ++ copy_events src dst l)).
Proof.
  induction l as [|i l IH]; intros st.
  - exists (b_mem st). simpl. unfold bret, copy_events. simpl.
    rewrite app_nil_r. destruct st; reflexivity.
  - simpl. unfold bbind at 1. unfold bbind at 1. unfold bload at 1.
    unfold bstore at 1. simpl.
    match goal with |- context [each l _ ?s] => destruct (IH s) as [m' Hm'] end.
    exists m'. rewrite Hm'. simpl. unfold copy_events. simpl.
    rewrite <- !app_assoc. reflexivity.
Qed.

Lemma each_init (l : list Z) :
  forall st, exists m',
    each l (fun i => bstore memory_x i (init_value i)) st
    = (tt, BState m' (b_reads st)
                  (b_trace st ++ (BStore memory_x <$> l))).
Proof.
  induction l as [|i l IH]; intros st.
  - exists (b_mem st). simpl. unfold bret. rewrite app_nil_r.
    destruct st; reflexivity.
  - simpl. unfold bbind at 1. unfold bstore at 1. simpl.
    match goal with |- context [each l _ ?s] => destruct (IH s) as [m' Hm'] end.
    exists m'. rewrite Hm'. simpl. rewrite <- !app_assoc. reflexivity.
Qed.

Ltac bstep :=
  erewrite bbind_eq by reflexivity; cbn [b_reads b_trace b_mem app].

Ltac bstep_with H :=
  cbn [b_reads b_trace b_mem app] in H;
  erewrite bbind_eq by exact H; cbn [b_reads b_trace b_mem app].

(** The whole trace of [main] on core 0. *)
Lemma main_trace_eq (size : Z) (mcycle : nat -> Z) :
  main_trace size mcycle =
  [Alloc memory_x MainMemory size; Alloc memory_target MainMemory size;
   Alloc memory_target_from_l1 MainMemory size] ++
  (BStore memory_x <$> seqZ 0 size) ++
  [ReadCycle 0] ++
  copy_events memory_x memory_target (seqZ 0 size) ++
  [ReadCycle 1;
   Printf copy_memory_to_memory size (size_t (mcycle 1%nat - mcycle 0%nat));
   Alloc memory_l1 Scratchpad size;
   ReadCycle 2] ++
  copy_events memory_x memory_target_from_l1 (seqZ 0 size) ++
  [ReadCycle 3;
   Printf copy_l1_to_memory size (size_t (mcycle 3%nat - mcycle 2%nat));
   VerifyVector memory_target memory_x;
   VerifyVector memory_target memory_target_from_l1].
Proof.
  unfold main_trace, main.
  destruct (decide (0 <> 0)) as [H|_]; [exfalso; apply H; reflexivity|].
  unfold start.
  do 3 bstep.
  match goal with |- context [bbind (bfor _ _) _ ?s] =>
    destruct (each_init (seqZ 0 size) s) as [m1 Hm1] end.
  bstep_with Hm1. bstep.
  match goal with |- context [bbind (bfor _ _) _ ?s] =>
    destruct (each_copy memory_x memory_target (seqZ 0 size) s) as [m2 Hm2] end.
  bstep_with Hm2. do 4 bstep.
  match goal with |- context [bbind (bfor _ _) _ ?s] =>
    destruct (each_copy memory_x memory_target_from_l1 (seqZ 0 size) s)
      as [m3 Hm3] end.
  bstep_with Hm3. do 4 bstep.
  unfold bret. cbn [snd b_trace app].
  rewrite <- !app_assoc. reflexivity.
Qed.

Lemma after_read_app (k : nat) (l1 l2 : list bevent) :
  Forall (fun e => is_read_cycle e = false) l1 ->
  after_read k (l1 ++ l2) = after_read k l2.
Proof.
  induction 1 as [|e l1 He _ IH]; [reflexivity|].
  destruct e; try discriminate; exact IH.
Qed.

Lemma until_read_app (l1 l2 : list bevent) :
  Forall (fun e => is_read_cycle e = false) l1 ->
  until_read (l1 ++ l2) = l1 ++ until_read l2.
Proof.
  induction 1 as [|e l1 He _ IH]; [reflexivity|].
  destruct e; try discriminate; simpl; f_equal; exact IH.
Qed.

Lemma copy_events_no_read (src dst : buf) (l : list Z) :
  Forall (fun e => is_read_cycle e = false) (copy_events src dst l).
Proof.
  induction l as [|i l IH]; [constructor|].
  unfold copy_events. simpl. repeat (constructor; [reflexivity|]). exact IH.
Qed.

Lemma init_events_no_read (l : list Z) :
  Forall (fun e => is_read_cycle e = false) (BStore memory_x <$> l).
Proof. apply Forall_fmap, Forall_forall. intros i _. reflexivity. Qed.

Lemma loads_of_copy (src dst : buf) (l : list Z) :
  loads_of (copy_events src dst l) = (fun i => (src, i)) <$> l.
Proof.
  induction l as [|i l IH]; [reflexivity|].
  unfold copy_events, loads_of in *. simpl. f_equal. exact IH.
Qed.

Lemma copy_events_touch (src dst b : buf) (l : list Z) :
  b <> src -> b <> dst ->
  Forall (fun e => touches b e = false) (copy_events src dst l).
Proof.
  intros Hs Hd. induction l as [|i l IH]; [constructor|].
  unfold copy_events. simpl.
  constructor; [simpl; apply bool_decide_eq_false; congruence|].
  constructor; [simpl; apply bool_decide_eq_false; congruence|]. exact IH.
Qed.

(** C10 fails: both timed loops of the benchmark read the main-memory
    buffer [memory_x].  The loop timed between the third and the fourth read
    of the cycle counter, reported as [copy_l1_to_memory], loads
    [memory_x[0 .. size-1]] exactly as the first timed loop does; the
    scratchpad buffer [memory_l1] is allocated and never loaded from or
    stored to. *)
Theorem C10_second_copy_reads_main_memory (size : Z) (mcycle : nat -> Z) :
  loads_of (timed 0 (main_trace size mcycle))
    = (fun i => (memory_x, i)) <$> seqZ 0 size /\
  loads_of (timed 2 (main_trace size mcycle))
    = (fun i => (memory_x, i)) <$> seqZ 0 size /\
  Forall (fun e => touches memory_l1 e = false) (main_trace size mcycle) /\
  Alloc memory_x MainMemory size ∈ main_trace size mcycle /\
  Alloc memory_l1 Scratchpad size ∈ main_trace size mcycle /\
  Printf copy_l1_to_memory size (size_t (mcycle 3%nat - mcycle 2%nat))
    ∈ main_trace size mcycle.
Proof.
  rewrite main_trace_eq. split_and!.
  - unfold timed. cbn [app after_read].
    rewrite after_read_app by apply init_events_no_read.
    cbn [app after_read]. rewrite decide_True by reflexivity.
    rewrite until_read_app by apply copy_events_no_read.
    cbn [until_read]. rewrite app_nil_r. apply loads_of_copy.
  - unfold timed. cbn [app after_read].
    rewrite after_read_app by apply init_events_no_read.
    cbn [app after_read]. rewrite decide_False by discriminate.
    rewrite after_read_app by apply copy_events_no_read.
    cbn [app after_read]. rewrite decide_False by discriminate.
    rewrite decide_True by reflexivity.
    rewrite until_read_app by apply copy_events_no_read.
    cbn [until_read]. rewrite app_nil_r. apply loads_of_copy.
  - repeat (apply Forall_app; split);
      try (apply copy_events_touch; discriminate);
      try (repeat constructor).
    apply Forall_fmap, Forall_forall. intros i _. reflexivity.
  - rewrite !elem_of_app, !elem_of_cons. eauto 20.
  - rewrite !elem_of_app, !elem_of_cons. eauto 20.
  - rewrite !elem_of_app, !elem_of_cons. eauto 20.
Qed.

(** C1 fails on the sigmoid family, where the code departs from its own
    siblings.  [sigmoid_ssr_frep] is an empty stub (sigmoid.c:84-91) where
    its sibling [sin_ssr_frep] calls the streamed kernel: on the input
    [[0.0]] it leaves the freshly zeroed output at [0.0], the baseline stores
    [1 / (1 + exp(-0.0)) = 0.5].  [sigmoid_ssr] fabricates its constant 1 as
    [exp(-x) / exp(-x)] (sigmoid.c:70, marked [TODO change it]): on the input
    [[1000.0]], where [exp] underflows to [+0.0], it stores NaN, the baseline
    [1.0].  Neither result is within any tolerance below one half of the
    baseline's.  Both calls meet the precondition. *)
Theorem C1_sigmoid_strategies_miss_baseline (sinf exp : float -> float)
    (tol : float) :
  exp (SFopp (S754_zero false)) = f64_one ->
  exp (SFopp f64_thousand) = S754_zero false ->
  SFleb f64_half tol = false ->
  (exists out base,
     precondition SigmoidSsrFrep (Cluster 2 0) 1 0
                  (memory [S754_zero false] [S754_zero false] []) /\
     run sinf exp SigmoidSsrFrep 2 1 0
         (memory [S754_zero false] [S754_zero false] []) = Some out /\
     run sinf exp (family_baseline SigmoidSsrFrep) 2 1 0
         (memory [S754_zero false] [S754_zero false] []) = Some base /\
     zlookup (out BResult) 0 = Some (S754_zero false) /\
     zlookup (base BResult) 0 = Some f64_half /\
     within_tol tol (S754_zero false) f64_half = false) /\
  (exists out base,
     precondition SigmoidSsr (Cluster 2 0) 1 0
                  (memory [f64_thousand] [S754_zero false] []) /\
     run sinf exp SigmoidSsr 2 1 0
         (memory [f64_thousand] [S754_zero false] []) = Some out /\
     run sinf exp (family_baseline SigmoidSsr) 2 1 0
         (memory [f64_thousand] [S754_zero false] []) = Some base /\
     zlookup (out BResult) 0 = Some S754_nan /\
     zlookup (base BResult) 0 = Some f64_one /\
     within_tol tol S754_nan f64_one = false).
Proof.
  intros Hone Hzero Htol.
  assert (Hpre : forall S x,
             partitioned S = false -> S <> SinBaselineLookupTable ->
             precondition S (Cluster 2 0) 1 0
                          (memory [x] [S754_zero false] [])).
  { intros S x HS Hl. unfold precondition, fits. simpl.
    split_and!; [lia..| | |congruence].
    - rewrite HS. discriminate.
    - intros ->. discriminate. }
  assert (Hfit : forall x, fits 1 (memory [x] [S754_zero false] []))
    by (intros x; unfold fits; simpl; lia).
  split.
  - destruct (run_ok sinf exp SigmoidBaseline 2 1 0
                (memory [S754_zero false] [S754_zero false] []))
      as (base & Hb & Hbv); [reflexivity|lia|apply Hfit|discriminate|].
    exists (memory [S754_zero false] [S754_zero false] []), base.
    split_and!.
    + apply Hpre; [reflexivity|discriminate].
    + reflexivity.
    + exact Hb.
    + reflexivity.
    + rewrite Hbv by lia. simpl. unfold sigmoid_value. rewrite Hone.
      reflexivity.
    + exact Htol.
  - destruct (run_ok sinf exp SigmoidSsr 2 1 0
                (memory [f64_thousand] [S754_zero false] []))
      as (out & Ho & Hov); [reflexivity|lia|apply Hfit|discriminate|].
    destruct (run_ok sinf exp SigmoidBaseline 2 1 0
                (memory [f64_thousand] [S754_zero false] []))
      as (base & Hb & Hbv); [reflexivity|lia|apply Hfit|discriminate|].
    exists out, base. split_and!.
    + apply Hpre; [reflexivity|discriminate].
    + exact Ho.
    + exact Hb.
    + rewrite Hov by lia. simpl. unfold sigmoid_ssr_value. rewrite Hzero.
      reflexivity.
    + rewrite Hbv by lia. simpl. unfold sigmoid_value. rewrite Hzero.
      reflexivity.
    + destruct tol as [s| | |s m e]; reflexivity.
Qed.

(** The two divergences for the tolerance [1e-6], with [exp] given at the
    two arguments used. *)
Lemma C1_sigmoid_strategies_miss_baseline_sample :
  (exists out base,
     precondition SigmoidSsrFrep (Cluster 2 0) 1 0
                  (memory [S754_zero false] [S754_zero false] []) /\
     run (fun x => x) exp_at_zero_and_minus_thousand SigmoidSsrFrep 2 1 0
         (memory [S754_zero false] [S754_zero false] []) = Some out /\
     run (fun x => x) exp_at_zero_and_minus_thousand
         (family_baseline SigmoidSsrFrep) 2 1 0
         (memory [S754_zero false] [S754_zero false] []) = Some base /\
     zlookup (out BResult) 0 = Some (S754_zero false) /\
     zlookup (base BResult) 0 = Some f64_half /\
     within_tol tolerance_1e_6 (S754_zero false) f64_half = false) /\
  (exists out base,
     precondition SigmoidSsr (Cluster 2 0) 1 0
                  (memory [f64_thousand] [S754_zero false] []) /\
     run (fun x => x) exp_at_zero_and_minus_thousand SigmoidSsr 2 1 0
         (memory [f64_thousand] [S754_zero false] []) = Some out /\
     run (fun x => x) exp_at_zero_and_minus_thousand
         (family_baseline SigmoidSsr) 2 1 0
         (memory [f64_thousand] [S754_zero false] []) = Some base /\
     zlookup (out BResult) 0 = Some S754_nan /\
     zlookup (base BResult) 0 = Some f64_one /\
     within_tol tolerance_1e_6 S754_nan f64_one = false).
Proof.
  apply (C1_sigmoid_strategies_miss_baseline (fun x => x)
           exp_at_zero_and_minus_thousand tolerance_1e_6);
    reflexivity.
Defined.

(** * Further properties *)

(** For every strategy that evaluates the function itself on
    each element - all but the two lookup-table kernels and the empty
    [sigmoid_ssr_frep] - a measurement on a cluster with at least one worker
    leaves at every position [i < n] exactly the value the baseline leaves:
    [sinf(input[i])] for the sine strategies (the partitioned ones run on all
    their workers, taken in any order), and for [sigmoid_ssr] the baseline's
    [1 / (1 + exp(-input[i]))] wherever [exp(-input[i])] is finite and
    non-zero. *)
Theorem evaluating_strategies_match_baseline (sinf exp : float -> float)
    (S : strategy) (core_num n size : Z) (cores : list Z)
    (mem : buffer -> list float) :
  evaluates S = true -> 2 <= core_num <= 2 ^ 32 -> fits n mem ->
  (S = SinSsrOmp -> n / (core_num - 1) + 1 < 2 ^ 32) ->
  cores ≡ₚ workers S core_num ->
  exists out base,
    run_cores (fun hw => kernel sinf exp S hw n size) core_num cores mem
      = Some out /\
    run sinf exp (family_baseline S) core_num n size mem = Some base /\
    forall i x, 0 <= i < n -> zlookup (mem BArr) i = Some x ->
      (S = SigmoidSsr -> finite_nonzero (exp (SFopp x)) = true) ->
      zlookup (out BResult) i = zlookup (base BResult) i /\
      zlookup (base BResult) i = Some (reference sinf exp S x).
Proof.
  intros Hev Hcn Hfit Homp Hperm.
  destruct (run_any_order sinf exp S core_num n size cores mem
              Hev Hcn Hfit Homp Hperm) as (out & Ho & Hov).
  destruct (run_ok sinf exp (family_baseline S) core_num n size mem)
    as (base & Hb & Hbv); auto.
  { destruct S; reflexivity. }
  { destruct S; discriminate. }
  exists out, base. split_and!; auto.
  intros i x Hi Hx Hfin. rewrite Hov, Hbv by exact Hi. rewrite Hx.
  unfold reference. destruct S; try discriminate; simpl; auto.
  rewrite sigmoid_ssr_value_finite by auto. auto.
Qed.

(** The agreement for [sin_ssr_omp] on ten elements and three workers that
    run in the order 2, 0, 1. *)
Lemma evaluating_strategies_match_baseline_sample :
  exists out base,
    run_cores (fun hw => kernel (fun x => x) (fun x => x) SinSsrOmp hw 10 0)
              4 [2; 0; 1] (memory (ramp 0 10) (zeros 10) []) = Some out /\
    run (fun x => x) (fun x => x) (family_baseline SinSsrOmp) 4 10 0
        (memory (ramp 0 10) (zeros 10) []) = Some base /\
    forall i x, 0 <= i < 10 -> zlookup (ramp 0 10) i = Some x ->
      (SinSsrOmp = SigmoidSsr -> finite_nonzero (SFopp x) = true) ->
      zlookup (out BResult) i = zlookup (base BResult) i /\
      zlookup (base BResult) i
        = Some (reference (fun x => x) (fun x => x) SinSsrOmp x).
Proof.
  apply (evaluating_strategies_match_baseline (fun x => x) (fun x => x)
           SinSsrOmp 4 10 0 [2; 0; 1] (memory (ramp 0 10) (zeros 10) [])).
  - reflexivity.
  - lia.
  - unfold fits. simpl. lia.
  - intros _. change (10 / (4 - 1)) with 3. lia.
  - change (workers SinSsrOmp 4) with [0; 1; 2].
    apply perm_trans with [0; 2; 1]; [apply perm_swap|].
    apply perm_skip. apply perm_swap.
Defined.

(** [M_PI] is a valid [double] within half a unit in the last place of the
    decimal literal of the source. *)
Lemma M_PI_literal :
  valid_binary 53 1024 M_PI = true /\
  2 * Z.abs (7074237752028440 * 10 ^ 20 - 314159265358979323846 * 2 ^ 51)
    <= 10 ^ 20.
Proof. split; [reflexivity|]. vm_compute. discriminate. Qed.

(** In [sin_ssr], [sin_ssr_frep], [sin_ssr_parallel] and [sigmoid_ssr] the
    loop issues exactly as many stream-consuming and stream-producing
    instructions as the read and the write descriptor are configured for,
    and streaming is disabled again when the kernel returns. *)
Theorem stream_lengths_match_iterations (sinf exp : float -> float)
    (S : strategy) (hw : cluster) (n size : Z) (mem : buffer -> list float) :
  S ∈ [SinSsr; SinSsrFrep; SinSsrParallel; SigmoidSsr] ->
  precondition S hw n size mem ->
  exists st,
    kernel sinf exp S hw n size (boot mem) = Some (RetInt 0, st) /\
    consumed (m_trace st) = dm_bound (m_dm st SNRT_SSR_DM0) /\
    produced (m_trace st) = dm_bound (m_dm st SNRT_SSR_DM1) /\
    m_ssr st = false.
Proof.
  intros HS (Hfit & Hpart & _ & _). pose proof Hfit as (Hn & _).
  assert (Hlen : forall off len, 0 <= len ->
            Z.of_nat (length (seqZ off len)) = len)
    by (intros; rewrite length_seqZ; lia).
  destruct hw as [cn ci]. simpl in Hpart.
  assert (Hcn : cn = cn - 1 + 1) by lia.
  repeat (apply elem_of_cons in HS; destruct HS as [->|HS]);
    [| | | |inversion HS]; simpl kernel.
  - destruct (sin_ssr_ok sinf n mem Hfit) as (st & H1 & _ & H3 & H4 & H5 & H6).
    exists st. rewrite H3, H5, H6, consumed_stream, produced_stream, Hlen by lia.
    auto.
  - destruct (sin_ssr_frep_ok sinf n mem Hfit)
      as (st & H1 & _ & H3 & H4 & H5 & H6).
    exists st. rewrite H3, H5, H6, consumed_stream, produced_stream, Hlen by lia.
    auto.
  - destruct Hpart as [HC Hi]; [reflexivity|].
    destruct (sin_ssr_parallel_ok sinf (cn - 1) ci n mem Hfit HC Hi)
      as (st & H1 & _ & H3 & H4 & H5 & H6).
    rewrite <- Hcn in H1.
    pose proof (split_bounds n (cn - 1) ltac:(lia) ltac:(lia)) as (Hq & _).
    exists st.
    rewrite H3, H5, H6, consumed_app, produced_app, consumed_stream,
      produced_stream, consumed_scalar, produced_scalar.
    unfold local_range. rewrite Hlen by lia. split_and!; auto; lia.
  - destruct (sigmoid_ssr_ok exp n mem Hfit)
      as (st & H1 & _ & H3 & H4 & H5 & H6).
    exists st. rewrite H3, H5, H6, consumed_stream, produced_stream, Hlen by lia.
    auto.
Qed.

(** The stream accounting for worker 1 of [sin_ssr_parallel]. *)
Lemma stream_lengths_match_iterations_sample :
  exists st,
    kernel (fun x => x) (fun x => x) SinSsrParallel (Cluster 4 1) 10 0
           (boot (memory (ramp 0 10) (zeros 10) [])) = Some (RetInt 0, st) /\
    consumed (m_trace st) = dm_bound (m_dm st SNRT_SSR_DM0) /\
    produced (m_trace st) = dm_bound (m_dm st SNRT_SSR_DM1) /\
    m_ssr st = false.
Proof.
  apply (stream_lengths_match_iterations (fun x => x) (fun x => x)
           SinSsrParallel (Cluster 4 1) 10 0).
  - apply elem_of_cons. right. apply elem_of_cons. right.
    apply elem_of_cons. left. reflexivity.
  - unfold precondition.
    split; [unfold fits; simpl; lia|].
    split; [intros _; simpl; lia|]. split; discriminate.
Defined.

(** Every kernel other than [sin_baseline_lookup_table] returns 0 on
    arguments that meet its precondition. *)
Theorem kernels_return_zero (sinf exp : float -> float) (S : strategy)
    (hw : cluster) (n size : Z) (mem : buffer -> list float) :
  S <> SinBaselineLookupTable ->
  precondition S hw n size mem ->
  exists st, kernel sinf exp S hw n size (boot mem) = Some (RetInt 0, st).
Proof.
  intros HS Hpre.
  destruct (kernel_ok sinf exp S hw n size mem Hpre) as (st & H1 & _).
  exists st. rewrite H1. destruct S; try reflexivity. congruence.
Qed.

(** The status of [sigmoid_ssr] on three inputs. *)
Lemma kernels_return_zero_sample :
  exists st,
    kernel (fun x => x) (fun x => x) SigmoidSsr (Cluster 9 0) 3 0
           (boot (memory (ramp64 0 3) (zeros 3) [])) = Some (RetInt 0, st).
Proof.
  apply (kernels_return_zero (fun x => x) (fun x => x) SigmoidSsr
           (Cluster 9 0) 3 0).
  - discriminate.
  - unfold precondition.
    split; [unfold fits; simpl; lia|].
    split; [discriminate|]. split; discriminate.
Defined.

(** [main] of the benchmark returns 1 without any effect on every core but
    core 0, and returns 0 on core 0. *)
Theorem benchmark_main_status (size : Z) (mcycle : nat -> Z) :
  (forall core_idx st, core_idx <> 0 -> main size mcycle core_idx st = (1, st)) /\
  fst (main size mcycle 0 start) = 0.
Proof.
  split.
  - intros core_idx st Hc. unfold main. rewrite decide_True by exact Hc.
    reflexivity.
  - unfold main.
    destruct (decide (0 <> 0)) as [H|_]; [exfalso; apply H; reflexivity|].
    unfold start.
    do 3 bstep.
    match goal with |- context [bbind (bfor _ _) _ ?s] =>
      destruct (each_init (seqZ 0 size) s) as [m1 Hm1] end.
    bstep_with Hm1. bstep.
    match goal with |- context [bbind (bfor _ _) _ ?s] =>
      destruct (each_copy memory_x memory_target (seqZ 0 size) s)
        as [m2 Hm2] end.
    bstep_with Hm2. do 4 bstep.
    match goal with |- context [bbind (bfor _ _) _ ?s] =>
      destruct (each_copy memory_x memory_target_from_l1 (seqZ 0 size) s)
        as [m3 Hm3] end.
    bstep_with Hm3. do 4 bstep. reflexivity.
Qed.

(** * Edge behaviour, invariants and composition *)

(** ** Running a kernel twice *)

(** A second call of any strategy on the buffers the first call left behind
    leaves the output as the first call left it: no kernel reads the output,
    and none changes the input or the table. *)
Theorem kernel_idempotent (sinf exp : float -> float) (S : strategy)
    (hw : cluster) (n size : Z) (mem : buffer -> list float) :
  precondition S hw n size mem ->
  exists st1 st2,
    kernel sinf exp S hw n size (boot mem) = Some (status_of S, st1) /\
    kernel sinf exp S hw n size (boot (m_mem st1)) = Some (status_of S, st2) /\
    m_mem st2 BResult = m_mem st1 BResult /\
    m_mem st2 BArr = mem BArr /\ m_mem st2 BTable = mem BTable.
Proof.
  intros Hpre.
  destruct (kernel_ok sinf exp S hw n size mem Hpre)
    as (st1 & R1 & E1 & _).
  pose proof (precondition_preserved S hw n size _ _ _ _ E1 Hpre) as Hpre1.
  destruct (kernel_ok sinf exp S hw n size (m_mem st1) Hpre1)
    as (st2 & R2 & E2 & _).
  destruct E1 as (A1 & T1 & L1 & V1). destruct E2 as (A2 & T2 & L2 & V2).
  exists st1, st2. split_and!; try congruence.
  apply zlookup_ext. intros j. rewrite V2, A1, T1, V1.
  destruct (decide (j ∈ touched S hw n)); reflexivity.
Qed.

(** The idempotence of worker 2 of [sin_ssr_omp] on ten elements. *)
Lemma kernel_idempotent_sample :
  exists st1 st2,
    kernel (fun x => x) (fun x => x) SinSsrOmp (Cluster 4 2) 10 0
           (boot (memory (ramp 0 10) (zeros 10) []))
      = Some (status_of SinSsrOmp, st1) /\
    kernel (fun x => x) (fun x => x) SinSsrOmp (Cluster 4 2) 10 0
           (boot (m_mem st1)) = Some (status_of SinSsrOmp, st2) /\
    m_mem st2 BResult = m_mem st1 BResult /\
    m_mem st2 BArr = ramp 0 10 /\ m_mem st2 BTable = [].
Proof.
  apply (kernel_idempotent (fun x => x) (fun x => x) SinSsrOmp (Cluster 4 2)
           10 0 (memory (ramp 0 10) (zeros 10) [])).
  unfold precondition.
  split; [unfold fits; simpl; lia|].
  split; [intros _; simpl; lia|].
  split; [intros _; reflexivity|discriminate].
Defined.

(** ** Order of the accesses *)

Lemma seqZ_strictly_sorted (len : nat) :
  forall off, StronglySorted Z.lt (seqZ off (Z.of_nat len)).
Proof.
  induction len as [|len IH]; intros off; [constructor|].
  rewrite seqZ_cons by lia.
  replace (Z.pred (Z.of_nat (S len))) with (Z.of_nat len) by lia.
  constructor; [apply IH|].
  apply Forall_forall. intros j Hj. apply elem_of_seqZ in Hj. lia.
Qed.

Lemma assigned_strictly_sorted (C i n : Z) :
  0 <= n -> 1 <= C -> 0 <= i < C ->
  StronglySorted Z.lt (assigned C i n).
Proof.
  intros Hn HC Hi. pose proof (split_bounds n C Hn HC) as (Hq & _ & _).
  unfold assigned, local_range, extra_element.
  apply StronglySorted_app. split_and!.
  - intros j k Hj Hk. apply elem_of_seqZ in Hj.
    destruct (decide (i < n - n / C * C)); [|inversion Hk].
    apply list_elem_of_singleton in Hk as ->. nia.
  - rewrite <- (Z2Nat.id (n / C)) at 2 by lia. apply seqZ_strictly_sorted.
  - destruct (decide (i < n - n / C * C)); repeat constructor.
Qed.

(** A call of any strategy whose loop runs on the calling core alone -
    every strategy but [sin_omp], whose iterations the OpenMP runtime spreads
    over the threads of a team in no fixed order - writes its output
    positions in strictly increasing order, so each of them once, and reads
    the input at exactly the positions it writes, in the same order. *)
Theorem kernel_writes_in_increasing_order (sinf exp : float -> float)
    (S : strategy) (hw : cluster) (n size : Z) (mem : buffer -> list float) :
  S <> SinOmp ->
  precondition S hw n size mem ->
  exists st,
    kernel sinf exp S hw n size (boot mem) = Some (status_of S, st) /\
    StronglySorted Z.lt (written (m_trace st)) /\
    NoDup (written (m_trace st)) /\
    read_positions (m_trace st) = written (m_trace st).
Proof.
  intros _ Hpre.
  destruct (kernel_ok sinf exp S hw n size mem Hpre)
    as (st & R & _ & W & P & _).
  destruct Hpre as ((Hn & _) & Hpart & _).
  assert (Hs : StronglySorted Z.lt (touched S hw n)).
  { assert (Hseq : StronglySorted Z.lt (seqZ 0 n))
      by (rewrite <- (Z2Nat.id n) by lia; apply seqZ_strictly_sorted).
    unfold touched, assigned_to.
    destruct S; simpl; try exact Hseq; try constructor;
      (destruct Hpart as [HC Hi]; [reflexivity|]);
      apply assigned_strictly_sorted; lia. }
  exists st. rewrite W, P. split_and!; auto.
  clear -Hs. induction Hs as [|x l _ IH Hx]; constructor; auto.
  intros Hin. rewrite Forall_forall in Hx. specialize (Hx x Hin). lia.
Qed.

(** The order of the accesses of worker 0 of [sin_parallel] on ten
    elements. *)
Lemma kernel_writes_in_increasing_order_sample :
  exists st,
    kernel (fun x => x) (fun x => x) SinParallel (Cluster 4 0) 10 0
           (boot (memory (ramp 0 10) (zeros 10) []))
      = Some (status_of SinParallel, st) /\
    StronglySorted Z.lt (written (m_trace st)) /\
    NoDup (written (m_trace st)) /\
    read_positions (m_trace st) = written (m_trace st).
Proof.
  apply (kernel_writes_in_increasing_order (fun x => x) (fun x => x)
           SinParallel (Cluster 4 0) 10 0 (memory (ramp 0 10) (zeros 10) [])).
  { discriminate. }
  unfold precondition.
  split; [unfold fits; simpl; lia|].
  split; [intros _; simpl; lia|]. split; discriminate.
Defined.

(** ** Empty arrays, idle workers, missing workers *)

Lemma elementwise_nil_result g (m m' : buffer -> list float) :
  elementwise g [] m m' -> m' BResult = m BResult.
Proof.
  intros (_ & _ & _ & V). apply zlookup_ext. intros j. rewrite V.
  rewrite decide_False; [reflexivity|]. apply not_elem_of_nil.
Qed.

(** With [n = 0] every strategy returns without reading or writing a single
    element and leaves the three buffers as they were, whatever their length
    - empty buffers included.  A partitioned strategy needs a worker to run
    on. *)
Theorem kernel_on_empty_array (sinf exp : float -> float) (S : strategy)
    (hw : cluster) (size : Z) (mem : buffer -> list float) :
  (partitioned S = true ->
     1 <= snrt_cluster_core_num hw - 1 < 2 ^ 32 /\
     0 <= snrt_cluster_core_idx hw < snrt_cluster_core_num hw - 1) ->
  exists st,
    kernel sinf exp S hw 0 size (boot mem) = Some (status_of S, st) /\
    written (m_trace st) = [] /\ read_positions (m_trace st) = [] /\
    m_mem st BResult = mem BResult /\
    m_mem st BArr = mem BArr /\ m_mem st BTable = mem BTable.
Proof.
  intros Hpart.
  assert (Hpre : precondition S hw 0 size mem).
  { unfold precondition. split; [unfold fits; lia|].
    split; [exact Hpart|]. split.
    - intros ->. destruct Hpart as [? ?]; [reflexivity|].
      rewrite Z.div_0_l by lia. lia.
    - intros _ j Hj. lia. }
  destruct (kernel_ok sinf exp S hw 0 size mem Hpre)
    as (st & R & E & W & P & _).
  assert (Ht : touched S hw 0 = []).
  { unfold touched, assigned_to, assigned, local_range, extra_element.
    destruct S; simpl; try reflexivity;
      (destruct Hpart as [HC Hi]; [reflexivity|]);
      rewrite Z.div_0_l by lia; simpl; rewrite decide_False by lia;
      reflexivity. }
  rewrite Ht in *. exists st. split_and!; auto.
  - eapply elementwise_nil_result; exact E.
  - apply E.
  - apply E.
Qed.

(** [sin_ssr_parallel] on an empty array with empty buffers. *)
Lemma kernel_on_empty_array_sample :
  exists st,
    kernel (fun x => x) (fun x => x) SinSsrParallel (Cluster 9 7) 0 0
           (boot (memory [] [] [])) = Some (status_of SinSsrParallel, st) /\
    written (m_trace st) = [] /\ read_positions (m_trace st) = [] /\
    m_mem st BResult = [] /\ m_mem st BArr = [] /\ m_mem st BTable = [].
Proof.
  apply (kernel_on_empty_array (fun x => x) (fun x => x) SinSsrParallel
           (Cluster 9 7) 0 (memory [] [] [])).
  intros _. simpl. lia.
Defined.

(** For any number [C >= 1] of workers - more workers than elements
    included - the positions the workers [0 .. C-1] of a partitioned strategy
    write are [0 .. N-1], each exactly once, so no two workers write the same
    position; and when [C > N] the workers [N .. C-1] are given nothing and
    access nothing. *)
Theorem partition_tiles_for_any_worker_count (sinf exp : float -> float)
    (S : strategy) (N C size : Z) (mem : buffer -> list float) :
  partitioned S = true -> fits N mem -> 1 <= C < 2 ^ 32 ->
  N / C + 1 < 2 ^ 32 ->
  concat ((fun i => writes_of (kernel sinf exp S (Cluster (C + 1) i) N size)
                              mem) <$> seqZ 0 C)
    ≡ₚ seqZ 0 N /\
  (forall i, N <= i < C ->
     exists st,
       kernel sinf exp S (Cluster (C + 1) i) N size (boot mem)
         = Some (RetInt 0, st) /\
       written (m_trace st) = [] /\ read_positions (m_trace st) = [] /\
       m_mem st BResult = mem BResult).
Proof.
  intros HS Hfit HC Homp. pose proof Hfit as (Hn & _).
  assert (Hpre : forall i, 0 <= i < C ->
            precondition S (Cluster (C + 1) i) N size mem).
  { intros i Hi. unfold precondition. simpl.
    replace (C + 1 - 1) with C by lia. split_and!; auto; try lia.
    intros ->. discriminate. }
  assert (Hw : forall i, 0 <= i < C ->
            exists st,
              kernel sinf exp S (Cluster (C + 1) i) N size (boot mem)
                = Some (RetInt 0, st) /\
              written (m_trace st) = assigned C i N /\
              read_positions (m_trace st) = assigned C i N /\
              elementwise (value_of sinf exp S (mem BTable) size)
                          (assigned C i N) mem (m_mem st)).
  { intros i Hi.
    destruct (kernel_ok sinf exp S _ N size mem (Hpre i Hi))
      as (st & R & E & W & P & _).
    exists st. unfold touched, assigned_to in *.
    destruct S; try discriminate; simpl in *;
      replace (C + 1 - 1) with C in * by lia; auto. }
  split.
  - assert (Heq : (fun i => writes_of (kernel sinf exp S (Cluster (C + 1) i)
                                         N size) mem) <$> seqZ 0 C
                  = (fun i => assigned C i N) <$> seqZ 0 C).
    { apply list_fmap_ext. intros k i Hk. apply lookup_seqZ in Hk.
      destruct (Hw i) as (st & R & W & _); [lia|].
      unfold writes_of. rewrite R. exact W. }
    rewrite Heq. apply assigned_cover; lia.
  - intros i Hi. destruct (Hw i) as (st & R & W & P & E); [lia|].
    assert (Ha : assigned C i N = []).
    { unfold assigned, local_range, extra_element.
      rewrite Z.div_small by lia. simpl. rewrite decide_False by lia.
      reflexivity. }
    rewrite Ha in *. exists st. split_and!; auto.
    eapply elementwise_nil_result; exact E.
Qed.

(** Two elements on three workers: workers 0 and 1 take one each, worker 2
    is idle. *)
Lemma partition_tiles_for_any_worker_count_sample :
  concat ((fun i => writes_of (kernel (fun x => x) (fun x => x) SinSsrOmp
                                 (Cluster (3 + 1) i) 2 0)
                              (memory (ramp 0 2) (zeros 2) [])) <$> seqZ 0 3)
    ≡ₚ seqZ 0 2 /\
  (forall i, 2 <= i < 3 ->
     exists st,
       kernel (fun x => x) (fun x => x) SinSsrOmp (Cluster (3 + 1) i) 2 0
              (boot (memory (ramp 0 2) (zeros 2) [])) = Some (RetInt 0, st) /\
       written (m_trace st) = [] /\ read_positions (m_trace st) = [] /\
       m_mem st BResult = zeros 2).
Proof.
  apply (partition_tiles_for_any_worker_count (fun x => x) (fun x => x)
           SinSsrOmp 2 3 0 (memory (ramp 0 2) (zeros 2) [])).
  - reflexivity.
  - unfold fits. simpl. lia.
  - lia.
  - reflexivity.
Defined.

(** On a cluster of a single core there is no worker:
    [snrt_cluster_core_num() - 1] is 0 and every partitioned strategy divides
    by it, whatever its arguments. *)
Theorem partitioned_kernel_without_workers (sinf exp : float -> float)
    (S : strategy) (core_idx n size : Z) (st : machine) :
  partitioned S = true ->
  kernel sinf exp S (Cluster 1 core_idx) n size st = None.
Proof. intros HS. destruct S; try discriminate; reflexivity. Qed.

(** [sin_parallel] on the only core of a one-core cluster. *)
Lemma partitioned_kernel_without_workers_sample :
  kernel (fun x => x) (fun x => x) SinParallel (Cluster 1 0) 10 0
         (boot (memory (ramp 0 10) (zeros 10) [])) = None.
Proof.
  apply (partitioned_kernel_without_workers (fun x => x) (fun x => x)
           SinParallel 0 10 0).
  reflexivity.
Defined.

(** ** No kernel checks a length *)

Lemma addressable_dec (sinf exp : float -> float) (S : strategy) (size : Z)
    (mem : buffer -> list float) (j : Z) :
  addressable sinf exp S size mem j \/ ~ addressable sinf exp S size mem j.
Proof.
  unfold addressable.
  destruct (decide (j < Z.of_nat (length (mem BResult)))); [|right; tauto].
  destruct (zlookup (mem BArr) j) as [x|] eqn:Hx.
  - destruct (value_of sinf exp S (mem BTable) size x) as [v|] eqn:Hv.
    + left. split; [assumption|]. exists x. rewrite Hv. eauto.
    + right. intros (_ & y & Hy & Hs). simplify_eq. rewrite Hv in Hs.
      by apply is_Some_None in Hs.
  - right. intros (_ & y & Hy & _). discriminate.
Qed.

Lemma addressable_ext (sinf exp : float -> float) (S : strategy) (size : Z)
    (m m' : buffer -> list float) (j : Z) :
  m' BArr = m BArr -> m' BTable = m BTable ->
  length (m' BResult) = length (m BResult) ->
  addressable sinf exp S size m' j <-> addressable sinf exp S size m j.
Proof. intros HA HT HL. unfold addressable. rewrite HA, HT, HL. tauto. Qed.

Lemma addressable_in_bounds (sinf exp : float -> float) (S : strategy)
    (size : Z) (mem : buffer -> list float) (j : Z) :
  (forall x, is_Some (value_of sinf exp S (mem BTable) size x)) ->
  addressable sinf exp S size mem j <-> in_bounds mem j.
Proof.
  intros Hv. unfold addressable, in_bounds. split.
  - intros (Hr & x & Hx & _). apply zlookup_Some in Hx. lia.
  - intros (Ha & Hr). destruct (zlookup_lt _ _ Ha) as [x Hx]. eauto.
Qed.

Lemma scalar_iteration_None (f : float -> float) (j : Z) (st : machine) :
  ~ in_bounds (m_mem st) j ->
  (do x <- load ARR j; store RESULT j (f x)) st = None.
Proof.
  unfold in_bounds. intros Hbad. unfold bind, load. simpl.
  rewrite Z.add_0_l.
  destruct (zlookup (m_mem st BArr) j) as [x|] eqn:Hx; [|reflexivity].
  apply zlookup_Some in Hx. unfold store. simpl. rewrite Z.add_0_l.
  rewrite zlookup_None by lia. reflexivity.
Qed.

Lemma forM_scalar_None (f : float -> float) (ix : Z -> Z) (l : list Z) :
  forall st : machine,
  (exists i, i ∈ l /\ ~ in_bounds (m_mem st) (ix i)) ->
  forM l (fun i => do x <- load ARR (ix i); store RESULT (ix i) (f x)) st
    = None.
Proof.
  induction l as [|i l IH]; intros st (k & Hk & Hbad); [inversion Hk|].
  cbn [forM].
  destruct (decide (in_bounds (m_mem st) (ix i))) as [Hi|Hi].
  - destruct (scalar_iteration f (ix i) st) as (st1 & Hrun & Hm & _);
      [apply Hi..|].
    erewrite bind_Some by exact Hrun. apply IH.
    destruct Hm as (HA & _ & HL & _). unfold in_bounds. rewrite HA, HL.
    apply elem_of_cons in Hk as [->|Hk]; [tauto|]. exists k. auto.
  - apply bind_None. apply scalar_iteration_None. exact Hi.
Qed.

(** A scalar loop either stops at a position outside a buffer or runs to
    its end over positions that are all inside. *)
Lemma forM_scalar_cases (f : float -> float) (ix : Z -> Z) (l : list Z)
    (st : machine) :
  (forM l (fun i => do x <- load ARR (ix i); store RESULT (ix i) (f x)) st
     = None /\
   exists i, i ∈ l /\ ~ in_bounds (m_mem st) (ix i)) \/
  (exists st',
     forM l (fun i => do x <- load ARR (ix i); store RESULT (ix i) (f x)) st
       = Some (tt, st') /\
     (forall i, i ∈ l -> in_bounds (m_mem st) (ix i)) /\
     m_mem st' BArr = m_mem st BArr /\
     length (m_mem st' BResult) = length (m_mem st BResult) /\
     m_dm st' = m_dm st /\ m_ssr st' = m_ssr st).
Proof.
  destruct (decide (Forall (fun i => in_bounds (m_mem st) (ix i)) l))
    as [Hall|Hex].
  - right. rewrite Forall_forall in Hall.
    destruct (forM_scalar f ix l st) as (st' & H1 & H2 & _ & H4 & H5).
    { intros i Hi. apply (Hall i Hi). }
    exists st'. split_and!; try assumption; apply H2.
  - left. apply not_Forall_Exists in Hex; [|apply _].
    apply Exists_exists in Hex as (i & Hi & Hb).
    split; [apply forM_scalar_None|]; eauto.
Qed.

Lemma stream_pop_None (st : machine) (d : dm_id) (b s esz off c : Z)
    (buf : buffer) :
  m_dm st d = DataMover b s 1 (Some (StreamRead, Ptr buf off)) c ->
  s / esz = 1 ->
  zlookup (m_mem st buf) (off + c) = None ->
  stream_pop d esz st = None.
Proof.
  intros Hd Hs Hx. unfold stream_pop. rewrite Hd. simpl.
  destruct (decide (c < b * 1)); [|reflexivity].
  unfold dm_index. simpl. rewrite Hs, Z.div_1_r, Z.mul_1_r, Hx. reflexivity.
Qed.

Lemma stream_push_None (st : machine) (d : dm_id) (b s esz off c : Z)
    (buf : buffer) (v : float) :
  m_dm st d = DataMover b s 1 (Some (StreamWrite, Ptr buf off)) c ->
  s / esz = 1 ->
  zlookup (m_mem st buf) (off + c) = None ->
  stream_push d esz v st = None.
Proof.
  intros Hd Hs Hx. unfold stream_push. rewrite Hd. simpl.
  destruct (decide (c < b * 1)); [|reflexivity].
  unfold dm_index. simpl. rewrite Hs, Z.div_1_r, Z.mul_1_r, Hx. reflexivity.
Qed.

Lemma sin_ssr_iteration_None (sinf : float -> float) (st : machine)
    (b0 b1 off c : Z) :
  streaming st b0 b1 sizeof_float off c -> 0 <= c < b0 ->
  ~ in_bounds (m_mem st) (off + c) ->
  sin_ssr_iteration sinf st = None.
Proof.
  unfold in_bounds. intros (Hon & H0 & H1) Hc Hbad.
  unfold sin_ssr_iteration, fmv_s, bind.
  unfold read_freg at 1. simpl. rewrite Hon.
  destruct (zlookup (m_mem st BArr) (off + c)) as [x|] eqn:Hx.
  - pose proof (zlookup_Some _ _ _ Hx) as Hin.
    rewrite (stream_pop_ok st _ b0 sizeof_float _ off c BArr x)
      by (exact H0 || lia || reflexivity || exact Hx).
    unfold write_freg at 1, __builtin_ssr_disable, __builtin_ssr_enable,
      modify, call.
    simpl.
    unfold read_freg, write_freg. simpl.
    rewrite (stream_push_None _ _ b1 sizeof_float _ off c BResult);
      [reflexivity|exact H1|reflexivity|].
    simpl. apply zlookup_None. lia.
  - rewrite (stream_pop_None st _ b0 sizeof_float _ off c BArr)
      by (exact H0 || reflexivity || exact Hx).
    reflexivity.
Qed.

Lemma sin_ssr_parallel_iteration_None (sinf : float -> float) (st : machine)
    (b0 b1 off c : Z) :
  streaming st b0 b1 sizeof_float off c -> 0 <= c < b0 ->
  ~ in_bounds (m_mem st) (off + c) ->
  sin_ssr_parallel_iteration sinf st = None.
Proof. apply sin_ssr_iteration_None. Qed.

Lemma sigmoid_ssr_iteration_None (exp : float -> float) (st : machine)
    (b0 b1 off c : Z) :
  streaming st b0 b1 sizeof_double off c -> 0 <= c < b0 ->
  ~ in_bounds (m_mem st) (off + c) ->
  sigmoid_ssr_iteration exp st = None.
Proof.
  unfold in_bounds. intros (Hon & H0 & H1) Hc Hbad.
  unfold sigmoid_ssr_iteration, fneg_d, fdiv_d, fadd_d, bind.
  unfold read_freg at 1. simpl. rewrite Hon.
  destruct (zlookup (m_mem st BArr) (off + c)) as [x|] eqn:Hx.
  - pose proof (zlookup_Some _ _ _ Hx) as Hin.
    rewrite (stream_pop_ok st _ b0 sizeof_double _ off c BArr x)
      by (exact H0 || lia || reflexivity || exact Hx).
    unfold write_freg at 1, snrt_ssr_disable, snrt_ssr_enable, modify, call.
    simpl.
    unfold read_freg, write_freg. simpl.
    rewrite (stream_push_None _ _ b1 sizeof_double _ off c BResult);
      [reflexivity|exact H1|reflexivity|].
    simpl. apply zlookup_None. lia.
  - rewrite (stream_pop_None st _ b0 sizeof_double _ off c BArr)
      by (exact H0 || reflexivity || exact Hx).
    reflexivity.
Qed.

Lemma forM_stream_None (body : M unit) (f : float -> float)
    (esz b0 b1 off : Z) :
  (forall st c,
      streaming st b0 b1 esz off c -> 0 <= c < b0 -> c < b1 ->
      0 <= off + c < Z.of_nat (length (m_mem st BArr)) ->
      off + c < Z.of_nat (length (m_mem st BResult)) ->
      exists st',
        body st = Some (tt, st') /\
        streaming st' b0 b1 esz off (c + 1) /\
        elementwise (fun x => Some (f x)) [off + c] (m_mem st) (m_mem st') /\
        m_trace st' = m_trace st ++ stream_events [off + c]) ->
  (forall st c,
      streaming st b0 b1 esz off c -> 0 <= c < b0 ->
      ~ in_bounds (m_mem st) (off + c) -> body st = None) ->
  forall (l : list Z) (st : machine) (c : Z),
    streaming st b0 b1 esz off c -> 0 <= c ->
    c + Z.of_nat (length l) <= b0 -> c + Z.of_nat (length l) <= b1 ->
    (exists k, 0 <= k < Z.of_nat (length l) /\
               ~ in_bounds (m_mem st) (off + c + k)) ->
    forM l (fun _ => body) st = None.
Proof.
  intros Hstep Hfail.
  induction l as [|i l IH]; intros st c Hs Hc Hb0 Hb1 (k & Hk & Hbad).
  - simpl in Hk. lia.
  - simpl length in *. cbn [forM].
    destruct (decide (in_bounds (m_mem st) (off + c))) as [Hin|Hout].
    + destruct (Hstep st c Hs) as (st1 & Hrun & Hs1 & Hm1 & _);
        try (unfold in_bounds in Hin; lia).
      assert (HA : m_mem st1 BArr = m_mem st BArr) by apply Hm1.
      assert (HL : length (m_mem st1 BResult) = length (m_mem st BResult))
        by apply Hm1.
      erewrite bind_Some by exact Hrun.
      apply (IH st1 (c + 1) Hs1); try lia.
      assert (k <> 0).
      { intros ->. apply Hbad. by rewrite Z.add_0_r. }
      exists (k - 1). split; [lia|].
      replace (off + (c + 1) + (k - 1)) with (off + c + k) by lia.
      unfold in_bounds in *. rewrite HA, HL. exact Hbad.
    + apply bind_None. apply (Hfail st c Hs); [lia|exact Hout].
Qed.

(** A streamed loop either stops at a position outside a buffer or runs
    to its end, inside the stream region, over positions that are all
    inside. *)
Lemma for_loop_stream_cases (body : M unit) (f : float -> float)
    (esz b0 b1 off len : Z) (st : machine) :
  (forall st c,
      streaming st b0 b1 esz off c -> 0 <= c < b0 -> c < b1 ->
      0 <= off + c < Z.of_nat (length (m_mem st BArr)) ->
      off + c < Z.of_nat (length (m_mem st BResult)) ->
      exists st',
        body st = Some (tt, st') /\
        streaming st' b0 b1 esz off (c + 1) /\
        elementwise (fun x => Some (f x)) [off + c] (m_mem st) (m_mem st') /\
        m_trace st' = m_trace st ++ stream_events [off + c]) ->
  (forall st c,
      streaming st b0 b1 esz off c -> 0 <= c < b0 ->
      ~ in_bounds (m_mem st) (off + c) -> body st = None) ->
  streaming st b0 b1 esz off 0 ->
  0 <= len -> len <= b0 -> len <= b1 ->
  (for_loop len (fun _ => body) st = None /\
   exists j, j ∈ seqZ off len /\ ~ in_bounds (m_mem st) j) \/
  (exists st',
     for_loop len (fun _ => body) st = Some (tt, st') /\
     (forall j, j ∈ seqZ off len -> in_bounds (m_mem st) j) /\
     m_mem st' BArr = m_mem st BArr /\
     length (m_mem st' BResult) = length (m_mem st BResult) /\
     m_ssr st' = true).
Proof.
  intros Hstep Hfail Hs Hlen Hb0 Hb1.
  assert (Hl : Z.of_nat (length (seqZ 0 len)) = len)
    by (rewrite length_seqZ; lia).
  destruct (decide (Forall (in_bounds (m_mem st)) (seqZ off len)))
    as [Hall|Hex].
  - right. rewrite Forall_forall in Hall.
    destruct (decide (len = 0)) as [->|Hpos].
    + exists st. split_and!; try reflexivity; [exact Hall|apply Hs].
    + assert (Hfirst : in_bounds (m_mem st) off)
        by (apply Hall, elem_of_seqZ; lia).
      assert (Hlast : in_bounds (m_mem st) (off + len - 1))
        by (apply Hall, elem_of_seqZ; lia).
      unfold in_bounds in Hfirst, Hlast.
      destruct (for_loop_stream body f esz b0 b1 off len st Hstep Hs)
        as (st' & H1 & (Hon & _) & H3 & _); try lia.
      exists st'. split_and!; try assumption; apply H3.
  - left. apply not_Forall_Exists in Hex; [|apply _].
    apply Exists_exists in Hex as (j & Hj & Hb).
    split; [|eauto]. apply elem_of_seqZ in Hj.
    apply (forM_stream_None body f esz b0 b1 off Hstep Hfail (seqZ 0 len) st 0
             Hs); try (rewrite ?Hl; lia).
    exists (j - off). rewrite Hl. split; [lia|].
    replace (off + 0 + (j - off)) with j by lia. exact Hb.
Qed.

(** The optional extra element of the partitioned kernels. *)
Lemma extra_element_None (sinf : float -> float) (C i n j p : Z)
    (st : machine) :
  (i < n - n / C * C -> j = n / C * C + i) ->
  p ∈ extra_element C i n -> ~ in_bounds (m_mem st) p ->
  (if decide ((if decide (i < n - n / C * C) then 1 else 0) = 0)
   then ret tt
   else do x <- load ARR j; store RESULT j (sinf x)) st = None.
Proof.
  intros Hj Hp Hbad. unfold extra_element in Hp.
  destruct (decide (i < n - n / C * C)) as [Hx|Hx]; [|inversion Hp].
  apply list_elem_of_singleton in Hp. subst p.
  rewrite decide_False by lia. rewrite (Hj Hx).
  apply scalar_iteration_None. exact Hbad.
Qed.

Lemma extra_element_Some (sinf : float -> float) (C i n j : Z)
    (st : machine) :
  (i < n - n / C * C -> j = n / C * C + i) ->
  (forall p, p ∈ extra_element C i n -> in_bounds (m_mem st) p) ->
  exists st',
    (if decide ((if decide (i < n - n / C * C) then 1 else 0) = 0)
     then ret tt
     else do x <- load ARR j; store RESULT j (sinf x)) st = Some (tt, st').
Proof.
  intros Hj Hall. unfold extra_element in Hall.
  destruct (decide (i < n - n / C * C)) as [Hx|Hx].
  - rewrite decide_False by lia. rewrite (Hj Hx).
    destruct (scalar_iteration sinf (n / C * C + i) st) as (st' & H & _);
      [apply Hall; by left..|].
    eauto.
  - rewrite decide_True by reflexivity. by exists st.
Qed.

(** *** What stops each kernel *)

Lemma sin_baseline_None (sinf : float -> float) (n p : Z) mem :
  p ∈ seqZ 0 n -> ~ in_bounds mem p ->
  sin_baseline sinf ARR n RESULT (boot mem) = None.
Proof.
  intros Hp Hbad. unfold sin_baseline, for_loop. apply bind_None.
  apply (forM_scalar_None sinf (fun i => i)). eauto.
Qed.

Lemma sin_omp_None (sinf : float -> float) (n p : Z) mem :
  p ∈ seqZ 0 n -> ~ in_bounds mem p ->
  sin_omp sinf ARR n RESULT (boot mem) = None.
Proof.
  intros Hp Hbad. unfold sin_omp, for_loop. apply bind_None.
  apply (forM_scalar_None sinf (fun i => i)). eauto.
Qed.

Lemma sigmoid_baseline_None (exp : float -> float) (n p : Z) mem :
  p ∈ seqZ 0 n -> ~ in_bounds mem p ->
  sigmoid_baseline exp ARR n RESULT (boot mem) = None.
Proof.
  intros Hp Hbad. unfold sigmoid_baseline, for_loop. apply bind_None.
  apply (forM_scalar_None
           (fun x => f64_div f64_one (f64_add f64_one (exp (SFopp x))))
           (fun i => i)).
  eauto.
Qed.

Lemma sin_ssr_None (sinf : float -> float) (n p : Z) mem :
  p ∈ seqZ 0 n -> ~ in_bounds mem p ->
  sin_ssr sinf ARR n RESULT (boot mem) = None.
Proof.
  intros Hp Hbad. apply elem_of_seqZ in Hp.
  unfold sin_ssr. do 7 run_step. apply bind_None.
  match goal with |- for_loop n _ ?s = None => set (st0 := s) end.
  destruct (for_loop_stream_cases (sin_ssr_iteration sinf) sinf sizeof_float
              n n 0 n st0) as [[H1 _]|(st1 & _ & Hall & _)]; try lia.
  { intros st c. apply sin_ssr_iteration_ok. }
  { intros st c. apply sin_ssr_iteration_None. }
  { split_and!; reflexivity. }
  { exact H1. }
  exfalso. apply Hbad. apply (Hall p). apply elem_of_seqZ. lia.
Qed.

Lemma sin_ssr_frep_None (sinf : float -> float) (n p : Z) mem :
  p ∈ seqZ 0 n -> ~ in_bounds mem p ->
  sin_ssr_frep sinf ARR n RESULT (boot mem) = None.
Proof.
  intros Hp Hbad. unfold sin_ssr_frep. apply bind_None.
  by apply (sin_ssr_None sinf n p).
Qed.

Lemma sigmoid_ssr_None (exp : float -> float) (n p : Z) mem :
  p ∈ seqZ 0 n -> ~ in_bounds mem p ->
  sigmoid_ssr exp ARR n RESULT (boot mem) = None.
Proof.
  intros Hp Hbad. apply elem_of_seqZ in Hp.
  unfold sigmoid_ssr. do 7 run_step. apply bind_None.
  match goal with |- for_loop n _ ?s = None => set (st0 := s) end.
  destruct (for_loop_stream_cases (sigmoid_ssr_iteration exp)
              (sigmoid_ssr_value exp) sizeof_double
              n n 0 n st0) as [[H1 _]|(st1 & _ & Hall & _)]; try lia.
  { intros st c. apply sigmoid_ssr_iteration_ok. }
  { intros st c. apply sigmoid_ssr_iteration_None. }
  { split_and!; reflexivity. }
  { exact H1. }
  exfalso. apply Hbad. apply (Hall p). apply elem_of_seqZ. lia.
Qed.

Lemma local_range_index (n C i p : Z) :
  0 <= n < 2 ^ 32 -> 1 <= C -> 0 <= i < C ->
  p ∈ local_range C i n ->
  0 <= p - i * (n / C) < n / C /\
  size_t (size_t (i * (n / C)) + (p - i * (n / C))) = p.
Proof.
  intros Hn HC Hi Hp. unfold local_range in Hp. apply elem_of_seqZ in Hp.
  split; [lia|].
  destruct (local_index_ok n C i (p - i * (n / C))) as [-> _]; lia.
Qed.

Lemma sin_parallel_None (sinf : float -> float) (C i n p : Z) mem :
  0 <= n < 2 ^ 32 -> 1 <= C < 2 ^ 32 -> 0 <= i < C ->
  p ∈ assigned C i n -> ~ in_bounds mem p ->
  sin_parallel sinf (Cluster (C + 1) i) ARR n RESULT (boot mem) = None.
Proof.
  intros Hn HC Hi Hp Hbad.
  pose proof (split_bounds n C ltac:(lia) ltac:(lia)) as Hq.
  unfold sin_parallel. cbn [snrt_cluster_core_num snrt_cluster_core_idx].
  replace (C + 1 - 1) with C by lia.
  rewrite (size_t_small C), (size_t_small i) by lia.
  unfold size_div. rewrite decide_False by lia. run_step. cbv zeta.
  rewrite (size_t_small (n / C * C)) by lia.
  rewrite (size_t_small (n - n / C * C)) by lia.
  rewrite (Z.mul_comm C (n / C)).
  rewrite (size_t_small (n / C * C)) by lia.
  unfold for_loop.
  destruct (forM_scalar_cases sinf (fun k => size_t (size_t (i * (n / C)) + k))
              (seqZ 0 (n / C)) (boot mem))
    as [[H1 _]|(st1 & H1 & Hall & HA & HL & _)].
  - apply bind_None. exact H1.
  - erewrite bind_Some by exact H1. apply bind_None.
    apply elem_of_app in Hp as [Hp|Hp].
    + exfalso. apply Hbad.
      destruct (local_range_index n C i p) as [Hk E]; try lia; [exact Hp|].
      specialize (Hall (p - i * (n / C))). simpl in Hall. rewrite E in Hall.
      apply Hall. apply elem_of_seqZ. lia.
    + apply (extra_element_None sinf C i n _ p st1); [|exact Hp|].
      * intros Hx. apply size_t_small. lia.
      * simpl in HA, HL. unfold in_bounds in *. rewrite HA, HL. exact Hbad.
Qed.

Lemma sin_parallel_Some (sinf : float -> float) (C i n : Z) mem :
  0 <= n < 2 ^ 32 -> 1 <= C < 2 ^ 32 -> 0 <= i < C ->
  (forall p, p ∈ assigned C i n -> in_bounds mem p) ->
  is_Some (sin_parallel sinf (Cluster (C + 1) i) ARR n RESULT (boot mem)).
Proof.
  intros Hn HC Hi Hall.
  pose proof (split_bounds n C ltac:(lia) ltac:(lia)) as Hq.
  unfold sin_parallel. cbn [snrt_cluster_core_num snrt_cluster_core_idx].
  replace (C + 1 - 1) with C by lia.
  rewrite (size_t_small C), (size_t_small i) by lia.
  unfold size_div. rewrite decide_False by lia. run_step. cbv zeta.
  rewrite (size_t_small (n / C * C)) by lia.
  rewrite (size_t_small (n - n / C * C)) by lia.
  rewrite (Z.mul_comm C (n / C)).
  rewrite (size_t_small (n / C * C)) by lia.
  unfold for_loop.
  destruct (forM_scalar sinf (fun k => size_t (size_t (i * (n / C)) + k))
              (seqZ 0 (n / C)) (boot mem))
    as (st1 & H1 & (HA & _ & HL & _) & _).
  { intros k Hk. apply elem_of_seqZ in Hk. simpl.
    destruct (local_index_ok n C i k) as [-> ?]; try lia.
    apply (Hall (i * (n / C) + k)). apply elem_of_app. left.
    apply elem_of_seqZ. lia. }
  destruct (extra_element_Some sinf C i n (size_t (n / C * C + i)) st1)
    as (st2 & G1).
  { intros Hx. apply size_t_small. lia. }
  { intros p Hp. unfold in_bounds. rewrite HA, HL.
    apply (Hall p). apply elem_of_app. by right. }
  erewrite bind_Some by exact H1. erewrite bind_Some by exact G1.
  by eexists.
Qed.

Lemma block_in_bounds (C i n : Z) mem :
  0 <= n -> 1 <= C -> 0 <= i < C ->
  (forall p, p ∈ assigned C i n -> in_bounds mem p) ->
  i * (n / C) + n / C <= Z.of_nat (length (mem BArr)) /\
  i * (n / C) + n / C <= Z.of_nat (length (mem BResult)).
Proof.
  intros Hn HC Hi Hall.
  pose proof (split_bounds n C ltac:(lia) ltac:(lia)) as Hq.
  destruct (decide (n / C = 0)) as [->|Hpos]; [lia|].
  assert (H : in_bounds mem (i * (n / C) + n / C - 1)).
  { apply Hall. apply elem_of_app. left. apply elem_of_seqZ. lia. }
  unfold in_bounds in H. lia.
Qed.

Lemma sin_ssr_parallel_None (sinf : float -> float) (C i n p : Z) mem :
  0 <= n < 2 ^ 32 -> 1 <= C < 2 ^ 32 -> 0 <= i < C ->
  p ∈ assigned C i n -> ~ in_bounds mem p ->
  sin_ssr_parallel sinf (Cluster (C + 1) i) ARR n RESULT (boot mem) = None.
Proof.
  intros Hn HC Hi Hp Hbad.
  pose proof (split_bounds n C ltac:(lia) ltac:(lia)) as Hq.
  assert (0 <= i * (n / C) /\ i * (n / C) + n / C <= n) as [Hlo Hhi] by nia.
  unfold sin_ssr_parallel. cbn [snrt_cluster_core_num snrt_cluster_core_idx].
  replace (C + 1 - 1) with C by lia.
  rewrite (size_t_small C), (size_t_small i) by lia.
  unfold size_div. rewrite decide_False by lia. run_step. cbv zeta.
  rewrite (size_t_small (n / C * C)) by lia.
  rewrite (size_t_small (n - n / C * C)) by lia.
  rewrite (Z.mul_comm C (n / C)).
  rewrite (size_t_small (n / C * C)) by lia.
  rewrite (size_t_small (i * (n / C))) by lia.
  do 5 run_step.
  match goal with |- context [bind (for_loop _ _) _ ?s] => set (st0 := s) end.
  destruct (for_loop_stream_cases (sin_ssr_parallel_iteration sinf) sinf
              sizeof_float (n / C) (n / C) (i * (n / C)) (n / C) st0)
    as [[H1 _]|(st1 & H1 & Hall & HA & HL & _)]; try lia.
  { intros st c. apply (sin_ssr_iteration_ok sinf st). }
  { intros st c. apply sin_ssr_parallel_iteration_None. }
  { split_and!; reflexivity. }
  - apply bind_None. exact H1.
  - erewrite bind_Some by exact H1. run_step. apply bind_None.
    apply elem_of_app in Hp as [Hp|Hp].
    + exfalso. apply Hbad. apply (Hall p Hp).
    + apply (extra_element_None sinf C i n _ p); [|exact Hp|].
      * intros Hx. apply size_t_small. lia.
      * simpl in HA, HL. unfold in_bounds in *. simpl. rewrite HA, HL.
        exact Hbad.
Qed.

Lemma sin_ssr_parallel_Some (sinf : float -> float) (C i n : Z) mem :
  0 <= n < 2 ^ 32 -> 1 <= C < 2 ^ 32 -> 0 <= i < C ->
  (forall p, p ∈ assigned C i n -> in_bounds mem p) ->
  is_Some (sin_ssr_parallel sinf (Cluster (C + 1) i) ARR n RESULT (boot mem)).
Proof.
  intros Hn HC Hi Hall.
  pose proof (split_bounds n C ltac:(lia) ltac:(lia)) as Hq.
  pose proof (block_in_bounds C i n mem ltac:(lia) ltac:(lia) Hi Hall)
    as [Ba Br].
  assert (0 <= i * (n / C) /\ i * (n / C) + n / C <= n) as [Hlo Hhi] by nia.
  unfold sin_ssr_parallel. cbn [snrt_cluster_core_num snrt_cluster_core_idx].
  replace (C + 1 - 1) with C by lia.
  rewrite (size_t_small C), (size_t_small i) by lia.
  unfold size_div. rewrite decide_False by lia. run_step. cbv zeta.
  rewrite (size_t_small (n / C * C)) by lia.
  rewrite (size_t_small (n - n / C * C)) by lia.
  rewrite (Z.mul_comm C (n / C)).
  rewrite (size_t_small (n / C * C)) by lia.
  rewrite (size_t_small (i * (n / C))) by lia.
  do 5 run_step.
  match goal with |- context [bind (for_loop _ _) _ ?s] => set (st0 := s) end.
  destruct (for_loop_stream (sin_ssr_parallel_iteration sinf) sinf sizeof_float
              (n / C) (n / C) (i * (n / C)) (n / C) st0)
    as (st1 & H1 & _ & (HA & _ & HL & _) & _);
    try (simpl; lia).
  { intros st c. apply (sin_ssr_iteration_ok sinf st). }
  { split_and!; reflexivity. }
  destruct (extra_element_Some sinf C i n (size_t (n / C * C + i))
              (set_ssr false st1)) as (st2 & G1).
  { intros Hx. apply size_t_small. lia. }
  { intros p Hp. unfold in_bounds. simpl. rewrite HA, HL.
    apply (Hall p). apply elem_of_app. by right. }
  erewrite bind_Some by exact H1. run_step.
  erewrite bind_Some by exact G1. by eexists.
Qed.

Lemma sin_ssr_omp_None (sinf : float -> float) (C i n p : Z) mem :
  0 <= n < 2 ^ 32 -> 1 <= C < 2 ^ 32 -> 0 <= i < C -> n / C + 1 < 2 ^ 32 ->
  p ∈ assigned C i n -> ~ in_bounds mem p ->
  sin_ssr_omp sinf (Cluster (C + 1) i) ARR n RESULT (boot mem) = None.
Proof.
  intros Hn HC Hi Hq1 Hp Hbad.
  pose proof (split_bounds n C ltac:(lia) ltac:(lia)) as Hq.
  assert (0 <= i * (n / C) /\ i * (n / C) + n / C <= n) as [Hlo Hhi] by nia.
  unfold sin_ssr_omp. cbn [snrt_cluster_core_num snrt_cluster_core_idx].
  replace (C + 1 - 1) with C by lia.
  rewrite (size_t_small C), (size_t_small i) by lia.
  unfold size_div. rewrite decide_False by lia. run_step. cbv zeta.
  rewrite (size_t_small (n / C * C)) by lia.
  rewrite (size_t_small (n - n / C * C)) by lia.
  rewrite (size_t_small (i * (n / C))) by lia.
  rewrite (size_t_small (n / C + 1)) by lia.
  do 7 run_step.
  match goal with |- context [bind (for_loop _ _) _ ?s] => set (st0 := s) end.
  destruct (for_loop_stream_cases (sin_ssr_iteration sinf) sinf
              sizeof_float (n / C) (n / C + 1) (i * (n / C)) (n / C) st0)
    as [[H1 _]|(st1 & H1 & Hall & HA & HL & _)]; try lia.
  { intros st c. apply sin_ssr_iteration_ok. }
  { intros st c. apply sin_ssr_iteration_None. }
  { split_and!; reflexivity. }
  - apply bind_None. exact H1.
  - erewrite bind_Some by exact H1. run_step. apply bind_None.
    apply elem_of_app in Hp as [Hp|Hp].
    + exfalso. apply Hbad. apply (Hall p Hp).
    + apply (extra_element_None sinf C i n _ p); [|exact Hp|].
      * intros Hx. apply size_t_small. lia.
      * simpl in HA, HL. unfold in_bounds in *. simpl. rewrite HA, HL.
        exact Hbad.
Qed.

Lemma sin_ssr_omp_Some (sinf : float -> float) (C i n : Z) mem :
  0 <= n < 2 ^ 32 -> 1 <= C < 2 ^ 32 -> 0 <= i < C -> n / C + 1 < 2 ^ 32 ->
  (forall p, p ∈ assigned C i n -> in_bounds mem p) ->
  is_Some (sin_ssr_omp sinf (Cluster (C + 1) i) ARR n RESULT (boot mem)).
Proof.
  intros Hn HC Hi Hq1 Hall.
  pose proof (split_bounds n C ltac:(lia) ltac:(lia)) as Hq.
  pose proof (block_in_bounds C i n mem ltac:(lia) ltac:(lia) Hi Hall)
    as [Ba Br].
  assert (0 <= i * (n / C) /\ i * (n / C) + n / C <= n) as [Hlo Hhi] by nia.
  unfold sin_ssr_omp. cbn [snrt_cluster_core_num snrt_cluster_core_idx].
  replace (C + 1 - 1) with C by lia.
  rewrite (size_t_small C), (size_t_small i) by lia.
  unfold size_div. rewrite decide_False by lia. run_step. cbv zeta.
  rewrite (size_t_small (n / C * C)) by lia.
  rewrite (size_t_small (n - n / C * C)) by lia.
  rewrite (size_t_small (i * (n / C))) by lia.
  rewrite (size_t_small (n / C + 1)) by lia.
  do 7 run_step.
  match goal with |- context [bind (for_loop _ _) _ ?s] => set (st0 := s) end.
  destruct (for_loop_stream (sin_ssr_iteration sinf) sinf sizeof_float
              (n / C) (n / C + 1) (i * (n / C)) (n / C) st0)
    as (st1 & H1 & _ & (HA & _ & HL & _) & _);
    try (simpl; lia).
  { intros st c. apply sin_ssr_iteration_ok. }
  { split_and!; reflexivity. }
  destruct (extra_element_Some sinf C i n (size_t (n / C * C + i))
              (set_ssr false st1)) as (st2 & G1).
  { intros Hx. apply size_t_small. lia. }
  { intros p Hp. unfold in_bounds. simpl. rewrite HA, HL.
    apply (Hall p). apply elem_of_app. by right. }
  erewrite bind_Some by exact H1. run_step.
  erewrite bind_Some by exact G1. by eexists.
Qed.

Lemma lookup_iteration_None (sinf exp : float -> float) (size j : Z)
    (st : machine) :
  ~ addressable sinf exp SinBaselineLookupTable size (m_mem st) j ->
  (do x <- load ARR j;
   match int_of_float (f32_mul x (lookup_factor size)) with
   | Some k => do v <- load TABLE k; store RESULT j v
   | None => undefined
   end) st = None.
Proof.
  intros Hbad. unfold bind, load. simpl. rewrite Z.add_0_l.
  destruct (zlookup (m_mem st BArr) j) as [x|] eqn:Hx; [|reflexivity].
  destruct (int_of_float (f32_mul x (lookup_factor size))) as [k|] eqn:Hk;
    [|reflexivity].
  simpl. rewrite Z.add_0_l.
  destruct (zlookup (m_mem st BTable) k) as [v|] eqn:Hv; [|reflexivity].
  unfold store. simpl. rewrite Z.add_0_l.
  rewrite zlookup_None; [reflexivity|].
  intros Hj. apply Hbad. split; [lia|]. exists x. split; [exact Hx|].
  simpl. unfold lookup_value, table_index. rewrite Hk. simpl. rewrite Hv.
  by eexists.
Qed.

Lemma forM_lookup_None (sinf exp : float -> float) (size : Z) (l : list Z) :
  forall st : machine,
  (exists j, j ∈ l /\
     ~ addressable sinf exp SinBaselineLookupTable size (m_mem st) j) ->
  forM l (fun i =>
            do x <- load ARR i;
            match int_of_float (f32_mul x (lookup_factor size)) with
            | Some k => do v <- load TABLE k; store RESULT i v
            | None => undefined
            end) st = None.
Proof.
  induction l as [|j l IH]; intros st (k & Hk & Hbad); [inversion Hk|].
  cbn [forM].
  destruct (addressable_dec sinf exp SinBaselineLookupTable size (m_mem st) j)
    as [(Hr & x & Hx & [v Hv])|Hj].
  - pose proof (zlookup_Some _ _ _ Hx) as Hin.
    destruct (lookup_iteration size j st x v Hx Hv) as (st1 & Hrun & Hm & _);
      [lia|].
    erewrite bind_Some by exact Hrun. apply IH.
    destruct Hm as (HA & HT & HL & _).
    apply elem_of_cons in Hk as [->|Hk].
    + exfalso. apply Hbad. split; [exact Hr|]. exists x. split; [exact Hx|].
      by exists v.
    + exists k. split; [exact Hk|].
      by rewrite (addressable_ext sinf exp _ size (m_mem st) (m_mem st1)).
  - apply bind_None. by apply (lookup_iteration_None sinf exp).
Qed.

Lemma sin_baseline_lookup_table_None (sinf exp : float -> float)
    (n size p : Z) mem :
  p ∈ seqZ 0 n ->
  ~ addressable sinf exp SinBaselineLookupTable size mem p ->
  sin_baseline_lookup_table ARR n RESULT TABLE size (boot mem) = None.
Proof.
  intros Hp Hbad. unfold sin_baseline_lookup_table. cbv zeta.
  apply bind_None. unfold for_loop.
  apply (forM_lookup_None sinf exp). eauto.
Qed.

Lemma addressable_fits (sinf exp : float -> float) (S : strategy)
    (n size : Z) mem :
  0 <= n < 2 ^ 32 ->
  (forall j, j ∈ seqZ 0 n -> addressable sinf exp S size mem j) ->
  fits n mem.
Proof.
  intros Hn Hall. unfold fits. split; [exact Hn|].
  destruct (decide (n = 0)) as [->|Hpos]; [lia|].
  destruct (Hall (n - 1)) as (Hr & x & Hx & _); [apply elem_of_seqZ; lia|].
  apply zlookup_Some in Hx. lia.
Qed.

Lemma completes_iff {A} (r : option A) (l : list Z) (P : Z -> Prop) :
  (forall j, P j \/ ~ P j) ->
  ((forall j, j ∈ l -> P j) -> is_Some r) ->
  (forall p, p ∈ l -> ~ P p -> r = None) ->
  (is_Some r <-> forall j, j ∈ l -> P j).
Proof.
  intros Hdec Hs Hn. split; [|exact Hs].
  intros Hr j Hj. destruct (Hdec j) as [|Hb]; [assumption|].
  rewrite (Hn j Hj Hb) in Hr. by apply is_Some_None in Hr.
Qed.

(** A kernel of an unpartitioned strategy that evaluates a function
    completes when all of [0 .. n-1] is addressable. *)
Lemma unpartitioned_Some (sinf exp : float -> float) (S : strategy)
    (hw : cluster) (n size : Z) mem :
  partitioned S = false -> 0 <= n < 2 ^ 32 ->
  (forall j, j ∈ seqZ 0 n -> addressable sinf exp S size mem j) ->
  is_Some (kernel sinf exp S hw n size (boot mem)).
Proof.
  intros Hpart Hn Hall.
  destruct (kernel_ok sinf exp S hw n size mem) as (st & H & _);
    [|rewrite H; by eexists].
  split_and!.
  - by apply (addressable_fits sinf exp S n size).
  - rewrite Hpart. discriminate.
  - intros ->. discriminate.
  - intros ->. intros j Hj.
    destruct (Hall j) as (_ & x & Hx & [v Hv]); [apply elem_of_seqZ; lia|].
    eauto.
Qed.

(** Defined behaviour, exactly.  For a well-formed call ([n] a
    [size_t], a partitioned kernel on a worker core, no wrap of
    [local_n + 1] in [sin_ssr_omp]) the kernel completes if and only if every
    position the calling core is responsible for holds an input element,
    lies inside the output buffer and, for the lookup kernel, maps to a slot
    inside the table.  No kernel checks any of this: otherwise the call
    leaves the buffers (undefined behaviour).  The two kernels with an
    empty body complete whatever [n] is. *)
Theorem kernel_completes_iff_positions_addressable
    (sinf exp : float -> float) (S : strategy) (hw : cluster) (n size : Z)
    (mem : buffer -> list float) :
  well_formed_call S hw n ->
  (is_Some (kernel sinf exp S hw n size (boot mem)) <->
   forall j, j ∈ touched S hw n -> addressable sinf exp S size mem j).
Proof.
  intros (Hn & Hpart & Homp).
  destruct hw as [cn ci]. simpl in Hpart, Homp.
  assert (Hcn : Cluster cn ci = Cluster (cn - 1 + 1) ci) by (f_equal; lia).
  assert (Hin : forall j,
             (forall x, is_Some (value_of sinf exp S (mem BTable) size x)) ->
             ~ addressable sinf exp S size mem j -> ~ in_bounds mem j).
  { intros j Hv Hb Hi. apply Hb. by apply addressable_in_bounds. }
  assert (Hto : forall l : list Z,
             (forall x, is_Some (value_of sinf exp S (mem BTable) size x)) ->
             (forall j, j ∈ l -> addressable sinf exp S size mem j) ->
             forall p, p ∈ l -> in_bounds mem p).
  { intros l Hv Hall p Hp. apply (addressable_in_bounds sinf exp S size); auto. }
  apply completes_iff; [apply addressable_dec| |].
  - destruct (partitioned S) eqn:HP.
    + destruct Hpart as [HC Hi]; [reflexivity|].
      destruct S; try discriminate; unfold touched, assigned_to;
        simpl partitioned; cbn [snrt_cluster_core_num snrt_cluster_core_idx];
        intros Hall; simpl kernel; rewrite Hcn.
      * apply sin_parallel_Some; try assumption.
        apply Hto; [by eexists|exact Hall].
      * apply sin_ssr_parallel_Some; try assumption.
        apply Hto; [by eexists|exact Hall].
      * apply sin_ssr_omp_Some; try assumption; [by apply Homp|].
        apply Hto; [by eexists|exact Hall].
    + destruct S; try discriminate HP; unfold touched, assigned_to;
        simpl partitioned; intros Hall;
        try (apply unpartitioned_Some; [reflexivity|exact Hn|exact Hall]).
        * destruct (sin_ssr_lookup_table_ok n size mem) as (st & H & _).
          simpl kernel. rewrite H. by eexists.
        * simpl kernel. rewrite sigmoid_ssr_frep_ok. by eexists.
  - destruct S; unfold touched, assigned_to; simpl partitioned;
      cbn [snrt_cluster_core_num snrt_cluster_core_idx];
      intros p Hp Hbad; simpl kernel.
    + apply (sin_baseline_None sinf n p); [exact Hp|].
      apply Hin; [by eexists|exact Hbad].
    + apply (sin_ssr_None sinf n p); [exact Hp|].
      apply Hin; [by eexists|exact Hbad].
    + apply (sin_ssr_frep_None sinf n p); [exact Hp|].
      apply Hin; [by eexists|exact Hbad].
    + destruct Hpart as [HC Hi]; [reflexivity|]. rewrite Hcn.
      apply (sin_parallel_None sinf (cn - 1) ci n p); try assumption.
      apply Hin; [by eexists|exact Hbad].
    + destruct Hpart as [HC Hi]; [reflexivity|]. rewrite Hcn.
      apply (sin_ssr_parallel_None sinf (cn - 1) ci n p); try assumption.
      apply Hin; [by eexists|exact Hbad].
    + by apply (sin_baseline_lookup_table_None sinf exp n size p).
    + apply (sin_omp_None sinf n p); [exact Hp|].
      apply Hin; [by eexists|exact Hbad].
    + inversion Hp.
    + destruct Hpart as [HC Hi]; [reflexivity|]. rewrite Hcn.
      apply (sin_ssr_omp_None sinf (cn - 1) ci n p); try assumption;
        [by apply Homp|].
      apply Hin; [by eexists|exact Hbad].
    + apply (sigmoid_baseline_None exp n p); [exact Hp|].
      apply Hin; [by eexists|exact Hbad].
    + apply (sigmoid_ssr_None exp n p); [exact Hp|].
      apply Hin; [by eexists|exact Hbad].
    + inversion Hp.
Qed.

(** The completion criterion for worker 2 of [sin_ssr_omp] on ten
    elements. *)
Lemma kernel_completes_iff_positions_addressable_sample :
  is_Some (kernel (fun x => x) (fun x => x) SinSsrOmp (Cluster 4 2) 10 0
                  (boot (memory (ramp 0 10) (zeros 9) []))) <->
  forall j, j ∈ touched SinSsrOmp (Cluster 4 2) 10 ->
            addressable (fun x => x) (fun x => x) SinSsrOmp 0
                        (memory (ramp 0 10) (zeros 9) []) j.
Proof.
  apply (kernel_completes_iff_positions_addressable (fun x => x) (fun x => x)
           SinSsrOmp (Cluster 4 2) 10 0 (memory (ramp 0 10) (zeros 9) [])).
  unfold well_formed_call.
  split; [lia|].
  split; [intros _; simpl; lia|intros _; reflexivity].
Defined.

(** ** The buffers of the benchmark *)

Lemma seqZ_nat_cons (k len : nat) :
  seqZ (Z.of_nat k) (Z.of_nat (S len)) =
  Z.of_nat k :: seqZ (Z.of_nat (S k)) (Z.of_nat len).
Proof.
  rewrite seqZ_cons by lia. f_equal. f_equal; lia.
Qed.

Lemma take_insert_next {A} (l : list A) (k : nat) (x : A) :
  (k < length l)%nat -> take (S k) (<[k := x]> l) = take k l ++ [x].
Proof.
  intros Hk. rewrite (take_S_r _ _ x) by (by apply list_lookup_insert_eq).
  rewrite take_insert_ge by lia. reflexivity.
Qed.

Lemma each_init_mem (k len : nat) :
  forall st, length (b_mem st memory_x) = (k + len)%nat ->
  exists st',
    each (seqZ (Z.of_nat k) (Z.of_nat len))
         (fun i => bstore memory_x i (init_value i)) st = (tt, st') /\
    b_reads st' = b_reads st /\
    b_mem st' memory_x =
      take k (b_mem st memory_x) ++
      (init_value <$> seqZ (Z.of_nat k) (Z.of_nat len)) /\
    forall b, b <> memory_x -> b_mem st' b = b_mem st b.
Proof.
  revert k. induction len as [|len IH]; intros k st Hlen.
  - exists st. change (seqZ (Z.of_nat k) (Z.of_nat 0)) with (@nil Z).
    simpl. rewrite app_nil_r, Nat.add_0_r in *.
    split_and!; try reflexivity. by rewrite take_ge by lia.
  - rewrite seqZ_nat_cons. cbn [each].
    unfold bbind at 1. unfold bstore at 1.
    match goal with |- context [each _ _ ?s] =>
      destruct (IH (S k) s) as (st' & H1 & H2 & H3 & H4) end.
    { cbn [b_mem]. rewrite decide_True by reflexivity.
      rewrite length_insert. lia. }
    exists st'. rewrite H1. cbn [b_mem b_reads] in *.
    split_and!; [reflexivity|exact H2| |].
    + rewrite H3. rewrite decide_True by reflexivity.
      rewrite Nat2Z.id, take_insert_next by lia.
      rewrite fmap_cons, <- app_assoc. reflexivity.
    + intros b Hb. rewrite H4 by exact Hb. by rewrite decide_False.
Qed.

Lemma each_copy_mem (src dst : buf) (k len : nat) :
  src <> dst ->
  forall st, length (b_mem st dst) = (k + len)%nat ->
  exists st',
    each (seqZ (Z.of_nat k) (Z.of_nat len))
         (fun i => bbind (bload src i) (fun v => bstore dst i v)) st
      = (tt, st') /\
    b_reads st' = b_reads st /\
    b_mem st' dst =
      take k (b_mem st dst) ++
      ((fun i => default S754_nan (zlookup (b_mem st src) i)) <$>
         seqZ (Z.of_nat k) (Z.of_nat len)) /\
    forall b, b <> dst -> b_mem st' b = b_mem st b.
Proof.
  intros Hne. revert k. induction len as [|len IH]; intros k st Hlen.
  - exists st. change (seqZ (Z.of_nat k) (Z.of_nat 0)) with (@nil Z).
    simpl. rewrite app_nil_r, Nat.add_0_r in *.
    split_and!; try reflexivity. by rewrite take_ge by lia.
  - rewrite seqZ_nat_cons. cbn [each].
    unfold bbind at 1. unfold bbind at 1. unfold bload at 1.
    unfold bstore at 1. cbn [b_mem b_reads b_trace].
    match goal with |- context [each _ _ ?s] =>
      destruct (IH (S k) s) as (st' & H1 & H2 & H3 & H4) end.
    { cbn [b_mem]. rewrite decide_True by reflexivity.
      rewrite length_insert. lia. }
    exists st'. rewrite H1. cbn [b_mem b_reads] in *.
    rewrite decide_True in H3 by reflexivity.
    rewrite decide_False in H3 by exact Hne.
    split_and!; [reflexivity|exact H2| |].
    + rewrite H3.
      rewrite Nat2Z.id, take_insert_next by lia.
      rewrite fmap_cons, <- app_assoc. reflexivity.
    + intros b Hb. rewrite H4 by exact Hb. by rewrite decide_False.
Qed.

Lemma zlookup_fmap_seqZ {A} (f : Z -> A) (n i : Z) :
  0 <= i < n -> zlookup (f <$> seqZ 0 n) i = Some (f i).
Proof.
  intros Hi. unfold zlookup. rewrite decide_True by lia.
  rewrite list_lookup_fmap.
  rewrite (proj2 (lookup_seqZ 0 n (Z.to_nat i) i)) by lia. reflexivity.
Qed.

Lemma copy_of_fmap_seqZ (f : Z -> float) (n : Z) :
  (fun i => default S754_nan (zlookup (f <$> seqZ 0 n) i)) <$> seqZ 0 n
  = f <$> seqZ 0 n.
Proof.
  apply list_fmap_ext. intros k i Hi. apply lookup_seqZ in Hi.
  rewrite zlookup_fmap_seqZ by lia. reflexivity.
Qed.

Lemma seqZ_to_nat (n : Z) :
  seqZ 0 n = seqZ (Z.of_nat 0) (Z.of_nat (Z.to_nat n)).
Proof. unfold seqZ. rewrite Nat2Z.id. reflexivity. Qed.

(** What the benchmark leaves in its buffers.  After [main] on core 0
    the source buffer holds [(float)i - 20.0] at every [i < size], and both
    target buffers are element-for-element copies of it: each of the two
    [verify_vector] calls is handed two equal vectors. *)
Theorem benchmark_targets_equal_source (size : Z) (mcycle : nat -> Z) :
  b_mem (snd (main size mcycle 0 start)) memory_x
    = init_value <$> seqZ 0 size /\
  b_mem (snd (main size mcycle 0 start)) memory_target
    = init_value <$> seqZ 0 size /\
  b_mem (snd (main size mcycle 0 start)) memory_target_from_l1
    = init_value <$> seqZ 0 size.
Proof.
  assert (Hlen : length (replicate (Z.to_nat size) (S754_zero false))
                 = (0 + Z.to_nat size)%nat) by (by rewrite length_replicate).
  unfold main.
  destruct (decide (0 <> 0)) as [H|_]; [exfalso; apply H; reflexivity|].
  unfold start, allocate, snrt_l1alloc, bfor.
  rewrite (seqZ_to_nat size).
  do 3 bstep.
  match goal with |- context [bbind (each _ _) _ ?s] =>
    destruct (each_init_mem 0 (Z.to_nat size) s) as (s1 & R1 & _ & X1 & O1) end.
  { exact Hlen. }
  cbn [b_mem] in X1, O1. rewrite take_0, app_nil_l in X1.
  erewrite bbind_eq by exact R1. bstep.
  match goal with |- context [bbind (each _ _) _ ?s] =>
    destruct (each_copy_mem memory_x memory_target 0 (Z.to_nat size)
                ltac:(discriminate) s) as (s2 & R2 & _ & X2 & O2) end.
  { cbn [b_mem]. rewrite O1 by discriminate. exact Hlen. }
  cbn [b_mem] in X2, O2. rewrite take_0, app_nil_l, X1 in X2.
  rewrite <- seqZ_to_nat, copy_of_fmap_seqZ in X2.
  rewrite (seqZ_to_nat size) in X2.
  erewrite bbind_eq by exact R2. do 4 bstep.
  match goal with |- context [bbind (each _ _) _ ?s] =>
    destruct (each_copy_mem memory_x memory_target_from_l1 0 (Z.to_nat size)
                ltac:(discriminate) s) as (s3 & R3 & _ & X3 & O3) end.
  { cbn [b_mem]. rewrite O2, O1 by discriminate. exact Hlen. }
  cbn [b_mem] in X3, O3.
  rewrite take_0, app_nil_l in X3.
  rewrite (decide_False (P := memory_x = memory_l1)) in X3 by discriminate.
  rewrite (O2 memory_x), X1 in X3 by discriminate.
  rewrite <- seqZ_to_nat, copy_of_fmap_seqZ in X3.
  rewrite (seqZ_to_nat size) in X3.
  erewrite bbind_eq by exact R3. do 4 bstep.
  unfold bret. cbn [snd b_mem].
  rewrite X3, !O3, !O2, X2, X1 by discriminate.
  rewrite <- seqZ_to_nat. cbn. auto.
Qed.


(** ** The OpenMP loop under any schedule *)

(** Whatever order the iterations of the work-sharing loop of [sin_omp]
    take effect in, the call completes and leaves the buffers exactly as the
    index order does: the output holds [sinf(input[i])] at every [i < n] and
    the input and the table are unchanged.  Only the order of the accesses
    follows the schedule. *)
Theorem sin_omp_result_independent_of_schedule (sinf : float -> float)
    (n : Z) (mem : buffer -> list float) (schedule : list Z) :
  fits n mem -> schedule ≡ₚ seqZ 0 n ->
  exists st st',
    sin_omp sinf ARR n RESULT (boot mem) = Some (RetInt 0, st) /\
    sin_omp_scheduled sinf schedule ARR RESULT (boot mem)
      = Some (RetInt 0, st') /\
    m_mem st' BResult = m_mem st BResult /\
    m_mem st' BArr = mem BArr /\ m_mem st' BTable = mem BTable /\
    written (m_trace st') = schedule /\
    read_positions (m_trace st') = schedule.
Proof.
  intros Hfit Hperm. pose proof Hfit as (Hn & Ha & Hr).
  destruct (sin_omp_ok sinf n mem Hfit) as (st & R & (_ & _ & _ & E) & _).
  destruct (forM_scalar sinf (fun i => i) schedule (boot mem))
    as (st' & R' & (A' & T' & _ & E') & Tr' & _).
  { intros i Hi. rewrite Hperm in Hi. apply elem_of_seqZ in Hi.
    simpl. lia. }
  rewrite list_fmap_id in E', Tr'. simpl in A', T', E', Tr'.
  exists st, st'. split_and!.
  - exact R.
  - unfold sin_omp_scheduled. erewrite bind_Some by exact R'. reflexivity.
  - apply zlookup_ext. intros j. rewrite E, E'.
    destruct (decide (j ∈ schedule)) as [Hj|Hj];
      destruct (decide (j ∈ seqZ 0 n)) as [Hk|Hk]; try reflexivity;
      exfalso; [apply Hk; by rewrite <- Hperm|apply Hj; by rewrite Hperm].
  - exact A'.
  - exact T'.
  - rewrite Tr'. apply written_scalar.
  - rewrite Tr'. apply read_scalar.
Qed.

(** Three iterations taking effect in the order 2, 0, 1. *)
Lemma sin_omp_result_independent_of_schedule_sample :
  exists st st',
    sin_omp (fun x => x) ARR 3 RESULT
            (boot (memory (ramp 0 3) (zeros 3) [])) = Some (RetInt 0, st) /\
    sin_omp_scheduled (fun x => x) [2; 0; 1] ARR RESULT
            (boot (memory (ramp 0 3) (zeros 3) [])) = Some (RetInt 0, st') /\
    m_mem st' BResult = m_mem st BResult /\
    m_mem st' BArr = ramp 0 3 /\ m_mem st' BTable = [] /\
    written (m_trace st') = [2; 0; 1] /\
    read_positions (m_trace st') = [2; 0; 1].
Proof.
  apply (sin_omp_result_independent_of_schedule (fun x => x) 3
           (memory (ramp 0 3) (zeros 3) []) [2; 0; 1]).
  - unfold fits. simpl. lia.
  - change (seqZ 0 3) with [0; 1; 2].
    apply perm_trans with [0; 2; 1]; [apply perm_swap|].
    apply perm_skip. apply perm_swap.
Defined.
